(** * ShankTools: byte-exact decoding and re-encoding of the Shank 2
      animation container (canim.py) and of its event-metadata companion
      (canim_meta.py).

    The development is a shallow embedding of the two Python modules:
    - [Py]        the Python primitives both modules lean on (byte strings,
                  slicing, [struct], exceptions, hexadecimal text);
    - [Canim]     canim.py: readers, validation predicates, the symbol / build
                  decoder, JSON export and rebuild;
    - [CanimMeta] canim_meta.py: chunk records, the verify-or-fallback loader,
                  the rebuild, the edit operations and the JSON interchange.
    Definitions come first, the theorems about them follow. *)

From Stdlib Require Import String Ascii.
From Stdlib Require Import NArith ZArith QArith List Bool Lia.
From Stdlib Require Import Strings.Byte DecimalString.
From Stdlib Require Import Uint63.
From Stdlib Require Import Floats.PrimFloat Floats.FloatOps Floats.SpecFloat.
Import ListNotations.

Local Open Scope N_scope.

(** Python writes [a > b] and [a >= b]; on [N] they are [b < a] and
    [b <= a]. *)
Notation "a >? b" := (N.ltb b a) (at level 70, no associativity) : N_scope.
Notation "a >=? b" := (N.leb b a) (at level 70, no associativity) : N_scope.

(* ================================================================== *)
(** * Python primitives *)
(* ================================================================== *)

Module Py.

(** A [bytes] / [bytearray] value. *)
Definition bytes := list byte.

(** Python [str]: a sequence of Unicode code points. *)
Definition pystr := list N.

Definition pystr_of (s : string) : pystr :=
  map N_of_ascii (list_ascii_of_string s).

(** The exceptions the two modules can meet.  [UnicodeError] (decode and
    encode errors) is a subclass of [ValueError] in Python; [StructError] is
    [struct.error], which is not. *)
Inductive exn := ValueError | IndexError | StructError | UnicodeError | OverflowError.

(** Outcome of a computation: a value, a raised exception, or a loop that
    used up the iteration budget it was given. *)
Inductive res (A : Type) :=
| Ok (a : A)
| Raise (e : exn)
| OutOfFuel.
Arguments Ok {A} a.
Arguments Raise {A} e.
Arguments OutOfFuel {A}.

Definition bind {A B} (r : res A) (k : A -> res B) : res B :=
  match r with
  | Ok a => k a
  | Raise e => Raise e
  | OutOfFuel => OutOfFuel
  end.

(** [except ValueError] *)
Definition is_ValueError (e : exn) : bool :=
  match e with ValueError | UnicodeError => true | _ => false end.

(** [except (ValueError, IndexError)] *)
Definition is_ValueError_or_IndexError (e : exn) : bool :=
  match e with ValueError | UnicodeError | IndexError => true | _ => false end.

(** [try: r  except <handled>: h] *)
Definition try_except {A} (handled : exn -> bool) (r : res A) (h : res A) : res A :=
  match r with
  | Raise e => if handled e then h else Raise e
  | _ => r
  end.

(** [len(d)] *)
Definition len {A} (d : list A) : N := N.of_nat (length d).

(** [d[a:b]] for non-negative [a], [b]; like Python, a slice never fails and
    is clipped to the end of the sequence. *)
Definition slice {A} (d : list A) (a b : N) : list A :=
  firstn (N.to_nat (b - a)) (skipn (N.to_nat a) d).

(** [d[a:]] *)
Definition slice_from {A} (d : list A) (a : N) : list A := skipn (N.to_nat a) d.

Definition u8_at (d : bytes) (p : N) : N := Byte.to_N (nth (N.to_nat p) d x00).

(** [d[p]] on a byte string *)
Definition index (d : bytes) (p : N) : res N :=
  if p <? len d then Ok (u8_at d p) else Raise IndexError.

Definition byte_of (n : N) : byte :=
  match Byte.of_N (n mod 256) with Some b => b | None => x00 end.

(** Little-endian value of a byte string. *)
Fixpoint le_N (bs : bytes) : N :=
  match bs with
  | [] => 0
  | b :: t => Byte.to_N b + 256 * le_N t
  end.

(** The [k] low bytes of [v], little-endian. *)
Fixpoint le_bytes (k : nat) (v : N) : bytes :=
  match k with
  | O => []
  | S k' => byte_of (v mod 256) :: le_bytes k' (v / 256)
  end.

(** [struct.unpack_from('<H', d, p)[0]] and ['<I']: [struct.error] when the
    field does not fit in the buffer. *)
Definition unpack_from_H (d : bytes) (p : N) : res N :=
  if p + 2 <=? len d then Ok (le_N (slice d p (p + 2))) else Raise StructError.

Definition unpack_from_I (d : bytes) (p : N) : res N :=
  if p + 4 <=? len d then Ok (le_N (slice d p (p + 4))) else Raise StructError.

(** [struct.pack('<H', v)] and ['<I']: [struct.error] when [v] is out of
    range. *)
Definition pack_H (v : N) : res bytes :=
  if v <? 65536 then Ok (le_bytes 2 v) else Raise StructError.

Definition pack_I (v : N) : res bytes :=
  if v <? 4294967296 then Ok (le_bytes 4 v) else Raise StructError.

(** [bs.decode('ascii', errors='replace')]: a byte above 127 becomes
    U+FFFD, so the text has one code point per byte. *)
Definition decode_ascii_replace (bs : bytes) : pystr :=
  map (fun b => if Byte.to_N b <? 128 then Byte.to_N b else 65533) bs.

(** [bs.decode('ascii')] *)
Definition decode_ascii (bs : bytes) : res pystr :=
  if forallb (fun b => Byte.to_N b <? 128) bs
  then Ok (map Byte.to_N bs) else Raise UnicodeError.

(** [s.encode('ascii')] *)
Definition encode_ascii (s : pystr) : res bytes :=
  if forallb (fun c => c <? 128) s
  then Ok (map byte_of s) else Raise UnicodeError.

(** [c in s] for a single character [c]. *)
Definition contains_char (c : N) (s : pystr) : bool := existsb (N.eqb c) s.

(** ** Hexadecimal text: [bytes.hex()] and [bytes.fromhex()] *)

Definition hex_digit (n : N) : ascii :=
  if n <? 10 then ascii_of_N (48 + n) else ascii_of_N (87 + n).

Definition hex_of_byte (b : byte) : string :=
  String (hex_digit (Byte.to_N b / 16))
    (String (hex_digit (Byte.to_N b mod 16)) EmptyString).

Fixpoint hex (bs : bytes) : string :=
  match bs with
  | [] => EmptyString
  | b :: t => (hex_of_byte b ++ hex t)%string
  end.

Definition hex_val (c : ascii) : option N :=
  let n := N_of_ascii c in
  if (48 <=? n) && (n <=? 57) then Some (n - 48)
  else if (97 <=? n) && (n <=? 102) then Some (n - 87)
  else if (65 <=? n) && (n <=? 70) then Some (n - 55)
  else None.

Definition is_space (c : ascii) : bool :=
  let n := N_of_ascii c in
  (n =? 32) || ((9 <=? n) && (n <=? 13)).

(** [bytes.fromhex(s)]: white space is skipped in front of a pair of digits;
    anything else that is not two hexadecimal digits is a [ValueError]. *)
Fixpoint fromhex (s : string) : res bytes :=
  match s with
  | EmptyString => Ok []
  | String c1 t1 =>
      if is_space c1 then fromhex t1
      else match t1 with
           | EmptyString => Raise ValueError
           | String c2 t =>
               match hex_val c1, hex_val c2 with
               | Some h, Some l =>
                   bind (fromhex t) (fun r => Ok (byte_of (16 * h + l) :: r))
               | _, _ => Raise ValueError
               end
           end
  end.

(** Truth value of a string: [if s:] *)
Definition nonempty (s : string) : bool :=
  match s with EmptyString => false | _ => true end.

End Py.

Import Py.

Declare Scope res_scope.
Delimit Scope res_scope with res.
Notation "x <- c ;; k" := (bind c (fun x => k))
  (at level 61, c at next level, right associativity) : res_scope.
Notation "' p <- c ;; k" := (bind c (fun x => let p := x in k))
  (at level 61, p pattern, c at next level, right associativity) : res_scope.
Local Open Scope res_scope.

(* ================================================================== *)
(** * canim.py *)
(* ================================================================== *)

Module Canim.

(** A float handled by canim.py always comes out of
    [struct.unpack_from('<f', ...)] (or out of the JSON text that export wrote
    for such a value) and is only ever compared and packed again, never
    computed with.  It is represented by its binary32 pattern; [f32_value]
    gives the exact number it stands for. *)
Definition f32 := N.

Definition f32_sign (b : f32) : bool := N.testbit b 31.
Definition f32_exp (b : f32) : N := (b / 8388608) mod 256.
Definition f32_frac (b : f32) : N := b mod 8388608.

(** [math.isnan], [math.isinf] *)
Definition f32_isnan (b : f32) : bool := (f32_exp b =? 255) && negb (f32_frac b =? 0).
Definition f32_isinf (b : f32) : bool := (f32_exp b =? 255) && (f32_frac b =? 0).

(** Exact value of a finite binary32 number: an integer multiple of
    2^-149. *)
Definition f32_scaled (b : f32) : Z :=
  let m := if f32_exp b =? 0 then Z.of_N (f32_frac b)
           else Z.of_N ((8388608 + f32_frac b) * 2 ^ (f32_exp b - 1)) in
  if f32_sign b then (- m)%Z else m.

Definition f32_value (b : f32) : Q := Qmake (f32_scaled b) (2 ^ 149).

(** Comparisons of a float with an integer constant, as Python evaluates
    them: every comparison with a NaN is false. *)
Definition f32_lt_int (b : f32) (k : Z) : bool :=   (* b < k *)
  if f32_isnan b then false
  else if f32_isinf b then f32_sign b
  else negb (Qle_bool (inject_Z k) (f32_value b)).

Definition f32_gt_int (b : f32) (k : Z) : bool :=   (* b > k *)
  if f32_isnan b then false
  else if f32_isinf b then negb (f32_sign b)
  else negb (Qle_bool (f32_value b) (inject_Z k)).

Definition f32_le_int (b : f32) (k : Z) : bool :=   (* b <= k *)
  if f32_isnan b then false
  else if f32_isinf b then f32_sign b
  else Qle_bool (f32_value b) (inject_Z k).

Definition f32_ge_int (b : f32) (k : Z) : bool :=   (* b >= k, i.e. k <= b *)
  if f32_isnan b then false
  else if f32_isinf b then negb (f32_sign b)
  else Qle_bool (inject_Z k) (f32_value b).

(** [struct.unpack_from('<f', d, p)[0]] and [struct.pack('<f', v)] *)
Definition unpack_from_f (d : bytes) (p : N) : res f32 := unpack_from_I d p.
Definition pack_f (v : f32) : res bytes := Ok (le_bytes 4 v).

(** What [json.dump] followed by [json.load] does to a float: a finite or
    infinite value comes back unchanged, a NaN comes back as [float('nan')]. *)
Definition json_float (v : f32) : f32 :=
  if f32_isnan v then 2143289344 else v.

(** ** Read helpers *)

Definition r8 (d : bytes) (p : N) : res (N * N) :=
  if p + 1 >? len d then Raise ValueError else Ok (u8_at d p, p + 1).

Definition r16 (d : bytes) (p : N) : res (N * N) :=
  if p + 2 >? len d then Raise ValueError
  else v <- unpack_from_H d p ;; Ok (v, p + 2).

Definition r32 (d : bytes) (p : N) : res (N * N) :=
  if p + 4 >? len d then Raise ValueError
  else v <- unpack_from_I d p ;; Ok (v, p + 4).

Definition rf (d : bytes) (p : N) : res (f32 * N) :=
  if p + 4 >? len d then Raise ValueError
  else v <- unpack_from_f d p ;; Ok (v, p + 4).

Definition rstr (d : bytes) (p : N) : res (pystr * N) :=
  '(l, p2) <- r32 d p ;;
  if l >? 500 then Raise ValueError
  else if p2 + l >? len d then Raise ValueError
  else Ok (decode_ascii_replace (slice d p2 (p2 + l)), p2 + l).

(** ** Write helpers.  The Python functions append to a [bytearray]; here
    they return the extended buffer. *)

Definition w8 (buf : bytes) (v : N) : res bytes :=
  Ok (buf ++ [byte_of (N.land v 255)]).

Definition w16 (buf : bytes) (v : N) : res bytes :=
  b <- pack_H v ;; Ok (buf ++ b).

Definition w32 (buf : bytes) (v : N) : res bytes :=
  b <- pack_I v ;; Ok (buf ++ b).

Definition wf (buf : bytes) (v : f32) : res bytes :=
  b <- pack_f v ;; Ok (buf ++ b).

Definition wstr (buf : bytes) (s : pystr) : res bytes :=
  enc <- encode_ascii s ;;
  buf <- w32 buf (len enc) ;;
  Ok (buf ++ enc).

(** ** Validation helpers *)

Definition printable (b : byte) : bool :=
  (32 <=? Byte.to_N b) && (Byte.to_N b <? 127).

(** The length prefix is read with [struct.unpack_from] only after the bounds
    test, so the read itself cannot fail. *)
Definition u32_at (d : bytes) (p : N) : N := le_N (slice d p (p + 4)).
Definition u16_at (d : bytes) (p : N) : N := le_N (slice d p (p + 2)).

Definition valid_str (d : bytes) (p : N) : bool :=
  if p + 4 >? len d then false
  else
    let l := u32_at d p in
    if (l =? 0) || (l >? 300) || (p + 4 + l >? len d) then false
    else forallb printable (slice d (p + 4) (p + 4 + l)).

Definition empty_str_at (d : bytes) (p : N) : bool :=
  if p + 4 >? len d then false else u32_at d p =? 0.

Definition is_float_reasonable (v : f32) : bool :=
  if f32_isnan v || f32_isinf v then false
  else f32_ge_int v (-10000) && f32_le_int v 10000.

(** ** Sprites *)

Record sprite := mkSprite {
  sp_frame : N;
  sp_unk : N;
  sp_name : pystr;
  sp_width : f32;
  sp_height : f32;
  sp_pivot_x : f32;
  sp_pivot_y : f32;
  sp_empty : bool
}.

Definition try_parse_sprite (d : bytes) (pos fs : N) : res (option (sprite * N)) :=
  try_except is_ValueError_or_IndexError
    (if pos + 4 >? fs then Ok None
     else
       '(spf, p) <- r16 d pos ;;
       '(spu, p) <- r16 d p ;;
       if empty_str_at d p then
         let p := p + 4 in
         if p + 16 >? fs then Ok None
         else
           '(sw, p) <- rf d p ;;
           '(sh, p) <- rf d p ;;
           '(spx, p) <- rf d p ;;
           '(spy, p) <- rf d p ;;
           Ok (Some (mkSprite spf spu [] sw sh spx spy true, p))
       else if negb (valid_str d p) then Ok None
       else
         '(spn, p) <- rstr d p ;;
         if p + 16 >? fs then Ok None
         else
           '(sw, p) <- rf d p ;;
           '(sh, p) <- rf d p ;;
           '(spx, p) <- rf d p ;;
           '(spy, p) <- rf d p ;;
           if negb (is_float_reasonable sw && is_float_reasonable sh
                    && is_float_reasonable spx && is_float_reasonable spy)
           then Ok None
           else if f32_lt_int sw 0 || f32_lt_int sh 0
                   || f32_gt_int sw 5000 || f32_gt_int sh 5000
           then Ok None
           else Ok (Some (mkSprite spf spu spn sw sh spx spy false, p)))
    (Ok None).

Definition try_parse_bare_sprite (d : bytes) (pos fs : N) : res (option (sprite * N)) :=
  try_except is_ValueError_or_IndexError
    (if negb (valid_str d pos) then Ok None
     else
       '(spn, p) <- rstr d pos ;;
       if p + 16 >? fs then Ok None
       else
         '(sw, p) <- rf d p ;;
         '(sh, p) <- rf d p ;;
         '(spx, p) <- rf d p ;;
         '(spy, p) <- rf d p ;;
         if negb (is_float_reasonable sw && is_float_reasonable sh
                  && is_float_reasonable spx && is_float_reasonable spy)
         then Ok None
         else if f32_lt_int sw 0 || f32_lt_int sh 0
                 || f32_gt_int sw 5000 || f32_gt_int sh 5000
         then Ok None
         else Ok (Some (mkSprite 0 0 spn sw sh spx spy false, p)))
    (Ok None).

(** ** Symbol headers and resynchronisation *)

Definition KNOWN_RATES : list N := [1; 2; 3; 4; 5; 6; 8; 10; 12; 15; 20; 24; 25; 30; 60].

Definition known_rate (r : N) : bool := existsb (N.eqb r) KNOWN_RATES.

Definition is_symbol_header (d : bytes) (pos fs : N) : res bool :=
  if negb (valid_str d pos) then Ok false
  else
    try_except is_ValueError_or_IndexError
      ('(name, p) <- rstr d pos ;;
       if p + 3 >? fs then Ok false
       else
         rate <- index d p ;;
         count <- unpack_from_H d (p + 1) ;;
         if negb (known_rate rate) then Ok false
         else if count >? 5000 then Ok false
         else if contains_char 47 name then Ok false
         else Ok true)
      (Ok false).

(** [while scan<fs-7: ... scan+=1]: the loop visits the positions
    [pos], [pos+1], ... below [fs-7] in turn, so it runs at most
    [fs-7-pos] times. *)
Fixpoint find_next_symbol_loop (d : bytes) (fs : N) (n : nat) (scan : N) : res N :=
  match n with
  | O => Ok fs
  | S n' =>
      b <- is_symbol_header d scan fs ;;
      if b then Ok scan else find_next_symbol_loop d fs n' (scan + 1)
  end.

Definition find_next_symbol (d : bytes) (pos fs : N) : res N :=
  find_next_symbol_loop d fs (N.to_nat (fs - 7 - pos)) pos.

(** ** Loop control and cursor threading *)

(** How one pass through a loop body ends. *)
Inductive ctl (S : Type) :=
| Break (s : S)
| Continue (s : S).
Arguments Break {S} s.
Arguments Continue {S} s.

(** A run of statements [x,pos = rN(data,pos)]: the cursor keeps the value
    of the last read that succeeded when a later one raises. *)
Definition cur (A : Type) := N -> res A * N.

Definition cret {A} (a : A) : cur A := fun p => (Ok a, p).

Definition cbind {A B} (m : cur A) (k : A -> cur B) : cur B :=
  fun p =>
    match m p with
    | (Ok a, p') => k a p'
    | (Raise e, p') => (Raise e, p')
    | (OutOfFuel, p') => (OutOfFuel, p')
    end.

Definition rd {A} (f : N -> res (A * N)) : cur A :=
  fun p =>
    match f p with
    | Ok (a, p') => (Ok a, p')
    | Raise e => (Raise e, p)
    | OutOfFuel => (OutOfFuel, p)
    end.

(** ** Symbols and build entries *)

Inductive entry_type := ET_symbol | ET_build_section.

(** A symbol dictionary.  The keys ['_timeline_size'], ['_raw_hex'] and
    ['_entry_type'] are absent from some of the dictionaries the parser
    builds; an absent key is [None]. *)
Record symbol := mkSymbol {
  sym_name : pystr;
  sym_frame_rate : N;
  sym_num_sprites : N;
  sym_sprites : list sprite;
  sym_composite : bool;
  sym_sub_symbols : list pystr;
  sym_timeline_size : option N;
  sym_raw_hex : option string;
  sym_entry_type : option entry_type
}.

Record build_section := mkBuildSection {
  bs_name : pystr;
  bs_data_size : N;
  bs_start : N;
  bs_raw_hex : string
}.

Inductive build_entry :=
| BE_symbol (s : symbol)
| BE_section (b : build_section).

Definition with_raw (s : symbol) (raw : bytes) : symbol :=
  mkSymbol (sym_name s) (sym_frame_rate s) (sym_num_sprites s) (sym_sprites s)
    (sym_composite s) (sym_sub_symbols s) (sym_timeline_size s)
    (Some (hex raw)) (Some ET_symbol).

Definition is_some {A} (o : option A) : bool :=
  match o with Some _ => true | None => false end.

(** *** parse_nested_symbol *)

(** The look-ahead at the top of the loop body, run when the position is a
    symbol header; [true] means [break]. *)
Definition nested_probe (d : bytes) (fs count pos : N) (sub_names : list pystr) : res bool :=
  try_except is_ValueError_or_IndexError
    ('(tn, tp) <- rstr d pos ;;
     tr <- index d tp ;;
     tc <- unpack_from_H d (tp + 1) ;;
     if known_rate tr && (tc <? 5000) then
       let tp2 := tp + 3 in
       t <- try_parse_sprite d tp2 fs ;;
       if is_some t then Ok true
       else if valid_str d tp2 && (len sub_names >=? count) then Ok true
       else Ok false
     else Ok false)
    (Ok false).

(** One pass of [while valid_str(d,pos): ...]; the state is the cursor and
    the names collected so far. *)
Definition nested_step (d : bytes) (fs count : N) (st : N * list pystr)
  : res (ctl (N * list pystr)) :=
  let '(pos, sub_names) := st in
  if negb (valid_str d pos) then Ok (Break st)
  else
    h <- is_symbol_header d pos fs ;;
    brk <- (if h then nested_probe d fs count pos sub_names else Ok false) ;;
    if brk then Ok (Break st)
    else
      try_except is_ValueError
        ('(sn2, pos') <- rstr d pos ;;
         let sub_names := sub_names ++ [sn2] in
         if (len sub_names >=? count) && (count >? 0)
         then Ok (Break (pos', sub_names))
         else Ok (Continue (pos', sub_names)))
        (Ok (Break st)).

Fixpoint nested_loop (fuel : nat) (d : bytes) (fs count : N) (st : N * list pystr)
  : res (N * list pystr) :=
  match fuel with
  | O => OutOfFuel
  | S fuel' =>
      c <- nested_step d fs count st ;;
      match c with
      | Break st' => Ok st'
      | Continue st' => nested_loop fuel' d fs count st'
      end
  end.

(** Every pass that continues consumes at least five bytes of the buffer,
    so [len d - pos] passes (and one to leave the loop) are enough. *)
Definition parse_nested_symbol (d : bytes) (pos fs : N) (sym_name : pystr)
    (rate count : N) : res (symbol * N) :=
  let start_pos := pos in
  '(pos, sub_names) <- nested_loop (S (N.to_nat (len d - pos))) d fs count (pos, []) ;;
  next_sym <- find_next_symbol d pos fs ;;
  Ok (mkSymbol sym_name rate 0 [] true sub_names (Some (next_sym - start_pos)) None None,
      next_sym).

(** *** parse_build_section *)

Record build_state := mkBuildState {
  b_symbols : list symbol;
  b_tsp : N;
  b_build_secs : list build_section;
  b_pos : N;
  b_entries : list build_entry
}.

Definition push_symbol (st : build_state) (sym : symbol) (added pos : N) : build_state :=
  mkBuildState (b_symbols st ++ [sym]) (b_tsp st + added) (b_build_secs st) pos
    (b_entries st ++ [BE_symbol sym]).

Definition push_section (st : build_state) (b : build_section) (pos : N) : build_state :=
  mkBuildState (b_symbols st) (b_tsp st) (b_build_secs st ++ [b]) pos
    (b_entries st ++ [BE_section b]).

(** [for _ in range(pc): if valid_str(d,tp): tn,tp=rstr(d,tp); ... else: break] *)
Fixpoint read_sub_names (d : bytes) (n : nat) (tp : N) (acc : list pystr)
  : res (list pystr) :=
  match n with
  | O => Ok acc
  | S n' =>
      if valid_str d tp then
        '(tn, tp') <- rstr d tp ;;
        read_sub_names d n' tp' (acc ++ [tn])
      else Ok acc
  end.

(** [for si in range(snsp): result=try_parse_sprite(d,pos,fs) ...]; returns
    the sprites, the cursor and [sok]. *)
Fixpoint read_sprites (d : bytes) (fs : N) (n : nat) (pos : N) (acc : list sprite)
  : res (list sprite * N * bool) :=
  match n with
  | O => Ok (acc, pos, true)
  | S n' =>
      result <- try_parse_sprite d pos fs ;;
      match result with
      | None => Ok (acc, pos, false)
      | Some (sp, pos') => read_sprites d fs n' pos' (acc ++ [sp])
      end
  end.

(** The branch taken for a symbol header whose sprite count is zero. *)
Definition zero_count_symbol (d : bytes) (fs : N) (st : build_state)
    (entry_start pos : N) (sn : pystr) (sr : N) : res (ctl build_state) :=
  next_sym <- find_next_symbol d pos fs ;;
  let plain (tl : option N) (pos' : N) :=
    let sym := mkSymbol sn sr 0 [] false [] tl None None in
    Ok (Continue (push_symbol st (with_raw sym (slice d entry_start pos')) 0 pos')) in
  if next_sym >? pos then
    let tl_size := next_sym - pos in
    if pos + 4 <=? fs then
      pc <- unpack_from_H d pos ;;
      pu <- unpack_from_H d (pos + 2) ;;
      if (0 <? pc) && (pc <? 200) && (pos + 4 <? next_sym) then
        sn_list <- read_sub_names d (N.to_nat pc) (pos + 4) [] ;;
        if len sn_list =? pc then
          let sym := mkSymbol sn sr 0 [] true sn_list (Some tl_size) None None in
          Ok (Continue (push_symbol st (with_raw sym (slice d entry_start next_sym)) 0 next_sym))
        else plain (Some tl_size) next_sym
      else plain (Some tl_size) next_sym
    else plain (Some tl_size) next_sym
  else plain (Some 0) pos.

(** One pass of [while pos<fs-4: ...] in [parse_build_section]. *)
Definition build_step (d : bytes) (fs : N) (st : build_state) : res (ctl build_state) :=
  let pos := b_pos st in
  if negb (valid_str d pos) && negb (empty_str_at d pos) then Ok (Break st)
  else
    let sst := pos in
    h <- is_symbol_header d pos fs ;;
    if h then
      let entry_start := pos in
      match ('(sn, pos) <- rstr d pos ;;
             '(sr, pos) <- r8 d pos ;;
             '(snsp, pos) <- r16 d pos ;;
             Ok (sn, sr, snsp, pos)) with
      | Raise e => if is_ValueError e then Ok (Break st) else Raise e
      | OutOfFuel => OutOfFuel
      | Ok (sn, sr, snsp, pos) =>
          if snsp =? 0 then zero_count_symbol d fs st entry_start pos sn sr
          else
            test <- try_parse_sprite d pos fs ;;
            if is_some test then
              '(sprites, pos, sok) <- read_sprites d fs (N.to_nat snsp) pos [] ;;
              let sym := mkSymbol sn sr snsp sprites false [] None None None in
              let st' := push_symbol st (with_raw sym (slice d entry_start pos))
                           (len sprites) pos in
              if negb sok then Ok (Break st') else Ok (Continue st')
            else if valid_str d pos then
              '(sym, pos) <- parse_nested_symbol d pos fs sn sr snsp ;;
              Ok (Continue (push_symbol st (with_raw sym (slice d entry_start pos)) 0 pos))
            else
              next_sym <- find_next_symbol d pos fs ;;
              let sym := mkSymbol sn sr snsp [] true [] (Some (next_sym - pos)) None None in
              Ok (Continue (push_symbol st (with_raw sym (slice d entry_start next_sym))
                              0 next_sym))
      end
    else
      let entry_start := pos in
      match rstr d pos with
      | Raise e => if is_ValueError e then Ok (Break st) else Raise e
      | OutOfFuel => OutOfFuel
      | Ok (sn, tpos) =>
          next_sym <- find_next_symbol d (pos + 1) fs ;;
          let tl_size := next_sym - pos in
          let bsec := mkBuildSection sn tl_size pos (hex (slice d entry_start next_sym)) in
          Ok (Continue (push_section st bsec next_sym))
      end.

Fixpoint build_loop (fuel : nat) (d : bytes) (fs : N) (st : build_state)
  : res build_state :=
  match fuel with
  | O => OutOfFuel
  | S fuel' =>
      if b_pos st + 4 <? fs then
        c <- build_step d fs st ;;
        match c with
        | Break st' => Ok st'
        | Continue st' => build_loop fuel' d fs st'
        end
      else Ok st
  end.

(** Every pass that continues moves the cursor forward, so [fs - pos]
    passes (and one to leave the loop) are enough.  The result is the
    tuple [(symbols, tsp, build_secs, pos, build_entries)]. *)
Definition parse_build_section (d : bytes) (pos fs : N) (layers : list pystr)
  : res build_state :=
  build_loop (S (N.to_nat (fs - pos))) d fs (mkBuildState [] 0 [] pos []).

(** ** parse_canim *)

Record clip := mkClip { clip_name : pystr; clip_value : N }.

Record element := mkElement {
  el_index : N;
  el_unk1 : N;
  el_layer_idx : N;
  el_layer_name : pystr;
  el_unk2 : N;
  el_matrix : f32 * f32 * f32 * f32;     (* (ma, mb, mc, md) *)
  el_tx : f32;
  el_ty : f32;
  el_z_ord : N;
  el_type : N;
  el_color : N * N * N * N;
  el_pad : string
}.

Record section := mkSection {
  sec_name : pystr;
  sec_unknown : N;
  sec_facing : N;
  sec_frame_count : N;
  sec_element_count : N;
  sec_elements : list element
}.

Record parse_result := mkResult {
  pr_magic : pystr;
  pr_version : N;
  pr_hf1 : N;
  pr_hf2 : N;
  pr_anim_name : pystr;
  pr_frame_rate : N;
  pr_num_clips : N;
  pr_num_sections : N;
  pr_total_elements : N;
  pr_layers : list pystr;
  pr_clips : list clip;
  pr_sections : list section;
  pr_symbols : list symbol;
  pr_build_sections : list build_section;
  pr_build_entries : list build_entry;
  pr_filesize : N;
  pr_trail : Z;
  pr_trail_hex : string;
  pr_tel : N;
  pr_has_traditional_sections : bool;
  pr_minimal : bool;
  pr_skipped : bool;
  pr_unk2 : N;
  pr_minimal_meta_hex : string
}.

Definition _empty_result (fs : N) (skipped : bool) : parse_result :=
  mkResult (pystr_of "????") 0 0 0 [] 0 0 0 0 [] [] [] [] [] [] fs
    0%Z EmptyString 0 false false skipped 0 EmptyString.

Definition looks_like_section (d : bytes) (pos fs : N) (layers : list pystr) : res bool :=
  if negb (valid_str d pos) then Ok false
  else
    try_except is_ValueError_or_IndexError
      ('(name, p) <- rstr d pos ;;
       if p + 9 >? fs then Ok false
       else
         let p := p + 4 in
         sf <- index d p ;;
         let p := p + 1 in
         sfc <- unpack_from_H d p ;;
         let p := p + 2 in
         sec <- unpack_from_H d p ;;
         let p := p + 2 in
         if (sfc >? 10000) || (sec >? 10000) then Ok false
         else if (sfc =? 0) && (sec =? 0) then Ok false
         else if (sec >? 0) && (p + 6 <=? fs) then
           li <- unpack_from_H d (p + 4) ;;
           if (li >=? len layers) && (li >? 100) then Ok false else Ok true
         else Ok true)
      (Ok false).

(** The scan of the minimal layout for the first string with a hyphen:
    [while scan<fs-4: ... scan+=1]. *)
Fixpoint sprite_scan_loop (d : bytes) (n : nat) (scan : N) : res (option N) :=
  match n with
  | O => Ok None
  | S n' =>
      hit <- (if valid_str d scan then
                try_except is_ValueError
                  ('(tn, _) <- rstr d scan ;; Ok (contains_char 45 tn))
                  (Ok false)
              else Ok false) ;;
      if hit then Ok (Some scan) else sprite_scan_loop d n' (scan + 1)
  end.

Definition find_sprite_start (d : bytes) (fs pos : N) : res (option N) :=
  sprite_scan_loop d (N.to_nat (fs - 4 - pos)) pos.

(** [while pos<fs-4: result=try_parse_bare_sprite(data,pos,fs) ...] *)
Fixpoint bare_sprites_loop (fuel : nat) (d : bytes) (fs pos : N) (acc : list sprite)
  : res (list sprite * N) :=
  match fuel with
  | O => OutOfFuel
  | S fuel' =>
      if pos + 4 <? fs then
        result <- try_parse_bare_sprite d pos fs ;;
        match result with
        | None => Ok (acc, pos)
        | Some (sp, pos') => bare_sprites_loop fuel' d fs pos' (acc ++ [sp])
        end
      else Ok (acc, pos)
  end.

Definition trail_hex_of (d : bytes) (fs pos : N) : Z * string :=
  let trail := (Z.of_N fs - Z.of_N pos)%Z in
  (trail, if (0 <? trail)%Z then hex (slice_from d pos) else EmptyString).

Fixpoint read_layers (d : bytes) (n : nat) (pos : N) (acc : list pystr)
  : res (list pystr * N) :=
  match n with
  | O => Ok (acc, pos)
  | S n' =>
      if negb (valid_str d pos) then Ok (acc, pos)
      else '(nm, pos') <- rstr d pos ;; read_layers d n' pos' (acc ++ [nm])
  end.

Fixpoint read_clips (d : bytes) (n : nat) (pos : N) (acc : list clip)
  : res (list clip * N) :=
  match n with
  | O => Ok (acc, pos)
  | S n' =>
      if negb (valid_str d pos) then Ok (acc, pos)
      else
        match cbind (rd (rstr d)) (fun cn =>
              cbind (rd (r16 d)) (fun cv => cret (mkClip cn cv))) pos with
        | (Ok c, pos') => read_clips d n' pos' (acc ++ [c])
        | (Raise e, pos') => if is_ValueError e then Ok (acc, pos') else Raise e
        | (OutOfFuel, _) => OutOfFuel
        end
  end.

(** [f"?{li}"] *)
Definition unknown_layer (li : N) : pystr :=
  pystr_of (String "?" (NilEmpty.string_of_uint (N.to_uint li))).

Definition read_element (d : bytes) (layers : list pystr) : cur element :=
  cbind (rd (r16 d)) (fun idx =>
  cbind (rd (r16 d)) (fun u1 =>
  cbind (rd (r16 d)) (fun li =>
  cbind (rd (r16 d)) (fun u2 =>
  cbind (rd (rf d)) (fun ma =>
  cbind (rd (rf d)) (fun md =>
  cbind (rd (rf d)) (fun mb =>
  cbind (rd (rf d)) (fun mc =>
  cbind (rd (rf d)) (fun tx =>
  cbind (rd (rf d)) (fun ty =>
  cbind (rd (r16 d)) (fun zo =>
  cbind (rd (r8 d)) (fun tp =>
  cbind (rd (r8 d)) (fun cr =>
  cbind (rd (r8 d)) (fun cg =>
  cbind (rd (r8 d)) (fun cb =>
  cbind (rd (r8 d)) (fun ca =>
  cbind (fun pos => (Ok (slice d pos (pos + 4)), pos + 4)) (fun pd =>
  let ln := if li <? len layers then nth (N.to_nat li) layers []
            else unknown_layer li in
  cret (mkElement idx u1 li ln u2 (ma, mb, mc, md) tx ty zo tp
          (cr, cg, cb, ca) (hex pd))))))))))))))))))).

(** [for ei in range(sec): ...]; returns the elements, the cursor and [ok]. *)
Fixpoint read_elements (d : bytes) (layers : list pystr) (n : nat) (pos : N)
    (acc : list element) : res (list element * N * bool) :=
  match n with
  | O => Ok (acc, pos, true)
  | S n' =>
      match read_element d layers pos with
      | (Ok e, pos') => read_elements d layers n' pos' (acc ++ [e])
      | (Raise e, pos') =>
          if is_ValueError_or_IndexError e then Ok (acc, pos', false) else Raise e
      | (OutOfFuel, _) => OutOfFuel
      end
  end.

(** [for si in range(m_sections): ...]; the state is
    [(sections, pos, tel)]. *)
Fixpoint read_sections (d : bytes) (fs : N) (layers : list pystr) (n : nat)
    (pos : N) (acc : list section) (tel : N) : res (list section * N * N) :=
  match n with
  | O => Ok (acc, pos, tel)
  | S n' =>
      l <- looks_like_section d pos fs layers ;;
      if negb l then Ok (acc, pos, tel)
      else
        let ss := pos in
        match ('(fn_, pos) <- rstr d pos ;;
               '(su, pos) <- r32 d pos ;;
               '(sf, pos) <- r8 d pos ;;
               '(sfc, pos) <- r16 d pos ;;
               '(sec, pos) <- r16 d pos ;;
               Ok (fn_, su, sf, sfc, sec, pos)) with
        | Raise e => if is_ValueError e then Ok (acc, ss, tel) else Raise e
        | OutOfFuel => OutOfFuel
        | Ok (fn_, su, sf, sfc, sec, pos) =>
            if (sec >? 10000) || (sfc >? 10000) then Ok (acc, ss, tel)
            else
              '(els, pos, ok) <- read_elements d layers (N.to_nat sec) pos [] ;;
              let s := mkSection fn_ su sf sfc sec els in
              let tel := tel + len els in
              let acc := acc ++ [s] in
              if negb ok then Ok (acc, pos, tel)
              else read_sections d fs layers n' pos acc tel
        end
  end.

(** [parse_canim] on the bytes of the file.  [looks_like_build] only feeds a
    message printed in verbose mode and is left out. *)
Definition parse_canim (data : bytes) : res parse_result :=
  let fs := len data in
  if fs <? 20 then Ok (_empty_result fs true)
  else
    magic <- decode_ascii (slice data 0 4) ;;
    '(version, pos) <- r32 data 4 ;;
    '(hf1, pos) <- r16 data pos ;;
    '(hf2, pos) <- r16 data pos ;;
    '(anim_name, pos) <- rstr data pos ;;
    '(m_rate, pos) <- r8 data pos ;;
    sprite_start <- (if hf1 =? 0 then find_sprite_start data fs pos else Ok None) ;;
    match sprite_start with
    | Some sprite_start =>
        (* ── MINIMAL FORMAT ── *)
        let minimal_meta_hex := hex (slice data pos sprite_start) in
        '(sprites, pos) <-
          bare_sprites_loop (S (N.to_nat (fs - sprite_start))) data fs sprite_start [] ;;
        let symbols :=
          [mkSymbol anim_name m_rate (len sprites) sprites false [] None None None] in
        let '(trail, trail_hex) := trail_hex_of data fs pos in
        Ok (mkResult magic version hf1 hf2 anim_name m_rate 0 0 0 [] [] [] symbols
              [] [] fs trail trail_hex 0 false true false 0 minimal_meta_hex)
    | None =>
        (* ── NORMAL FORMAT ── *)
        '(m_clips, pos) <- r16 data pos ;;
        '(m_sections, pos) <- r16 data pos ;;
        '(m_elements, pos) <- r16 data pos ;;
        '(m_unk2, pos) <- r16 data pos ;;
        '(m_layers, pos) <- r16 data pos ;;
        '(layers, pos) <- read_layers data (N.to_nat m_layers) pos [] ;;
        '(clips, pos) <- (if m_clips >? 0
                          then read_clips data (N.to_nat m_clips) pos []
                          else Ok ([], pos)) ;;
        has_trad_sec <- looks_like_section data pos fs layers ;;
        '(sections, pos, tel) <-
          (if has_trad_sec
           then read_sections data fs layers (N.to_nat m_sections) pos [] 0
           else Ok ([], pos, 0)) ;;
        b <- parse_build_section data pos fs layers ;;
        let pos := b_pos b in
        let '(trail, trail_hex) := trail_hex_of data fs pos in
        Ok (mkResult magic version hf1 hf2 anim_name m_rate m_clips m_sections
              m_elements layers clips sections (b_symbols b) (b_build_secs b)
              (b_entries b) fs trail trail_hex tel has_trad_sec false false
              m_unk2 EmptyString)
    end.

(** ** Export: canim -> JSON *)

Inductive json_entry :=
| JE_section (raw_hex : string) (name : pystr) (data_size : N)
| JE_symbol (raw_hex : string) (name : pystr) (frame_rate num_sprites : N)
    (composite : bool) (sub_symbols : list pystr) (timeline_size : N)
    (sprites : list sprite).

Record min_sprite := mkMinSprite {
  ms_name : pystr;
  ms_width : f32;
  ms_height : f32;
  ms_pivot_x : f32;
  ms_pivot_y : f32
}.

(** The dictionary [out] that is written to the JSON file; the key
    ['minimal_sprites'] is present only for the minimal layout. *)
Record canim_json := mkJson {
  j_format : string;
  j_magic : pystr;
  j_version : N;
  j_hf1 : N;
  j_hf2 : N;
  j_anim_name : pystr;
  j_frame_rate : N;
  j_minimal : bool;
  j_minimal_meta_hex : string;
  j_has_traditional_sections : bool;
  j_unk2 : N;
  j_num_clips : N;
  j_num_sections : N;
  j_total_elements : N;
  j_layers : list pystr;
  j_clips : list clip;
  j_sections : list section;
  j_build_entries : list json_entry;
  j_minimal_sprites : option (list min_sprite);
  j_trail_hex : string
}.

Definition default {A} (o : option A) (a : A) : A :=
  match o with Some x => x | None => a end.

Definition export_entry (entry : build_entry) : json_entry :=
  match entry with
  | BE_section b => JE_section (bs_raw_hex b) (bs_name b) (bs_data_size b)
  | BE_symbol sy =>
      JE_symbol (default (sym_raw_hex sy) EmptyString) (sym_name sy)
        (sym_frame_rate sy) (sym_num_sprites sy) (sym_composite sy)
        (sym_sub_symbols sy) (default (sym_timeline_size sy) 0) (sym_sprites sy)
  end.

Definition export_min_sprites (symbols : list symbol) : list min_sprite :=
  flat_map (fun sy =>
    map (fun sp => mkMinSprite (sp_name sp) (sp_width sp) (sp_height sp)
                     (sp_pivot_x sp) (sp_pivot_y sp)) (sym_sprites sy)) symbols.

Definition export_canim_to_json (result : parse_result) : res canim_json :=
  if pr_skipped result then Raise ValueError
  else
    Ok (mkJson "canim_v10" (pr_magic result) (pr_version result) (pr_hf1 result)
          (pr_hf2 result) (pr_anim_name result) (pr_frame_rate result)
          (pr_minimal result) (pr_minimal_meta_hex result)
          (pr_has_traditional_sections result) (pr_unk2 result)
          (pr_num_clips result) (pr_num_sections result) (pr_total_elements result)
          (pr_layers result) (pr_clips result) (pr_sections result)
          (map export_entry (pr_build_entries result))
          (if pr_minimal result then Some (export_min_sprites (pr_symbols result))
           else None)
          (pr_trail_hex result)).

(** ** The trip through the JSON file: [json.dump] then [json.load].
    Integers, strings, booleans and the shape of the document come back as
    they were written; a float goes through [json_float]. *)

Definition json_sprite (sp : sprite) : sprite :=
  mkSprite (sp_frame sp) (sp_unk sp) (sp_name sp) (json_float (sp_width sp))
    (json_float (sp_height sp)) (json_float (sp_pivot_x sp))
    (json_float (sp_pivot_y sp)) (sp_empty sp).

Definition json_min_sprite (sp : min_sprite) : min_sprite :=
  mkMinSprite (ms_name sp) (json_float (ms_width sp)) (json_float (ms_height sp))
    (json_float (ms_pivot_x sp)) (json_float (ms_pivot_y sp)).

Definition json_element (e : element) : element :=
  let '(ma, mb, mc, md) := el_matrix e in
  mkElement (el_index e) (el_unk1 e) (el_layer_idx e) (el_layer_name e) (el_unk2 e)
    (json_float ma, json_float mb, json_float mc, json_float md)
    (json_float (el_tx e)) (json_float (el_ty e)) (el_z_ord e) (el_type e)
    (el_color e) (el_pad e).

Definition json_section (s : section) : section :=
  mkSection (sec_name s) (sec_unknown s) (sec_facing s) (sec_frame_count s)
    (sec_element_count s) (map json_element (sec_elements s)).

Definition json_json_entry (e : json_entry) : json_entry :=
  match e with
  | JE_section r n s => JE_section r n s
  | JE_symbol r n fr ns c subs tl sprites =>
      JE_symbol r n fr ns c subs tl (map json_sprite sprites)
  end.

Definition json_dump_load (j : canim_json) : canim_json :=
  mkJson (j_format j) (j_magic j) (j_version j) (j_hf1 j) (j_hf2 j) (j_anim_name j)
    (j_frame_rate j) (j_minimal j) (j_minimal_meta_hex j)
    (j_has_traditional_sections j) (j_unk2 j) (j_num_clips j) (j_num_sections j)
    (j_total_elements j) (j_layers j) (j_clips j)
    (map json_section (j_sections j))
    (map json_json_entry (j_build_entries j))
    (option_map (map json_min_sprite) (j_minimal_sprites j))
    (j_trail_hex j).

(** ** Rebuild: JSON -> canim *)

(** [for x in l: buf = f(buf, x)] *)
Fixpoint for_each {A} (f : bytes -> A -> res bytes) (l : list A) (buf : bytes)
  : res bytes :=
  match l with
  | [] => Ok buf
  | x :: t => buf <- f buf x ;; for_each f t buf
  end.

(** [if h: buf.extend(bytes.fromhex(h))] *)
Definition extend_hex (buf : bytes) (h : string) : res bytes :=
  if nonempty h then b <- fromhex h ;; Ok (buf ++ b) else Ok buf.

Definition write_sprite (buf : bytes) (sp : sprite) : res bytes :=
  buf <- w16 buf (sp_frame sp) ;;
  buf <- w16 buf (sp_unk sp) ;;
  buf <- (if sp_empty sp || (len (sp_name sp) =? 0)
          then w32 buf 0 else wstr buf (sp_name sp)) ;;
  buf <- wf buf (sp_width sp) ;;
  buf <- wf buf (sp_height sp) ;;
  buf <- wf buf (sp_pivot_x sp) ;;
  wf buf (sp_pivot_y sp).

Definition _write_symbol_from_parsed (buf : bytes) (name : pystr)
    (frame_rate num_sprites : N) (sprites : list sprite) : res bytes :=
  buf <- wstr buf name ;;
  buf <- w8 buf frame_rate ;;
  buf <- w16 buf num_sprites ;;
  for_each write_sprite sprites buf.

Definition write_min_sprite (buf : bytes) (sp : min_sprite) : res bytes :=
  buf <- wstr buf (ms_name sp) ;;
  buf <- wf buf (ms_width sp) ;;
  buf <- wf buf (ms_height sp) ;;
  buf <- wf buf (ms_pivot_x sp) ;;
  wf buf (ms_pivot_y sp).

Definition write_clip (buf : bytes) (c : clip) : res bytes :=
  buf <- wstr buf (clip_name c) ;;
  w16 buf (clip_value c).

Definition write_element (buf : bytes) (el : element) : res bytes :=
  buf <- w16 buf (el_index el) ;;
  buf <- w16 buf (el_unk1 el) ;;
  buf <- w16 buf (el_layer_idx el) ;;
  buf <- w16 buf (el_unk2 el) ;;
  let '(ma, mb, mc, md) := el_matrix el in
  buf <- wf buf ma ;;
  buf <- wf buf md ;;
  buf <- wf buf mb ;;
  buf <- wf buf mc ;;
  buf <- wf buf (el_tx el) ;;
  buf <- wf buf (el_ty el) ;;
  buf <- w16 buf (el_z_ord el) ;;
  buf <- w8 buf (el_type el) ;;
  let '(c0, c1, c2, c3) := el_color el in
  buf <- w8 buf c0 ;;
  buf <- w8 buf c1 ;;
  buf <- w8 buf c2 ;;
  buf <- w8 buf c3 ;;
  b <- fromhex (el_pad el) ;;
  Ok (buf ++ b).

Definition write_section (buf : bytes) (sec : section) : res bytes :=
  buf <- wstr buf (sec_name sec) ;;
  buf <- w32 buf (sec_unknown sec) ;;
  buf <- w8 buf (sec_facing sec) ;;
  buf <- w16 buf (sec_frame_count sec) ;;
  buf <- w16 buf (sec_element_count sec) ;;
  for_each write_element (sec_elements sec) buf.

Definition write_entry (buf : bytes) (entry : json_entry) : res bytes :=
  match entry with
  | JE_section raw_hex _ _ =>
      if nonempty raw_hex then b <- fromhex raw_hex ;; Ok (buf ++ b) else Ok buf
  | JE_symbol raw_hex name frame_rate num_sprites composite _ _ sprites =>
      if nonempty raw_hex then b <- fromhex raw_hex ;; Ok (buf ++ b)
      else if negb composite
      then _write_symbol_from_parsed buf name frame_rate num_sprites sprites
      else Ok buf
  end.

Definition rebuild_canim_from_json (data : canim_json) : res bytes :=
  if negb (String.eqb (j_format data) "canim_v10") then Raise ValueError
  else
    (* ── HEADER ── *)
    buf <- encode_ascii (j_magic data) ;;
    buf <- w32 buf (j_version data) ;;
    buf <- w16 buf (j_hf1 data) ;;
    buf <- w16 buf (j_hf2 data) ;;
    buf <- wstr buf (j_anim_name data) ;;
    (* ── METADATA ── *)
    buf <- w8 buf (j_frame_rate data) ;;
    if j_minimal data then
      buf <- extend_hex buf (j_minimal_meta_hex data) ;;
      buf <- for_each write_min_sprite (default (j_minimal_sprites data) []) buf ;;
      extend_hex buf (j_trail_hex data)
    else
      (* ── NORMAL FORMAT ── *)
      buf <- w16 buf (j_num_clips data) ;;
      buf <- w16 buf (j_num_sections data) ;;
      buf <- w16 buf (j_total_elements data) ;;
      buf <- w16 buf (j_unk2 data) ;;
      buf <- w16 buf (len (j_layers data)) ;;
      buf <- for_each wstr (j_layers data) buf ;;
      buf <- for_each write_clip (j_clips data) buf ;;
      buf <- (if j_has_traditional_sections data
              then for_each write_section (j_sections data) buf
              else Ok buf) ;;
      buf <- for_each write_entry (j_build_entries data) buf ;;
      extend_hex buf (j_trail_hex data).

(** Export a file to JSON and rebuild it from that JSON, as
    [verify_roundtrip] does. *)
Definition roundtrip (data : bytes) : res bytes :=
  result <- parse_canim data ;;
  j <- export_canim_to_json result ;;
  rebuild_canim_from_json (json_dump_load j).

(** ** looks_like_build *)

(** [s.startswith(sub)] and [sub in s] on texts. *)
Fixpoint starts_with (sub s : pystr) : bool :=
  match sub, s with
  | [], _ => true
  | a :: sub', b :: s' => (a =? b) && starts_with sub' s'
  | _ :: _, [] => false
  end.

Fixpoint contains_sub (sub s : pystr) : bool :=
  starts_with sub s ||
  match s with
  | [] => false
  | _ :: t => contains_sub sub t
  end.

Definition looks_like_build (d : bytes) (pos fs : N) : res bool :=
  if negb (valid_str d pos) then Ok false
  else
    try_except is_ValueError_or_IndexError
      ('(name, p) <- rstr d pos ;;
       if contains_sub (pystr_of "Slot0/") name || contains_sub (pystr_of "GRP_") name
       then Ok true
       else if p + 3 <=? fs then
         rate <- index d p ;;
         if known_rate rate then Ok true else Ok false
       else Ok false)
      (Ok false).


End Canim.

(* ================================================================== *)
(** * canim_meta.py *)
(* ================================================================== *)

Module CanimMeta.

(** ** Floats.  canim_meta.py computes with the floats it reads (scale,
    move), so a Python float is a binary64 number here.  [f32_to_float] is
    the exact conversion done by [struct.unpack('<f')]; [float_to_f32] is
    the rounding done by [struct.pack('<f')], which raises [OverflowError]
    when a finite number is too large for binary32.  A NaN is packed as the
    quiet NaN [0x7FC00000]. *)

Definition float_of_N (n : N) : float := of_uint63 (Uint63.of_Z (Z.of_N n)).

Definition f32_to_float (b : N) : float :=
  let e := (b / 8388608) mod 256 in
  let m := b mod 8388608 in
  let mag :=
    if e =? 255 then (if m =? 0 then infinity else nan)
    else if e =? 0 then Z.ldexp (float_of_N m) (-149)
    else Z.ldexp (float_of_N (m + 8388608)) (Z.of_N e - 150) in
  if N.testbit b 31 then PrimFloat.opp mag else mag.

Definition sign_bit (s : bool) : N := if s then 2147483648 else 0.

Definition float_to_f32 (x : float) : res N :=
  match Prim2SF x with
  | S754_nan => Ok 2143289344
  | S754_infinity s => Ok (sign_bit s + 2139095040)
  | S754_zero s => Ok (sign_bit s)
  | S754_finite s m e =>
      match binary_round 24 128 s m e with
      | S754_finite s' m' e' =>
          Ok (sign_bit s' + Z.to_N ((e' + 149) * 8388608 + Zpos m'))
      | S754_zero s' => Ok (sign_bit s')
      | S754_infinity _ => Raise OverflowError
      | S754_nan => Ok 2143289344
      end
  end.

(** [struct.unpack_from('<f', d, p)[0]] and [struct.pack('<f', x)] *)
Definition unpack_from_f (d : bytes) (p : N) : res float :=
  b <- unpack_from_I d p ;; Ok (f32_to_float b).

Definition pack_f (x : float) : res bytes :=
  b <- float_to_f32 x ;; Ok (le_bytes 4 b).

(** [min(l)] and [max(l)] on a non-empty list of floats: the running
    extremum is replaced only by an item that compares strictly below
    (above) it. *)
Definition py_min (l : list float) : float :=
  match l with
  | [] => 0%float
  | x :: t => fold_left (fun m y => if PrimFloat.ltb y m then y else m) t x
  end.

Definition py_max (l : list float) : float :=
  match l with
  | [] => 0%float
  | x :: t => fold_left (fun m y => if PrimFloat.ltb m y then y else m) t x
  end.

(** [l[0::2]] and [l[1::2]] *)
Fixpoint evens {A} (l : list A) : list A :=
  match l with
  | [] => []
  | x :: t => x :: match t with [] => [] | _ :: t' => evens t' end
  end.

Definition odds {A} (l : list A) : list A :=
  match l with [] => [] | _ :: t => evens t end.

(** [a + b] on byte strings inside the [res] monad. *)
Definition cat (a : res bytes) (b : res bytes) : res bytes :=
  x <- a ;; y <- b ;; Ok (x ++ y).

Fixpoint cat_all {A} (f : A -> res bytes) (l : list A) : res bytes :=
  match l with
  | [] => Ok []
  | x :: t => cat (f x) (cat_all f t)
  end.

Fixpoint bytes_eqb (a b : bytes) : bool :=
  match a, b with
  | [], [] => true
  | x :: a', y :: b' => Byte.eqb x y && bytes_eqb a' b'
  | _, _ => false
  end.

Definition MHIT : bytes := ["M"; "H"; "I"; "T"]%byte.
Definition MACT : bytes := ["M"; "A"; "C"; "T"]%byte.
Definition MCOL : bytes := ["M"; "C"; "O"; "L"]%byte.

Definition CHUNK_MAGICS : list bytes := [MHIT; MACT; MCOL].

(** ** Phase *)

Record Phase := mkPhase {
  phase_time : float;
  bbox_type : N;
  _raw_floats : option (list float);
  minX : float;
  minY : float;
  maxX : float;
  maxY : float
}.

Definition phase_get_floats (ph : Phase) : list float :=
  match _raw_floats ph with
  | Some fl => fl
  | None =>
      [minX ph; minY ph; minX ph; maxY ph; maxX ph; maxY ph; maxX ph; minY ph]
  end.

Definition phase_to_bytes (ph : Phase) : res bytes :=
  cat (pack_f (phase_time ph))
    (cat (pack_I (bbox_type ph)) (cat_all pack_f (phase_get_floats ph))).

(** [for i in range(num_floats): floats.append(unpack_from('<f', ...))] *)
Fixpoint read_floats (d : bytes) (n : nat) (off : N) : res (list float) :=
  match n with
  | O => Ok []
  | S n' =>
      v <- unpack_from_f d off ;;
      t <- read_floats d n' (off + 4) ;;
      Ok (v :: t)
  end.

Definition phase_from_bytes (d : bytes) (offset : N) : res Phase :=
  pt <- unpack_from_f d offset ;;
  bt <- unpack_from_I d (offset + 4) ;;
  let num_floats := bt * 2 in
  floats <- read_floats d (N.to_nat num_floats) (offset + 8) ;;
  if (bt =? 4) && (len floats =? 8) then
    Ok (mkPhase pt bt None (nth 0 floats 0%float) (nth 1 floats 0%float)
          (nth 4 floats 0%float) (nth 3 floats 0%float))
  else
    let xs := evens floats in
    let ys := odds floats in
    Ok (mkPhase pt bt (Some floats)
          (match xs with [] => 0%float | _ => py_min xs end)
          (match ys with [] => 0%float | _ => py_min ys end)
          (match xs with [] => 0%float | _ => py_max xs end)
          (match ys with [] => 0%float | _ => py_max ys end)).

(** ** CollisionSegment *)

Record CollisionSegment := mkSeg { x1 : float; y1 : float; x2 : float; y2 : float }.

Definition seg_scale (s : CollisionSegment) (factor cx cy : float) : CollisionSegment :=
  mkSeg (cx + (x1 s - cx) * factor) (cy + (y1 s - cy) * factor)
        (cx + (x2 s - cx) * factor) (cy + (y2 s - cy) * factor).

Definition seg_move (s : CollisionSegment) (dx dy : float) : CollisionSegment :=
  mkSeg (x1 s + dx) (y1 s + dy) (x2 s + dx) (y2 s + dy).

Definition zeros5 : bytes := [x00; x00; x00; x00; x00].

Definition seg_to_bytes (s : CollisionSegment) : res bytes :=
  cat (cat_all pack_f [x1 s; y1 s; x2 s; y2 s]) (Ok zeros5).

(** [struct.unpack_from('<4f', data, offset)] *)
Definition seg_from_bytes (d : bytes) (offset : N) : res CollisionSegment :=
  if offset + 16 <=? len d then
    a <- unpack_from_f d offset ;;
    b <- unpack_from_f d (offset + 4) ;;
    c <- unpack_from_f d (offset + 8) ;;
    e <- unpack_from_f d (offset + 12) ;;
    Ok (mkSeg a b c e)
  else Raise StructError.

(** ** CollisionPhase *)

Record CollisionPhase := mkColPhase {
  cp_phase_time : float;
  segments : list CollisionSegment
}.

Definition seg_xs (segs : list CollisionSegment) : list float :=
  flat_map (fun s => [x1 s; x2 s]) segs.
Definition seg_ys (segs : list CollisionSegment) : list float :=
  flat_map (fun s => [y1 s; y2 s]) segs.

Definition bounds_of (xs ys : list float) : float * float * float * float :=
  match xs with
  | [] => (0, 0, 0, 0)%float
  | _ => (py_min xs, py_min ys, py_max xs, py_max ys)
  end.

Definition cp_get_bounds (ph : CollisionPhase) : float * float * float * float :=
  bounds_of (seg_xs (segments ph)) (seg_ys (segments ph)).

Definition cp_move (ph : CollisionPhase) (dx dy : float) : CollisionPhase :=
  mkColPhase (cp_phase_time ph) (map (fun s => seg_move s dx dy) (segments ph)).

(** [CollisionPhase.scale(factor, cx=None, cy=None)] *)
Definition cp_scale (ph : CollisionPhase) (factor : float) (cx cy : option float)
  : CollisionPhase :=
  let '(bx1, by1, bx2, by2) := cp_get_bounds ph in
  let cx := match cx with Some c => c | None => ((bx1 + bx2) / 2)%float end in
  let cy := match cy with Some c => c | None => ((by1 + by2) / 2)%float end in
  mkColPhase (cp_phase_time ph) (map (fun s => seg_scale s factor cx cy) (segments ph)).

Definition cp_to_bytes (ph : CollisionPhase) : res bytes :=
  cat (pack_f (cp_phase_time ph))
    (cat (pack_I (len (segments ph))) (cat_all seg_to_bytes (segments ph))).

Inductive phase_error :=
| PhaseHeaderOverflow
| BadNumSegments (n : N)
| SegmentOverflow
| SeparatorOverflow
| BadSeparator (si : N).

(** The segment loop of [CollisionPhase.from_bytes]; [si] counts the
    segments read so far.  The result is the segments and the cursor, or
    the cursor and the error. *)
Fixpoint read_segments (d : bytes) (max_end : N) (n : nat) (si cursor : N)
    (acc : list CollisionSegment)
  : res (list CollisionSegment * N + N * phase_error) :=
  match n with
  | O => Ok (inl (acc, cursor))
  | S n' =>
      if cursor + 16 >? max_end then Ok (inr (cursor, SegmentOverflow))
      else
        seg <- seg_from_bytes d cursor ;;
        let cursor := cursor + 16 in
        if cursor + 5 >? max_end then Ok (inr (cursor, SeparatorOverflow))
        else
          let sep := slice d cursor (cursor + 5) in
          if negb (bytes_eqb sep zeros5) then Ok (inr (cursor, BadSeparator si))
          else read_segments d max_end n' (si + 1) (cursor + 5) (acc ++ [seg])
  end.

Definition cp_from_bytes (d : bytes) (offset max_end : N)
  : res (CollisionPhase * N + N * phase_error) :=
  if offset + 8 >? max_end then Ok (inr (offset, PhaseHeaderOverflow))
  else
    pt <- unpack_from_f d offset ;;
    num_segs <- unpack_from_I d (offset + 4) ;;
    if (num_segs <? 1) || (num_segs >? 200)
    then Ok (inr (offset, BadNumSegments num_segs))
    else
      r <- read_segments d max_end (N.to_nat num_segs) 0 (offset + 8) [] ;;
      match r with
      | inl (segs, cursor) => Ok (inl (mkColPhase pt segs, cursor))
      | inr e => Ok (inr e)
      end.

(** ** MCOLEntry *)

Record MCOLEntry := mkMCOL {
  mcol_anim_hash : N;
  mcol_event_hash : N;
  mcol_start_time : float;
  mcol_end_time : float;
  mcol_element_id : N;
  mcol_phases : list CollisionPhase;
  mcol_ref_count : N
}.

Definition mcol_get_bounds (e : MCOLEntry) : float * float * float * float :=
  bounds_of (flat_map (fun ph => seg_xs (segments ph)) (mcol_phases e))
            (flat_map (fun ph => seg_ys (segments ph)) (mcol_phases e)).

Definition mcol_with_phases (e : MCOLEntry) (phs : list CollisionPhase) : MCOLEntry :=
  mkMCOL (mcol_anim_hash e) (mcol_event_hash e) (mcol_start_time e)
    (mcol_end_time e) (mcol_element_id e) phs (mcol_ref_count e).

Definition mcol_move (e : MCOLEntry) (dx dy : float) : MCOLEntry :=
  mcol_with_phases e (map (fun ph => cp_move ph dx dy) (mcol_phases e)).

(** [MCOLEntry.scale(factor)] *)
Definition mcol_scale (e : MCOLEntry) (factor : float) : MCOLEntry :=
  let '(bx1, by1, bx2, by2) := mcol_get_bounds e in
  let cx := ((bx1 + bx2) / 2)%float in
  let cy := ((by1 + by2) / 2)%float in
  mcol_with_phases e
    (map (fun ph => cp_scale ph factor (Some cx) (Some cy)) (mcol_phases e)).

Definition mcol_to_bytes (e : MCOLEntry) : res bytes :=
  cat (Ok MCOL)
  (cat (pack_I (mcol_anim_hash e))
  (cat (pack_I (mcol_event_hash e))
  (cat (pack_f (mcol_start_time e))
  (cat (pack_f (mcol_end_time e))
  (cat (pack_I (mcol_element_id e))
  (cat (pack_I (len (mcol_phases e)))
  (cat (cat_all cp_to_bytes (mcol_phases e))
       (pack_I (mcol_ref_count e))))))))).

(** [for pi in range(num_phases): ...]; [None] when a phase fails. *)
Fixpoint read_col_phases (d : bytes) (max_end : N) (n : nat) (cursor : N)
    (acc : list CollisionPhase) : res (option (list CollisionPhase * N)) :=
  match n with
  | O => Ok (Some (acc, cursor))
  | S n' =>
      r <- cp_from_bytes d cursor max_end ;;
      match r with
      | inr _ => Ok None
      | inl (phase, cursor') => read_col_phases d max_end n' cursor' (acc ++ [phase])
      end
  end.

Definition mcol_from_bytes (d : bytes) (offset size : N) : res (option MCOLEntry) :=
  ah <- unpack_from_I d (offset + 4) ;;
  eh <- unpack_from_I d (offset + 8) ;;
  st <- unpack_from_f d (offset + 12) ;;
  et <- unpack_from_f d (offset + 16) ;;
  el <- unpack_from_I d (offset + 20) ;;
  num_phases <- unpack_from_I d (offset + 24) ;;
  let max_end := offset + size in
  r <- read_col_phases d max_end (N.to_nat num_phases) (offset + 28) [] ;;
  match r with
  | None => Ok None
  | Some (phases, cursor) =>
      rc <- (if cursor + 4 <=? max_end then unpack_from_I d cursor else Ok 0) ;;
      Ok (Some (mkMCOL ah eh st et el phases rc))
  end.

(** ** MHITEntry *)

Record MHITEntry := mkMHIT {
  mhit_anim_hash : N;
  mhit_event_hash : N;
  mhit_start_time : float;
  mhit_end_time : float;
  mhit_element_id : N;
  mhit_phases : list Phase;
  mhit_ref_hashes : list N;
  mhit_footer_extra : bytes
}.

Definition mhit_to_bytes (e : MHITEntry) : res bytes :=
  cat (Ok MHIT)
  (cat (pack_I (mhit_anim_hash e))
  (cat (pack_I (mhit_event_hash e))
  (cat (pack_f (mhit_start_time e))
  (cat (pack_f (mhit_end_time e))
  (cat (pack_I (mhit_element_id e))
  (cat (pack_I (len (mhit_phases e)))
  (cat (cat_all phase_to_bytes (mhit_phases e))
  (cat (pack_I (len (mhit_ref_hashes e)))
  (cat (cat_all pack_I (mhit_ref_hashes e))
       (Ok (mhit_footer_extra e))))))))))).

(** [for p in range(num_phases): ...]; the loop stops at the first phase
    that does not fit in the chunk. *)
Fixpoint read_hit_phases (d : bytes) (chunk_end : N) (n : nat) (phase_cursor : N)
    (acc : list Phase) : res (list Phase * N) :=
  match n with
  | O => Ok (acc, phase_cursor)
  | S n' =>
      if phase_cursor + 8 >? chunk_end then Ok (acc, phase_cursor)
      else
        bt <- unpack_from_I d (phase_cursor + 4) ;;
        let phase_size := 8 + bt * 8 in
        if phase_cursor + phase_size >? chunk_end then Ok (acc, phase_cursor)
        else
          phase <- phase_from_bytes d phase_cursor ;;
          read_hit_phases d chunk_end n' (phase_cursor + phase_size) (acc ++ [phase])
  end.

(** [for r in range(ref_count): ...]: a hash is appended only while it
    lies inside the chunk; the loop itself runs [ref_count] times. *)
Fixpoint read_ref_hashes (d : bytes) (chunk_end footer_off : N) (n : nat) (r : N)
    (acc : list N) : res (list N) :=
  match n with
  | O => Ok acc
  | S n' =>
      let rh_off := footer_off + 4 + r * 4 in
      if rh_off + 4 <=? chunk_end then
        v <- unpack_from_I d rh_off ;;
        read_ref_hashes d chunk_end footer_off n' (r + 1) (acc ++ [v])
      else read_ref_hashes d chunk_end footer_off n' (r + 1) acc
  end.

Definition mhit_from_bytes (d : bytes) (offset size : N) : res MHITEntry :=
  ah <- unpack_from_I d (offset + 4) ;;
  eh <- unpack_from_I d (offset + 8) ;;
  st <- unpack_from_f d (offset + 12) ;;
  et <- unpack_from_f d (offset + 16) ;;
  el <- unpack_from_I d (offset + 20) ;;
  num_phases <- unpack_from_I d (offset + 24) ;;
  '(phases, phase_cursor) <-
     read_hit_phases d (offset + size) (N.to_nat num_phases) (offset + 28) [] ;;
  let footer_off := phase_cursor in
  if footer_off + 4 <=? offset + size then
    ref_count <- unpack_from_I d footer_off ;;
    ref_hashes <- read_ref_hashes d (offset + size) footer_off (N.to_nat ref_count) 0 [] ;;
    let consumed := footer_off + 4 + ref_count * 4 - offset in
    let extra := if consumed <? size
                 then slice d (offset + consumed) (offset + size) else [] in
    Ok (mkMHIT ah eh st et el phases ref_hashes extra)
  else Ok (mkMHIT ah eh st et el phases [] []).

(** ** Chunks and the container *)

Inductive chunk :=
| C_MHIT (e : MHITEntry)
| C_MCOL (e : MCOLEntry)
| C_Raw (magic : bytes) (raw : bytes).        (* RawChunk *)

Definition chunk_to_bytes (c : chunk) : res bytes :=
  match c with
  | C_MHIT e => mhit_to_bytes e
  | C_MCOL e => mcol_to_bytes e
  | C_Raw _ raw => Ok raw
  end.

(** [isinstance(c, (MHITEntry, MCOLEntry))] *)
Definition structured (c : chunk) : bool :=
  match c with C_Raw _ _ => false | _ => true end.

Definition is_chunk_magic (tag : bytes) : bool :=
  existsb (bytes_eqb tag) CHUNK_MAGICS.

(** [while pos <= len(data) - 4: ...] of [_find_chunk_boundaries]. *)
Fixpoint boundaries_loop (fuel : nat) (d : bytes) (pos : N) (acc : list (N * bytes))
  : res (list (N * bytes)) :=
  match fuel with
  | O => OutOfFuel
  | S fuel' =>
      if pos + 4 <=? len d then
        let tag := slice d pos (pos + 4) in
        if is_chunk_magic tag
        then boundaries_loop fuel' d (pos + 4) (acc ++ [(pos, tag)])
        else boundaries_loop fuel' d (pos + 1) acc
      else Ok acc
  end.

(** Every pass moves the cursor forward, so [len d] passes (and one to
    leave the loop) are enough. *)
Definition _find_chunk_boundaries (d : bytes) : res (list (N * bytes)) :=
  boundaries_loop (S (N.to_nat (len d))) d 12 [].

Record CAnimMeta := mkMeta {
  version : N;
  anim_hash : N;
  entry_count : N;
  chunks : list chunk;
  _trailing_bytes : bytes
}.

(** The body of the loop of [load] for one boundary: the bare [except:]
    turns every exception of the tentative decode into a [RawChunk]. *)
Definition load_chunk (d : bytes) (cpos : N) (cmagic : bytes) (csize : N) : chunk :=
  let raw_data := slice d cpos (cpos + csize) in
  if bytes_eqb cmagic MHIT then
    match mhit_from_bytes d cpos csize with
    | Ok entry =>
        match mhit_to_bytes entry with
        | Ok b => if bytes_eqb b raw_data then C_MHIT entry else C_Raw cmagic raw_data
        | _ => C_Raw cmagic raw_data
        end
    | _ => C_Raw cmagic raw_data
    end
  else if bytes_eqb cmagic MCOL then
    match mcol_from_bytes d cpos csize with
    | Ok (Some entry) =>
        match mcol_to_bytes entry with
        | Ok b => if bytes_eqb b raw_data then C_MCOL entry else C_Raw cmagic raw_data
        | _ => C_Raw cmagic raw_data
        end
    | _ => C_Raw cmagic raw_data
    end
  else C_Raw cmagic raw_data.

(** The size of a chunk: up to the next boundary, or to the end of the
    buffer for the last one. *)
Definition chunk_size (d : bytes) (cpos : N) (rest : list (N * bytes)) : N :=
  match rest with
  | (npos, _) :: _ => npos - cpos
  | [] => len d - cpos
  end.

Fixpoint load_chunks (d : bytes) (chunk_positions : list (N * bytes)) : list chunk :=
  match chunk_positions with
  | [] => []
  | (cpos, cmagic) :: rest =>
      load_chunk d cpos cmagic (chunk_size d cpos rest) :: load_chunks d rest
  end.

(** [CAnimMeta.load] on the bytes of the file. *)
Definition load (data : bytes) : res CAnimMeta :=
  if len data <? 12 then
    Ok (mkMeta (if len data >=? 4 then le_N (slice data 0 4) else 0)
               (if len data >=? 8 then le_N (slice data 4 8) else 0)
               0 [] [])
  else
    v <- unpack_from_I data 0 ;;
    ah <- unpack_from_I data 4 ;;
    ec <- unpack_from_I data 8 ;;
    chunk_positions <- _find_chunk_boundaries data ;;
    let chunks := load_chunks data chunk_positions in
    let data_end :=
      match rev chunk_positions with
      | (last_pos, _) :: _ => last_pos + (len data - last_pos)
      | [] => 12
      end in
    Ok (mkMeta v ah ec chunks
          (if data_end <? len data then slice_from data data_end else [])).


(** The 32-bit word at an offset of the buffer. *)
Definition u32_at_meta (d : bytes) (p : N) : N := le_N (slice d p (p + 4)).

(** ** RawChunk accessors *)

Definition raw_chunk_type (magic : bytes) : res pystr := decode_ascii magic.

Definition raw_event_hash (raw : bytes) : res N :=
  if len raw >=? 12 then unpack_from_I raw 8 else Ok 0.

Definition raw_start_time (raw : bytes) : res float :=
  if len raw >=? 16 then unpack_from_f raw 12 else Ok 0%float.

Definition raw_end_time (raw : bytes) : res float :=
  if len raw >=? 20 then unpack_from_f raw 16 else Ok 0%float.

(** ** JSON export / import *)

(** [f"0x{n:08X}"]: upper-case hexadecimal, at least eight digits. *)
Definition HEX_digit (n : N) : ascii :=
  if n <? 10 then ascii_of_N (48 + n) else ascii_of_N (55 + n).

Fixpoint HEX_digits (k : nat) (n : N) (acc : string) : string :=
  match k with
  | O => acc
  | S k' => HEX_digits k' (n / 16) (String (HEX_digit (n mod 16)) acc)
  end.

Definition hex_width (n : N) : nat := Nat.max 8 (N.to_nat (N.log2 n / 4 + 1)).

Definition fmt_08X (n : N) : string :=
  String "0" (String "x" (HEX_digits (hex_width n) n EmptyString)).

(** [int(s, 16)] on the texts that export writes: an optional [0x] prefix
    and at least one hexadecimal digit; anything else is a [ValueError]. *)
Fixpoint hex_value (s : string) (acc : N) : option N :=
  match s with
  | EmptyString => Some acc
  | String c t =>
      match hex_val c with
      | Some v => hex_value t (16 * acc + v)
      | None => None
      end
  end.

Definition int_16 (s : string) : res N :=
  let digits :=
    match s with
    | String "0" (String "x" t) => t
    | String "0" (String "X" t) => t
    | _ => s
    end in
  match digits with
  | EmptyString => Raise ValueError
  | _ => match hex_value digits 0 with
         | Some v => Ok v
         | None => Raise ValueError
         end
  end.

Record json_phase := mkJPhase {
  jp_phase_time : float;
  jp_bbox_type : N;
  jp_minX : float;
  jp_minY : float;
  jp_maxX : float;
  jp_maxY : float;
  jp_raw_floats : option (list float)       (* key absent when [None] *)
}.

Inductive json_chunk :=
| J_MHIT (event_hash : string) (start_time end_time : float) (element_id : N)
    (phases : list json_phase) (ref_hashes : list string) (footer_extra_hex : string)
| J_MCOL (anim_hash event_hash : string) (start_time end_time : float)
    (element_id ref_count : N) (phases : list (float * list CollisionSegment))
| J_Raw (type : pystr) (event_hash : string) (start_time end_time : float)
    (raw_hex : string) (size : N).

Record json_doc := mkDoc {
  jd_version : N;
  jd_anim_hash : string;
  jd_trailing_hex : string;
  jd_chunks : list json_chunk
}.

Definition export_phase (ph : Phase) : json_phase :=
  mkJPhase (phase_time ph) (bbox_type ph) (minX ph) (minY ph) (maxX ph) (maxY ph)
    (_raw_floats ph).

Definition export_chunk (c : chunk) : res json_chunk :=
  match c with
  | C_MHIT e =>
      Ok (J_MHIT (fmt_08X (mhit_event_hash e)) (mhit_start_time e) (mhit_end_time e)
            (mhit_element_id e) (map export_phase (mhit_phases e))
            (map fmt_08X (mhit_ref_hashes e)) (hex (mhit_footer_extra e)))
  | C_MCOL e =>
      Ok (J_MCOL (fmt_08X (mcol_anim_hash e)) (fmt_08X (mcol_event_hash e))
            (mcol_start_time e) (mcol_end_time e) (mcol_element_id e)
            (mcol_ref_count e)
            (map (fun ph => (cp_phase_time ph, segments ph)) (mcol_phases e)))
  | C_Raw magic raw =>
      ty <- raw_chunk_type magic ;;
      eh <- raw_event_hash raw ;;
      st <- raw_start_time raw ;;
      et <- raw_end_time raw ;;
      Ok (J_Raw ty (fmt_08X eh) st et (hex raw) (len raw))
  end.

Fixpoint map_res {A B} (f : A -> res B) (l : list A) : res (list B) :=
  match l with
  | [] => Ok []
  | x :: t => y <- f x ;; r <- map_res f t ;; Ok (y :: r)
  end.

(** [export_json]: the dictionary written to the file.  [json.dump] and
    [json.load] give back the integers, strings and lists they were given,
    and a float is written with [repr], which reads back as the same
    binary64 number. *)
Definition export_json (meta : CAnimMeta) : res json_doc :=
  cs <- map_res export_chunk (chunks meta) ;;
  Ok (mkDoc (version meta) (fmt_08X (anim_hash meta))
        (hex (_trailing_bytes meta)) cs).

(** [bytes.fromhex(t) if t else b''] *)
Definition fromhex_or_empty (t : string) : res bytes :=
  if nonempty t then fromhex t else Ok [].

Definition import_phase (pd : json_phase) : Phase :=
  mkPhase (jp_phase_time pd) (jp_bbox_type pd) (jp_raw_floats pd)
    (jp_minX pd) (jp_minY pd) (jp_maxX pd) (jp_maxY pd).

(** One chunk of [import_json]; [meta_anim_hash] is the hash just read
    from the top of the document. *)
Definition import_chunk (meta_anim_hash : N) (cd : json_chunk) : res chunk :=
  match cd with
  | J_MHIT event_hash start_time end_time element_id phases ref_hashes fe =>
      eh <- int_16 event_hash ;;
      rhs <- map_res int_16 ref_hashes ;;
      extra <- fromhex_or_empty fe ;;
      Ok (C_MHIT (mkMHIT meta_anim_hash eh start_time end_time element_id
                    (map import_phase phases) rhs extra))
  | J_MCOL anim_hash event_hash start_time end_time element_id ref_count phases =>
      ah <- int_16 anim_hash ;;
      eh <- int_16 event_hash ;;
      Ok (C_MCOL (mkMCOL ah eh start_time end_time element_id
                    (map (fun phd => mkColPhase (fst phd) (snd phd)) phases)
                    ref_count))
  | J_Raw _ _ _ _ raw_hex _ =>
      raw <- fromhex raw_hex ;;
      Ok (C_Raw (slice raw 0 4) raw)
  end.

Definition import_json (data : json_doc) : res CAnimMeta :=
  ah <- int_16 (jd_anim_hash data) ;;
  tr <- fromhex_or_empty (jd_trailing_hex data) ;;
  cs <- map_res (import_chunk ah) (jd_chunks data) ;;
  Ok (mkMeta (jd_version data) ah (len cs) cs tr).

(** ** Sizes: the [byte_size] and [phase_byte_size] properties *)

Definition phase_byte_size (ph : Phase) : N := 8 + bbox_type ph * 8.

Definition BYTE_SIZE : N := 21.

Definition cp_phase_byte_size (ph : CollisionPhase) : N :=
  8 + len (segments ph) * BYTE_SIZE.

(** [sum(...)] *)
Definition sum_N (l : list N) : N := fold_right N.add 0 l.

Definition mcol_byte_size (e : MCOLEntry) : N :=
  28 + sum_N (map cp_phase_byte_size (mcol_phases e)) + 4.

Definition mhit_byte_size (e : MHITEntry) : N :=
  28 + sum_N (map phase_byte_size (mhit_phases e)) + 4
  + len (mhit_ref_hashes e) * 4 + len (mhit_footer_extra e).

Definition chunk_byte_size (c : chunk) : N :=
  match c with
  | C_MHIT e => mhit_byte_size e
  | C_MCOL e => mcol_byte_size e
  | C_Raw _ raw => len raw
  end.

(** [RawChunk.anim_hash] *)
Definition raw_anim_hash (raw : bytes) : res N :=
  if len raw >=? 8 then unpack_from_I raw 4 else Ok 0.

(** [chunk_type] of the three kinds of chunk. *)
Definition chunk_type (c : chunk) : res pystr :=
  match c with
  | C_MHIT _ => Ok (pystr_of "MHIT")
  | C_MCOL _ => Ok (pystr_of "MCOL")
  | C_Raw magic _ => raw_chunk_type magic
  end.

(** ** Phase.scale and Phase.move *)

Definition phase_width (ph : Phase) : float := (maxX ph - minX ph)%float.
Definition phase_height (ph : Phase) : float := (maxY ph - minY ph)%float.

(** The loop over the raw floats of [Phase.scale]: the floats are taken
    in pairs, and a last float without partner is paired with [0.0]. *)
Fixpoint scale_pairs (cx cy factor : float) (l : list float) : list float :=
  match l with
  | [] => []
  | [x] => [(cx + (x - cx) * factor)%float; (cy + (0 - cy) * factor)%float]
  | x :: y :: t =>
      (cx + (x - cx) * factor)%float :: (cy + (y - cy) * factor)%float
      :: scale_pairs cx cy factor t
  end.

Definition phase_scale (ph : Phase) (factor : float) : Phase :=
  let cx := ((minX ph + maxX ph) / 2)%float in
  let cy := ((minY ph + maxY ph) / 2)%float in
  let hw := (phase_width ph / 2 * factor)%float in
  let hh := (phase_height ph / 2 * factor)%float in
  mkPhase (phase_time ph) (bbox_type ph)
    (option_map (scale_pairs cx cy factor) (_raw_floats ph))
    (cx - hw) (cy - hh) (cx + hw) (cy + hh).

(** The loop over the raw floats of [Phase.move]. *)
Fixpoint move_pairs (dx dy : float) (l : list float) : list float :=
  match l with
  | [] => []
  | [x] => [(x + dx)%float]
  | x :: y :: t => (x + dx)%float :: (y + dy)%float :: move_pairs dx dy t
  end.

Definition phase_move (ph : Phase) (dx dy : float) : Phase :=
  mkPhase (phase_time ph) (bbox_type ph)
    (option_map (move_pairs dx dy) (_raw_floats ph))
    (minX ph + dx) (minY ph + dy) (maxX ph + dx) (maxY ph + dy).

(** ** Edit commands.  The arguments have been parsed: an entry or phase
    number by [int], a coordinate, a time or a factor by [float]. *)

(** The position addressed by a Python index in a sequence of [n] items: a
    negative index counts from the end, and an index outside the sequence is
    an [IndexError]. *)
Definition py_norm (n : N) (i : Z) : res nat :=
  let j := (if i <? 0 then i + Z.of_N n else i)%Z in
  if ((0 <=? j) && (j <? Z.of_N n))%Z then Ok (Z.to_nat j) else Raise IndexError.

Definition set_nth {A} (k : nat) (x : A) (l : list A) : list A :=
  firstn k l ++ x :: skipn (S k) l.

Definition remove_nth {A} (k : nat) (l : list A) : list A :=
  firstn k l ++ skipn (S k) l.

Definition with_chunks (meta : CAnimMeta) (cs : list chunk) : CAnimMeta :=
  mkMeta (version meta) (anim_hash meta) (entry_count meta) cs (_trailing_bytes meta).

Definition mhit_with_phases (e : MHITEntry) (phs : list Phase) : MHITEntry :=
  mkMHIT (mhit_anim_hash e) (mhit_event_hash e) (mhit_start_time e) (mhit_end_time e)
    (mhit_element_id e) phs (mhit_ref_hashes e) (mhit_footer_extra e).

(** The body of [cmd_time] for the chunk it addresses: a raw chunk is only
    named in a message. *)
Definition chunk_set_time (c : chunk) (s e : float) : res chunk :=
  match c with
  | C_MHIT h =>
      Ok (C_MHIT (mkMHIT (mhit_anim_hash h) (mhit_event_hash h) s e (mhit_element_id h)
                    (mhit_phases h) (mhit_ref_hashes h) (mhit_footer_extra h)))
  | C_MCOL m =>
      Ok (C_MCOL (mkMCOL (mcol_anim_hash m) (mcol_event_hash m) s e (mcol_element_id m)
                    (mcol_phases m) (mcol_ref_count m)))
  | C_Raw magic _ => _ <- raw_chunk_type magic ;; Ok c
  end.

Definition cmd_time (meta : CAnimMeta) (entry : Z) (s e : float) : res CAnimMeta :=
  k <- py_norm (len (chunks meta)) (entry - 1) ;;
  match nth_error (chunks meta) k with
  | Some c =>
      c' <- chunk_set_time c s e ;;
      Ok (with_chunks meta (set_nth k c' (chunks meta)))
  | None => Raise IndexError
  end.

(** The body of [cmd_bbox] for the phase it addresses. *)
Definition phase_set_bbox (ph : Phase) (nx1 ny1 nx2 ny2 : float) : Phase :=
  match _raw_floats ph with
  | Some _ => mkPhase (phase_time ph) 4 None nx1 ny1 nx2 ny2
  | None => mkPhase (phase_time ph) (bbox_type ph) None nx1 ny1 nx2 ny2
  end.

Definition cmd_bbox (meta : CAnimMeta) (entry phase : Z) (nx1 ny1 nx2 ny2 : float)
  : res CAnimMeta :=
  k <- py_norm (len (chunks meta)) (entry - 1) ;;
  match nth_error (chunks meta) k with
  | Some (C_MHIT e) =>
      pi <- py_norm (len (mhit_phases e)) (phase - 1) ;;
      match nth_error (mhit_phases e) pi with
      | Some ph =>
          let e' := mhit_with_phases e
                      (set_nth pi (phase_set_bbox ph nx1 ny1 nx2 ny2) (mhit_phases e)) in
          Ok (with_chunks meta (set_nth k (C_MHIT e') (chunks meta)))
      | None => Raise IndexError
      end
  | Some c => _ <- chunk_type c ;; Ok meta
  | None => Raise IndexError
  end.

(** The bodies of [cmd_scale] and [cmd_move] for the chunk they address. *)
Definition chunk_scale (c : chunk) (factor : float) : res chunk :=
  match c with
  | C_MHIT e =>
      Ok (C_MHIT (mhit_with_phases e (map (fun ph => phase_scale ph factor) (mhit_phases e))))
  | C_MCOL e => Ok (C_MCOL (mcol_scale e factor))
  | C_Raw magic _ => _ <- raw_chunk_type magic ;; Ok c
  end.

Definition chunk_move (c : chunk) (dx dy : float) : res chunk :=
  match c with
  | C_MHIT e =>
      Ok (C_MHIT (mhit_with_phases e (map (fun ph => phase_move ph dx dy) (mhit_phases e))))
  | C_MCOL e => Ok (C_MCOL (mcol_move e dx dy))
  | C_Raw magic _ => _ <- raw_chunk_type magic ;; Ok c
  end.

Definition cmd_scale (meta : CAnimMeta) (entry : Z) (factor : float) : res CAnimMeta :=
  k <- py_norm (len (chunks meta)) (entry - 1) ;;
  match nth_error (chunks meta) k with
  | Some c =>
      c' <- chunk_scale c factor ;;
      Ok (with_chunks meta (set_nth k c' (chunks meta)))
  | None => Raise IndexError
  end.

Definition cmd_move (meta : CAnimMeta) (entry : Z) (dx dy : float) : res CAnimMeta :=
  k <- py_norm (len (chunks meta)) (entry - 1) ;;
  match nth_error (chunks meta) k with
  | Some c =>
      c' <- chunk_move c dx dy ;;
      Ok (with_chunks meta (set_nth k c' (chunks meta)))
  | None => Raise IndexError
  end.

(** The copy that [cmd_dup] appends.  A phase keeps its raw floats only
    when the list is not empty: [list(raw) if raw else None]. *)
Definition dup_phase (ph : Phase) : Phase :=
  mkPhase (phase_time ph) (bbox_type ph)
    (match _raw_floats ph with
     | Some (x :: t) => Some (x :: t)
     | _ => None
     end)
    (minX ph) (minY ph) (maxX ph) (maxY ph).

Definition dup_chunk (c : chunk) : chunk :=
  match c with
  | C_MHIT e =>
      C_MHIT (mkMHIT (mhit_anim_hash e) (mhit_event_hash e) (mhit_start_time e)
                (mhit_end_time e) (mhit_element_id e) (map dup_phase (mhit_phases e))
                (mhit_ref_hashes e) (mhit_footer_extra e))
  | C_MCOL e =>
      C_MCOL (mkMCOL (mcol_anim_hash e) (mcol_event_hash e) (mcol_start_time e)
                (mcol_end_time e) (mcol_element_id e)
                (map (fun ph =>
                        mkColPhase (cp_phase_time ph)
                          (map (fun s => mkSeg (x1 s) (y1 s) (x2 s) (y2 s)) (segments ph)))
                     (mcol_phases e))
                (mcol_ref_count e))
  | C_Raw magic raw => C_Raw magic raw
  end.

Definition cmd_dup (meta : CAnimMeta) (entry : Z) : res CAnimMeta :=
  k <- py_norm (len (chunks meta)) (entry - 1) ;;
  match nth_error (chunks meta) k with
  | Some c => Ok (with_chunks meta (chunks meta ++ [dup_chunk c]))
  | None => Raise IndexError
  end.

(** [cmd_del]: [meta.chunks.pop(idx)], then a message that names the type
    of the chunk removed.  The result is the container as the command leaves
    it, and how the command ended. *)
Definition cmd_del (meta : CAnimMeta) (entry : Z) : CAnimMeta * res unit :=
  match py_norm (len (chunks meta)) (entry - 1) with
  | Ok k =>
      match nth_error (chunks meta) k with
      | Some removed =>
          (with_chunks meta (remove_nth k (chunks meta)),
           _ <- chunk_type removed ;; Ok tt)
      | None => (meta, Raise IndexError)
      end
  | Raise e => (meta, Raise e)
  | OutOfFuel => (meta, OutOfFuel)
  end.


(** [Phase.num_floats] *)
Definition num_floats (ph : Phase) : N := bbox_type ph * 2.


End CanimMeta.

(* ================================================================== *)
(** * Statements of the specification *)
(* ================================================================== *)

(** Predicates that follow the words of the specification; the theorems
    below relate them to the functions translated from the source. *)

Module CanimSpec.
Import Canim.

(** The three ways in which [rstr] fails. *)
Definition rstr_fails (d : bytes) (p : N) : Prop :=
  len d < p + 4 \/ 500 < u32_at d p \/ len d < p + 4 + u32_at d p.

(** A valid length-prefixed printable-ASCII string at [p]: the 32-bit
    length [l] is in the buffer, is not zero and at most 300, the [l] bytes
    that follow are in the buffer, and each of them is printable ASCII. *)
Definition valid_string_at (d : bytes) (p l : N) (body : bytes) : Prop :=
  p + 4 <= len d /\ u32_at d p = l /\ 1 <= l <= 300 /\ p + 4 + l <= len d /\
  body = slice d (p + 4) (p + 4 + l) /\
  Forall (fun b => 32 <= Byte.to_N b < 127) body.

(** A symbol header at [pos], in the words of the specification: a valid
    length-prefixed string, followed in bounds (of the buffer and of the
    limit [fs]) by a rate byte of the enumerated set and a 16-bit count of at
    most 5000, the name holding no ['/']. *)
Definition symbol_header_at (d : bytes) (pos fs : N) : Prop :=
  exists (l : N) (name : bytes) (rate count : N),
    valid_string_at d pos l name /\
    pos + 4 + l + 3 <= fs /\ pos + 4 + l + 3 <= len d /\
    rate = u8_at d (pos + 4 + l) /\ In rate KNOWN_RATES /\
    count = u16_at d (pos + 4 + l + 1) /\ count <= 5000 /\
    ~ In 47 (map Byte.to_N name).

(** A binary32 number that is finite and lies between two integers. *)
Definition f32_finite (b : f32) : Prop := f32_exp b <> 255.

Definition f32_between (lo hi : Z) (b : f32) : Prop :=
  f32_finite b /\ (inject_Z lo <= f32_value b)%Q /\ (f32_value b <= inject_Z hi)%Q.

(** The sprite validation predicate of the specification: a name that is
    printable ASCII throughout (which a zero-length name is), the four
    floats finite and within +-10000, width and height moreover in
    [0, 5000]. *)
Definition printable_name (s : pystr) : Prop := Forall (fun c => 32 <= c < 127) s.

Definition sprite_floats_ok (sp : sprite) : Prop :=
  f32_between (-10000) 10000 (sp_width sp) /\
  f32_between (-10000) 10000 (sp_height sp) /\
  f32_between (-10000) 10000 (sp_pivot_x sp) /\
  f32_between (-10000) 10000 (sp_pivot_y sp) /\
  f32_between 0 5000 (sp_width sp) /\
  f32_between 0 5000 (sp_height sp).

Definition sprite_valid (sp : sprite) : Prop :=
  printable_name (sp_name sp) /\ sprite_floats_ok sp.

(** A placeholder record whose width field holds 6000.0: frame and
    auxiliary word, a zero length, then 6000.0, 10.0, 0.0, 0.0. *)
Definition placeholder_6000 : bytes :=
  map byte_of [0; 0; 0; 0;  0; 0; 0; 0;  0; 128; 187; 69;  0; 0; 32; 65;
               0; 0; 0; 0;  0; 0; 0; 0].

(** The binary32 pattern of 6000.0. *)
Definition f32_6000 : f32 := 1169915904.

(** An outcome that a handler for [(ValueError, IndexError)] turns into a
    value: a value, or one of these two exceptions. *)
Definition benign {A} (r : res A) : Prop :=
  match r with
  | Ok _ => True
  | Raise e => is_ValueError_or_IndexError e = true
  | OutOfFuel => False
  end.

(** Two concrete sprite records with the name ["a"]: one 10 x 10, one whose
    width field is 6000.0. *)
Definition named_sprite_10 : bytes :=
  map byte_of [0; 0; 0; 0;  1; 0; 0; 0; 97;  0; 0; 32; 65;  0; 0; 32; 65;
               0; 0; 0; 0;  0; 0; 0; 0].

Definition named_sprite_6000 : bytes :=
  map byte_of [0; 0; 0; 0;  1; 0; 0; 0; 97;  0; 128; 187; 69;  0; 0; 32; 65;
               0; 0; 0; 0;  0; 0; 0; 0].

(** An outcome that is not a loop cut short by its iteration budget: the
    computation returned or raised. *)
Definition halts {A} (r : res A) : Prop :=
  match r with OutOfFuel => False | _ => True end.

(** A pass of the build loop that continues leaves the cursor strictly
    after [pos] and not beyond [fs]. *)
Definition advances (pos fs : N) (r : res (ctl build_state)) : Prop :=
  match r with
  | Ok (Continue st') => pos < b_pos st' <= fs
  | _ => True
  end.

(** A run of reads that never ends by exhausting a budget. *)
Definition cur_halts {A} (m : cur A) : Prop := forall p, halts (fst (m p)).

(** A text of ASCII characters only (no replacement character). *)
Definition ascii_text (s : pystr) : Prop := Forall (fun c => c < 128) s.

(** The minimal sprite written to the JSON file for a sprite. *)
Definition to_min_sprite (sp : sprite) : min_sprite :=
  mkMinSprite (sp_name sp) (sp_width sp) (sp_height sp) (sp_pivot_x sp) (sp_pivot_y sp).

(** ** The minimal-animation scenario *)




(** A valid string with a hyphen starts at [scan]: what the scan of the
    minimal layout looks for. *)
Definition hyphen_string_at (d : bytes) (scan : N) : bool :=
  valid_str d scan &&
  contains_char 45 (map Byte.to_N (slice d (scan + 4) (scan + 4 + u32_at d scan))).






(** ** Round trip of the animation container *)

(** A float that the JSON file gives back as it was written: anything but
    a NaN other than [float('nan')]. *)
Definition json_stable (v : f32) : Prop := json_float v = v.

Definition element_stable (e : element) : Prop :=
  let '(ma, mb, mc, md) := el_matrix e in
  json_stable ma /\ json_stable mb /\ json_stable mc /\ json_stable md /\
  json_stable (el_tx e) /\ json_stable (el_ty e).


(** The layer count declared in the header: the fifth of the 16-bit counts
    that follow the name and the rate byte. *)
Definition declared_layer_count (d : bytes) : N :=
  u16_at d (12 + 4 + u32_at d 12 + 1 + 8).


(** The bytes written for a build entry after its trip through the JSON
    file. *)
Definition json_export_entry (e : build_entry) : json_entry :=
  json_json_entry (export_entry e).

(** Where two states of the build loop stand to each other: the cursor has
    not moved back, and the entries added in between are written back as the
    bytes between the two cursors. *)
Definition recorded (d : bytes) (st st' : build_state) : Prop :=
  b_pos st <= b_pos st' /\
  exists new,
    b_entries st' = b_entries st ++ new /\
    forall buf, for_each write_entry (map json_export_entry new) buf
                = Ok (buf ++ slice d (b_pos st) (b_pos st')).


(** The same, for the outcome of one pass of the build loop. *)
Definition pass_recorded (d : bytes) (st : build_state) (r : res (ctl build_state))
  : Prop :=
  match r with
  | Ok (Break st') | Ok (Continue st') => recorded d st st'
  | _ => True
  end.


(** ** The build region *)

(** What one pass of the build loop does to its state: nothing, or one
    entry added whose retained span runs from the old cursor to the new
    one, which lies within the limit [fs]. *)
Inductive pass_shape (d : bytes) (fs : N) (st : build_state) : build_state -> Prop :=
| PS_same : pass_shape d fs st st
| PS_symbol (sym : symbol) (pos' : N) :
    b_pos st < pos' -> pos' <= fs ->
    pass_shape d fs st
      (push_symbol st (with_raw sym (slice d (b_pos st) pos'))
         (len (sym_sprites sym)) pos')
| PS_section (sn : pystr) (pos' : N) :
    b_pos st < pos' -> pos' <= fs ->
    pass_shape d fs st
      (push_section st
         (mkBuildSection sn (pos' - b_pos st) (b_pos st) (hex (slice d (b_pos st) pos')))
         pos').

Definition pass_shaped (d : bytes) (fs : N) (st : build_state)
    (r : res (ctl build_state)) : Prop :=
  match r with
  | Ok (Break st') | Ok (Continue st') => pass_shape d fs st st'
  | _ => True
  end.

(** The entry [e] retains the bytes from [a] to [m]. *)
Definition entry_spans (d : bytes) (a m : N) (e : build_entry) : Prop :=
  match e with
  | BE_symbol s =>
      sym_raw_hex s = Some (hex (slice d a m)) /\ sym_entry_type s = Some ET_symbol
  | BE_section s =>
      bs_raw_hex s = hex (slice d a m) /\ bs_start s = a /\ bs_data_size s = m - a
  end.

(** The entries tile the bytes from [a] to [b]: each one retains a span
    that is not empty, lies inside the buffer and starts where the one before
    it ended. *)
Fixpoint tiles (d : bytes) (a : N) (es : list build_entry) (b : N) : Prop :=
  match es with
  | [] => a = b
  | e :: t => exists m, a < m /\ m <= len d /\ entry_spans d a m e /\ tiles d m t b
  end.

Definition symbols_of (es : list build_entry) : list symbol :=
  flat_map (fun e => match e with BE_symbol s => [s] | BE_section _ => [] end) es.

Definition sections_of (es : list build_entry) : list build_section :=
  flat_map (fun e => match e with BE_symbol _ => [] | BE_section b => [b] end) es.

Definition sprite_total (syms : list symbol) : N :=
  fold_right (fun s t => len (sym_sprites s) + t) 0 syms.

(** The bookkeeping of the build loop: the symbols and the timeline
    blocks are the entries of either kind, in order, and [tsp] counts the
    sprites of the symbols. *)
Definition booked (st : build_state) : Prop :=
  b_symbols st = symbols_of (b_entries st) /\
  b_build_secs st = sections_of (b_entries st) /\
  b_tsp st = sprite_total (b_symbols st).


End CanimSpec.

Module CanimMetaSpec.
Import CanimMeta.

(** All the segments of a collision chunk, phase after phase. *)
Definition all_segments (e : MCOLEntry) : list CollisionSegment :=
  flat_map segments (mcol_phases e).

(** The centre of the bounding box of a list of segments: half the sum of
    the least and the greatest coordinate, on each axis. *)
Definition bbox_centre (segs : list CollisionSegment) : float * float :=
  let xs := flat_map (fun s => [x1 s; x2 s]) segs in
  let ys := flat_map (fun s => [y1 s; y2 s]) segs in
  (((py_min xs + py_max xs) / 2)%float, ((py_min ys + py_max ys) / 2)%float).

(** A coordinate scaled about a centre. *)
Definition about (c factor v : float) : float := (c + (v - c) * factor)%float.

Definition scale_segment_about (cx cy factor : float) (s : CollisionSegment)
  : CollisionSegment :=
  mkSeg (about cx factor (x1 s)) (about cy factor (y1 s))
        (about cx factor (x2 s)) (about cy factor (y2 s)).

(** The scenario of the specification: two phases with one segment each,
    (0,0)-(10,0) and (0,10)-(10,10). *)
Definition two_phase_chunk : MCOLEntry :=
  mkMCOL 0 0 0%float 1%float 0
    [mkColPhase 0%float [mkSeg 0 0 10 0];
     mkColPhase 1%float [mkSeg 0 10 10 10]] 0.

(** Structural equality of two documents, as the interchange law reads
    it: the same version and hash, equal chunk sequences and the same tail
    (the declared count of the header is not part of it). *)
Definition same_document (a b : CAnimMeta) : Prop :=
  version a = version b /\ anim_hash a = anim_hash b /\
  chunks a = chunks b /\ _trailing_bytes a = _trailing_bytes b.

(** [import_json] applied to what [export_json] wrote. *)
Definition interchange (m : CAnimMeta) : res CAnimMeta :=
  j <- export_json m ;; import_json j.

(** A container with hash 0 that holds one hit-phase chunk carrying the
    animation hash 1 (no phase, no reference). *)
Definition foreign_hash_file : bytes :=
  map byte_of [1; 0; 0; 0;  0; 0; 0; 0;  1; 0; 0; 0] ++ MHIT ++
  map byte_of [1; 0; 0; 0;  0; 0; 0; 0;  0; 0; 0; 0;  0; 0; 0; 0;
               0; 0; 0; 0;  0; 0; 0; 0;  0; 0; 0; 0].

(** The chunk boundaries of a buffer with their sizes: each chunk runs to
    the next boundary, the last one to the end of the buffer. *)
Fixpoint spans_of (d : bytes) (cps : list (N * bytes)) : list (N * bytes * N) :=
  match cps with
  | [] => []
  | (cpos, cmagic) :: rest => (cpos, cmagic, chunk_size d cpos rest) :: spans_of d rest
  end.

Definition chunk_spans (d : bytes) : list (N * bytes * N) :=
  if len d <? 12 then []
  else match _find_chunk_boundaries d with
       | Ok cps => spans_of d cps
       | _ => []
       end.

(** The raw byte slice of a boundary. *)
Definition raw_slice (d : bytes) (span : N * bytes * N) : bytes :=
  let '(cpos, _, csize) := span in slice d cpos (cpos + csize).

(** The tentative structured decode of a boundary, when there is one. *)
Definition tentative (d : bytes) (span : N * bytes * N) : option chunk :=
  let '(cpos, cmagic, csize) := span in
  if bytes_eqb cmagic MHIT then
    match mhit_from_bytes d cpos csize with
    | Ok e => Some (C_MHIT e)
    | _ => None
    end
  else if bytes_eqb cmagic MCOL then
    match mcol_from_bytes d cpos csize with
    | Ok (Some e) => Some (C_MCOL e)
    | _ => None
    end
  else None.

(** What the loader keeps for a boundary: a structured chunk that encodes
    to the raw slice, or the raw slice itself under the tag of the
    boundary. *)
Definition verified_or_raw (d : bytes) (span : N * bytes * N) (c : chunk) : Prop :=
  (structured c = true /\ tentative d span = Some c /\
   chunk_to_bytes c = Ok (raw_slice d span)) \/
  (c = C_Raw (snd (fst span)) (raw_slice d span) /\
   forall t, tentative d span = Some t -> chunk_to_bytes t <> Ok (raw_slice d span)).

(** The declared layout of the phases of a collision chunk: a phase that
    starts at [cursor] declares [num_segs] segments in the word at
    [cursor + 4] and occupies [8 + 21 * num_segs] bytes, segment [k] holding
    sixteen bytes of coordinates and then its five-byte separator.
    [bad_separator_in d n cursor]: among the [n] phases laid out from
    [cursor], some segment has a separator that is not five zero bytes. *)
Definition separator_of (d : bytes) (cursor k : N) : bytes :=
  slice d (cursor + 8 + 21 * k + 16) (cursor + 8 + 21 * k + 21).

Fixpoint bad_separator_in (d : bytes) (n : nat) (cursor : N) : Prop :=
  match n with
  | O => False
  | S n' =>
      let num_segs := u32_at_meta d (cursor + 4) in
      (exists k, k < num_segs /\ separator_of d cursor k <> zeros5) \/
      bad_separator_in d n' (cursor + 8 + 21 * num_segs)
  end.

(** The collision chunk at [cpos] has a bad separator; its phase count is
    the word at [cpos + 24] and its first phase starts at [cpos + 28]. *)
Definition has_bad_separator (d : bytes) (cpos : N) : Prop :=
  bad_separator_in d (N.to_nat (u32_at_meta d (cpos + 24))) (cpos + 28).

(** A container whose only chunk is a collision chunk of one phase with one
    segment, the separator of which holds a 1. *)
Definition bad_separator_file : bytes :=
  map byte_of [1; 0; 0; 0;  0; 0; 0; 0;  1; 0; 0; 0] ++ MCOL ++
  map byte_of [0; 0; 0; 0;  0; 0; 0; 0;  0; 0; 0; 0;  0; 0; 0; 0;
               0; 0; 0; 0;  1; 0; 0; 0;
               0; 0; 0; 0;  1; 0; 0; 0;
               0; 0; 0; 0;  0; 0; 0; 0;  0; 0; 32; 65;  0; 0; 0; 0;
               0; 0; 1; 0; 0;
               0; 0; 0; 0].

(** ** Round trip of the event-metadata container *)



(** Boundaries in ascending order from [lo], each tag inside the buffer. *)
Fixpoint ascending (d : bytes) (lo : N) (cps : list (N * bytes)) : Prop :=
  match cps with
  | [] => True
  | (p, _) :: rest => lo <= p /\ p + 4 <= len d /\ ascending d (p + 4) rest
  end.



(** ** Sizes *)

(** A chunk whose hit phases hold as many floats as their point count
    says. *)
Definition sized (c : chunk) : Prop :=
  match c with
  | C_MHIT e => Forall (fun ph => len (phase_get_floats ph) = num_floats ph) (mhit_phases e)
  | _ => True
  end.

(** A collision chunk whose phases hold between 1 and 200 segments each. *)
Definition segments_in_range (c : chunk) : Prop :=
  match c with
  | C_MCOL e => Forall (fun ph => 1 <= len (segments ph) <= 200) (mcol_phases e)
  | _ => True
  end.


(** ** Interchange *)

(** A chunk with the animation hash of a hit chunk replaced. *)
Definition rehash (ah : N) (c : chunk) : chunk :=
  match c with
  | C_MHIT e =>
      C_MHIT (mkMHIT ah (mhit_event_hash e) (mhit_start_time e) (mhit_end_time e)
                (mhit_element_id e) (mhit_phases e) (mhit_ref_hashes e)
                (mhit_footer_extra e))
  | _ => c
  end.

(** A raw chunk that starts with its own tag, the tag being ASCII. *)
Definition well_tagged (c : chunk) : Prop :=
  match c with
  | C_Raw magic raw => slice raw 0 4 = magic /\ Forall (fun b => Byte.to_N b < 128) magic
  | _ => True
  end.


(** ** Editing *)

(** A chunk none of whose hit phases holds an empty list of raw floats. *)
Definition no_empty_raw (c : chunk) : Prop :=
  match c with
  | C_MHIT e => Forall (fun ph => _raw_floats ph <> Some []) (mhit_phases e)
  | _ => True
  end.


End CanimMetaSpec.

(* ================================================================== *)
(** * Theorems *)
(* ================================================================== *)

(** Case analysis on the boolean comparisons of [N] met in a goal or a
    hypothesis. *)
Ltac ncases :=
  repeat match goal with
  | |- context [N.ltb ?a ?b] => destruct (N.ltb_spec a b)
  | |- context [N.leb ?a ?b] => destruct (N.leb_spec a b)
  | |- context [N.eqb ?a ?b] => destruct (N.eqb_spec a b)
  | H : context [N.ltb ?a ?b] |- _ => destruct (N.ltb_spec a b)
  | H : context [N.leb ?a ?b] |- _ => destruct (N.leb_spec a b)
  | H : context [N.eqb ?a ?b] |- _ => destruct (N.eqb_spec a b)
  end.

Module PyFacts.

Lemma len_app {A} (a b : list A) : len (a ++ b) = len a + len b.
Proof. unfold len. rewrite length_app. lia. Qed.

Lemma len_nil {A} : len (@nil A) = 0.
Proof. reflexivity. Qed.

Lemma len_cons {A} (x : A) l : len (x :: l) = 1 + len l.
Proof. unfold len. simpl length. lia. Qed.

Lemma len_map {A B} (f : A -> B) l : len (map f l) = len l.
Proof. unfold len. now rewrite length_map. Qed.

Lemma slice_len {A} (d : list A) a b :
  a <= b -> b <= len d -> len (slice d a b) = b - a.
Proof.
  unfold len, slice. intros. rewrite length_firstn, length_skipn. lia.
Qed.

Lemma slice_join {A} (d : list A) a b c :
  a <= b -> b <= c -> slice d a b ++ slice d b c = slice d a c.
Proof.
  unfold slice. intros Hab Hbc.
  replace (N.to_nat (c - a)) with (N.to_nat (b - a) + N.to_nat (c - b))%nat by lia.
  replace (N.to_nat b) with (N.to_nat (b - a) + N.to_nat a)%nat by lia.
  rewrite <- skipn_skipn.
  generalize (skipn (N.to_nat a) d) as l. generalize (N.to_nat (b - a)) as n.
  generalize (N.to_nat (c - b)) as m. clear.
  intros m n l. revert l. induction n as [|n IH]; intros l; simpl.
  - reflexivity.
  - destruct l as [|x l]; simpl.
    + now rewrite firstn_nil.
    + now rewrite IH.
Qed.


Lemma slice_all {A} (d : list A) : slice d 0 (len d) = d.
Proof. unfold slice, len. simpl. apply firstn_all2. lia. Qed.

Lemma slice_empty {A} (d : list A) a b : b <= a -> slice d a b = [].
Proof. unfold slice. intros. replace (N.to_nat (b - a)) with 0%nat by lia. reflexivity. Qed.

Lemma slice_from_beyond {A} (d : list A) a : len d <= a -> slice_from d a = [].
Proof. unfold slice_from, len. intros. apply skipn_all2. lia. Qed.


(** Slices of a concatenation. *)
Lemma slice_app_l {A} (x y : list A) a b :
  b <= len x -> slice (x ++ y) a b = slice x a b.
Proof.
  unfold slice, len. intros. rewrite skipn_app, firstn_app, length_skipn.
  replace (N.to_nat (b - a) - (length x - N.to_nat a))%nat with 0%nat by lia.
  simpl. now rewrite app_nil_r.
Qed.

Lemma slice_app_r {A} (x y : list A) a b :
  len x <= a -> slice (x ++ y) a b = slice y (a - len x) (b - len x).
Proof.
  unfold slice, len. intros. rewrite skipn_app.
  rewrite (skipn_all2 x) by lia. simpl.
  f_equal; [lia | f_equal; lia].
Qed.

Lemma byte_of_to_N b : byte_of (Byte.to_N b) = b.
Proof.
  unfold byte_of. pose proof (Byte.to_N_bounded b).
  rewrite N.mod_small by lia. now rewrite Byte.of_to_N.
Qed.

Lemma to_N_byte_of n : Byte.to_N (byte_of n) = n mod 256.
Proof.
  unfold byte_of. destruct (Byte.of_N (n mod 256)) eqn:E.
  - now apply Byte.to_of_N.
  - apply Byte.of_N_None_iff in E. pose proof (N.mod_upper_bound n 256). lia.
Qed.

Lemma le_bytes_le_N bs : le_bytes (length bs) (le_N bs) = bs.
Proof.
  induction bs as [|b t IH]; [reflexivity|].
  cbn [le_bytes le_N length].
  pose proof (Byte.to_N_bounded b).
  replace (Byte.to_N b + 256 * le_N t) with (Byte.to_N b + le_N t * 256) by lia.
  rewrite N.Div0.mod_add, N.div_add by lia.
  rewrite (N.mod_small (Byte.to_N b) 256) by lia.
  rewrite (N.div_small (Byte.to_N b) 256) by lia.
  rewrite N.add_0_l, IH. f_equal. apply byte_of_to_N.
Qed.

Lemma le_N_bound bs : le_N bs < 256 ^ len bs.
Proof.
  induction bs as [|b t IH].
  - simpl. cbn. lia.
  - rewrite len_cons. cbn [le_N]. pose proof (Byte.to_N_bounded b).
    rewrite N.pow_add_r. change (256 ^ 1) with 256.
    generalize dependent (256 ^ len t). intros X HX. lia.
Qed.

Lemma length_le_bytes k v : length (le_bytes k v) = k.
Proof. revert v. induction k; intros; simpl; auto. Qed.

Lemma le_N_le_bytes k v : le_N (le_bytes k v) = v mod 256 ^ N.of_nat k.
Proof.
  revert v. induction k as [|k IH]; intros v.
  - simpl. now rewrite N.mod_1_r.
  - cbn [le_bytes le_N]. rewrite to_N_byte_of, IH, N.Div0.mod_mod.
    replace (N.of_nat (S k)) with (1 + N.of_nat k) by lia.
    rewrite N.pow_add_r. change (256 ^ 1) with 256.
    rewrite N.Div0.mod_mul_r. lia.
Qed.

Lemma len_decode_ascii_replace bs : len (decode_ascii_replace bs) = len bs.
Proof. apply len_map. Qed.

(** ** Hexadecimal text *)

Lemma fromhex_hex_of_byte b s :
  fromhex (hex_of_byte b ++ s) = bind (fromhex s) (fun r => Ok (b :: r)).
Proof. destruct b; reflexivity. Qed.

Lemma fromhex_hex bs : fromhex (hex bs) = Ok bs.
Proof.
  induction bs as [|b t IH]; [reflexivity|].
  cbn [hex]. rewrite fromhex_hex_of_byte, IH. reflexivity.
Qed.

Lemma nonempty_hex bs : nonempty (hex bs) = match bs with [] => false | _ => true end.
Proof. destruct bs; reflexivity. Qed.

(** ** Packing what was unpacked *)

Lemma pack_I_le_N bs : length bs = 4%nat -> pack_I (le_N bs) = Ok bs.
Proof.
  intros Hl. unfold pack_I. pose proof (le_N_bound bs) as Hb.
  unfold len in Hb. rewrite Hl in Hb. change (256 ^ N.of_nat 4) with 4294967296 in Hb.
  destruct (N.ltb_spec (le_N bs) 4294967296); [|lia].
  rewrite <- Hl. now rewrite le_bytes_le_N.
Qed.

Lemma pack_H_le_N bs : length bs = 2%nat -> pack_H (le_N bs) = Ok bs.
Proof.
  intros Hl. unfold pack_H. pose proof (le_N_bound bs) as Hb.
  unfold len in Hb. rewrite Hl in Hb. change (256 ^ N.of_nat 2) with 65536 in Hb.
  destruct (N.ltb_spec (le_N bs) 65536); [|lia].
  rewrite <- Hl. now rewrite le_bytes_le_N.
Qed.

Lemma length_slice {A} (d : list A) a b :
  a <= b -> b <= len d -> length (slice d a b) = N.to_nat (b - a).
Proof. intros. pose proof (slice_len d a b H H0) as E. unfold len in E. lia. Qed.

(** One byte of a buffer, as a slice. *)
Lemma slice_one d p : p < len d -> slice d p (p + 1) = [nth (N.to_nat p) d x00].
Proof.
  unfold slice, len. intros H.
  replace (N.to_nat (p + 1 - p)) with 1%nat by lia.
  assert (Hn : (N.to_nat p < length d)%nat) by lia. clear H.
  generalize dependent (N.to_nat p). clear p. intros n. revert d.
  induction n as [|n IH]; intros [|x d] H; cbn in *; try lia; try reflexivity.
  apply IH. lia.
Qed.

Lemma Ok_inj {A} (a b : A) : Ok a = Ok b -> a = b.
Proof. congruence. Qed.

Lemma len_le_bytes k v : len (le_bytes k v) = N.of_nat k.
Proof. unfold len. now rewrite length_le_bytes. Qed.

End PyFacts.


Import PyFacts.

Module CanimFacts.
Import Canim CanimSpec.

(** ** Readers *)

Lemma r32_ok d p : p + 4 <= len d -> r32 d p = Ok (u32_at d p, p + 4).
Proof.
  intros H. unfold r32, unpack_from_I, u32_at.
  destruct (N.ltb_spec (len d) (p + 4)); [lia|].
  destruct (N.leb_spec (p + 4) (len d)); [|lia]. reflexivity.
Qed.

Lemma r32_fail d p : len d < p + 4 -> r32 d p = Raise ValueError.
Proof.
  intros H. unfold r32. destruct (N.ltb_spec (len d) (p + 4)); [reflexivity|lia].
Qed.

Lemma rstr_ok d p :
  ~ rstr_fails d p ->
  rstr d p = Ok (decode_ascii_replace (slice d (p + 4) (p + 4 + u32_at d p)),
                 p + 4 + u32_at d p).
Proof.
  unfold rstr_fails. intros H. unfold rstr. rewrite r32_ok by lia. simpl.
  destruct (N.ltb_spec 500 (u32_at d p)); [lia|].
  destruct (N.ltb_spec (len d) (p + 4 + u32_at d p)); [lia|]. reflexivity.
Qed.

Lemma rstr_raise d p : rstr_fails d p -> rstr d p = Raise ValueError.
Proof.
  unfold rstr_fails. intros H. unfold rstr.
  destruct (N.lt_ge_cases (len d) (p + 4)) as [Hs|Hs].
  - now rewrite r32_fail.
  - rewrite r32_ok by lia. simpl.
    destruct (N.ltb_spec 500 (u32_at d p)); [reflexivity|].
    destruct (N.ltb_spec (len d) (p + 4 + u32_at d p)); [reflexivity|lia].
Qed.

(** C8 — string reader failure semantics.  [rstr d p] raises (a
    [ValueError]) exactly when fewer than four bytes remain at [p], or the
    declared length exceeds 500, or the declared length runs past the end of
    the buffer; in every other case it returns the decoded text together
    with the offset [p + 4 + length].  Decoding never fails: the text has one
    code point per byte, the byte itself when it is ASCII and the
    replacement character U+FFFD otherwise. *)
Theorem rstr_failure_semantics (d : bytes) (p : N) :
  let l := u32_at d p in
  let body := slice d (p + 4) (p + 4 + l) in
  ((exists e, rstr d p = Raise e) <-> rstr_fails d p) /\
  (rstr d p = Raise ValueError \/
   (rstr d p = Ok (decode_ascii_replace body, p + 4 + l) /\
    len body = l /\
    len (decode_ascii_replace body) = l /\
    Forall2 (fun b c => c = if Byte.to_N b <? 128 then Byte.to_N b else 65533)
      body (decode_ascii_replace body))).
Proof.
  intros l body.
  assert (Hdec : forall bs, Forall2
            (fun b c => c = if Byte.to_N b <? 128 then Byte.to_N b else 65533)
            bs (decode_ascii_replace bs)).
  { induction bs; simpl; constructor; auto. }
  destruct (N.lt_ge_cases (len d) (p + 4)) as [H1|H1];
    [|destruct (N.lt_ge_cases 500 l) as [H2|H2];
      [|destruct (N.lt_ge_cases (len d) (p + 4 + l)) as [H3|H3]]].
  1-3: (assert (F : rstr_fails d p) by (unfold rstr_fails; fold l; lia);
        split; [split; [intros _; exact F | intros _; eexists; now apply rstr_raise]
               | left; now apply rstr_raise]).
  assert (F : ~ rstr_fails d p) by (unfold rstr_fails; fold l; lia).
  pose proof (rstr_ok d p F) as E. fold l in E. fold body in E.
  split.
  - split; [intros [e He]; congruence | intros; contradiction].
  - right. split; [exact E|].
    assert (len body = l) by (unfold body; rewrite slice_len; lia).
    repeat split; auto.
    now rewrite len_decode_ascii_replace.
Qed.

(** ** Validation predicates *)

Lemma printable_iff b : printable b = true <-> 32 <= Byte.to_N b < 127.
Proof. unfold printable. rewrite andb_true_iff, N.leb_le, N.ltb_lt. tauto. Qed.

Lemma valid_str_iff d p :
  valid_str d p = true <->
  valid_string_at d p (u32_at d p) (slice d (p + 4) (p + 4 + u32_at d p)).
Proof.
  unfold valid_str, valid_string_at. rewrite Forall_forall.
  destruct (N.ltb_spec (len d) (p + 4)).
  { split; [discriminate | intros (? & _); lia]. }
  destruct (N.eqb_spec (u32_at d p) 0); cbn [orb].
  { split; [discriminate | intros (_ & _ & ? & _); lia]. }
  destruct (N.ltb_spec 300 (u32_at d p)); cbn [orb].
  { split; [discriminate | intros (_ & _ & ? & _); lia]. }
  destruct (N.ltb_spec (len d) (p + 4 + u32_at d p)); cbn [orb].
  { split; [discriminate | intros (_ & _ & _ & ? & _); lia]. }
  rewrite forallb_forall. split.
  - intros Hp. repeat split; try lia. all: apply printable_iff, Hp; assumption.
  - intros (_ & _ & _ & _ & _ & Hp) b Hb. apply printable_iff, Hp, Hb.
Qed.

Lemma decode_printable bs :
  Forall (fun b => 32 <= Byte.to_N b < 127) bs ->
  decode_ascii_replace bs = map Byte.to_N bs.
Proof.
  induction 1 as [|b t Hb _ IH]; [reflexivity|].
  cbn [decode_ascii_replace map]. fold (decode_ascii_replace t). rewrite IH.
  destruct (N.ltb_spec (Byte.to_N b) 128); [reflexivity|lia].
Qed.

(** After [valid_str] the string reader cannot fail. *)
Lemma rstr_valid d p :
  valid_str d p = true ->
  rstr d p = Ok (map Byte.to_N (slice d (p + 4) (p + 4 + u32_at d p)),
                 p + 4 + u32_at d p).
Proof.
  intros Hv. apply valid_str_iff in Hv. destruct Hv as (H1 & _ & H2 & H3 & _ & H4).
  rewrite rstr_ok by (unfold rstr_fails; lia). now rewrite decode_printable.
Qed.

Lemma contains_char_In c s : contains_char c s = true <-> In c s.
Proof.
  unfold contains_char. rewrite existsb_exists. split.
  - intros (x & Hx & E). apply N.eqb_eq in E. now subst.
  - intros H. exists c. split; [assumption | apply N.eqb_refl].
Qed.

Lemma known_rate_In r : known_rate r = true <-> In r KNOWN_RATES.
Proof. apply (contains_char_In r KNOWN_RATES). Qed.

Lemma index_ok d p : p < len d -> index d p = Ok (u8_at d p).
Proof. intros. unfold index. destruct (N.ltb_spec p (len d)); [reflexivity|lia]. Qed.

Lemma unpack_H_ok d p : p + 2 <= len d -> unpack_from_H d p = Ok (u16_at d p).
Proof.
  intros. unfold unpack_from_H, u16_at.
  destruct (N.leb_spec (p + 2) (len d)); [reflexivity|lia].
Qed.

Lemma unpack_I_ok d p : p + 4 <= len d -> unpack_from_I d p = Ok (u32_at d p).
Proof.
  intros. unfold unpack_from_I, u32_at.
  destruct (N.leb_spec (p + 4) (len d)); [reflexivity|lia].
Qed.

(** What [is_symbol_header] computes once the string is known to be valid
    and the three bytes after it are in the buffer. *)
Lemma is_symbol_header_inside d pos fs :
  valid_str d pos = true ->
  let p := pos + 4 + u32_at d pos in
  p + 3 <= len d ->
  is_symbol_header d pos fs =
  Ok ((p + 3 <=? fs) && known_rate (u8_at d p) && (u16_at d (p + 1) <=? 5000)
      && negb (contains_char 47 (map Byte.to_N (slice d (pos + 4) p)))).
Proof.
  intros Hv p Hp. unfold is_symbol_header. rewrite Hv, (rstr_valid _ _ Hv).
  cbn [negb bind]. fold p.
  destruct (N.ltb_spec fs (p + 3)); destruct (N.leb_spec (p + 3) fs); try lia;
    [reflexivity|].
  rewrite index_ok by lia. cbn [bind].
  replace (p + 1 + 2) with (p + 3) in * by lia.
  rewrite unpack_H_ok by lia. cbn [bind try_except].
  destruct (known_rate (u8_at d p)); cbn [negb andb]; [|reflexivity].
  destruct (N.ltb_spec 5000 (u16_at d (p + 1)));
    destruct (N.leb_spec (u16_at d (p + 1)) 5000); try lia; cbn [andb];
    [reflexivity|].
  now destruct (contains_char 47 _).
Qed.

(** C4 — symbol-header predicate.  For every buffer [d], position [pos]
    and limit [fs], [is_symbol_header d pos fs] returns [True] if and only
    if the bytes at [pos] form a valid length-prefixed printable-ASCII string
    (length between 1 and the ceiling 300 of [valid_str], inside the buffer),
    followed in bounds by a rate byte of [KNOWN_RATES] and a 16-bit count of
    at most 5000, and the string holds no ['/']. *)
Theorem is_symbol_header_iff (d : bytes) (pos fs : N) :
  is_symbol_header d pos fs = Ok true <-> symbol_header_at d pos fs.
Proof.
  split.
  - intros H.
    destruct (valid_str d pos) eqn:Hv.
    2:{ unfold is_symbol_header in H. rewrite Hv in H. discriminate. }
    pose proof (proj1 (valid_str_iff d pos) Hv) as Hs.
    set (l := u32_at d pos) in *.
    destruct (N.le_gt_cases (pos + 4 + l + 3) (len d)) as [Hin|Hout].
    + rewrite (is_symbol_header_inside d pos fs Hv Hin) in H. fold l in H.
      injection H as H. repeat (apply andb_true_iff in H; destruct H as [H ?]).
      exists l, (slice d (pos + 4) (pos + 4 + l)), (u8_at d (pos + 4 + l)),
        (u16_at d (pos + 4 + l + 1)).
      repeat split; try apply Hs; try assumption.
      * now apply N.leb_le.
      * now apply known_rate_In.
      * now apply N.leb_le.
      * intros Hc. apply contains_char_In in Hc.
        match goal with H : negb _ = true |- _ => rewrite Hc in H; discriminate end.
    + exfalso. unfold is_symbol_header in H.
      rewrite Hv, (rstr_valid _ _ Hv) in H. cbn [negb bind] in H. fold l in H.
      destruct (N.ltb_spec fs (pos + 4 + l + 3)); [discriminate|].
      unfold index in H.
      destruct (N.ltb_spec (pos + 4 + l) (len d)); [|discriminate].
      cbn [bind] in H. unfold unpack_from_H in H.
      destruct (N.leb_spec (pos + 4 + l + 1 + 2) (len d)); [lia|discriminate].
  - intros (l & name & rate & count & Hs & Hfs & Hlen & -> & Hr & -> & Hc & Hn).
    assert (Hl : u32_at d pos = l) by apply Hs.
    assert (Hname : name = slice d (pos + 4) (pos + 4 + l)) by apply Hs.
    subst name. rewrite <- Hl in *.
    assert (Hv : valid_str d pos = true) by now apply valid_str_iff.
    rewrite (is_symbol_header_inside d pos fs Hv) by lia.
    f_equal. repeat (apply andb_true_iff; split).
    + now apply N.leb_le.
    + now apply known_rate_In.
    + now apply N.leb_le.
    + apply negb_true_iff. apply not_true_is_false. intros Hx.
      now apply contains_char_In in Hx.
Qed.

(** ** Sprites *)

Lemma bind_Ok {A B} (r : res A) (k : A -> res B) v :
  bind r k = Ok v -> exists a, r = Ok a /\ k a = Ok v.
Proof. destruct r; cbn; intros H; try discriminate. eauto. Qed.

Lemma try_except_Some {A} h (r : res (option A)) x :
  try_except h r (Ok None) = Ok (Some x) -> r = Ok (Some x).
Proof.
  destruct r as [a|e|]; cbn; intros H; try assumption.
  destruct (h e); discriminate.
Qed.

Lemma r16_Ok d p v p' : r16 d p = Ok (v, p') -> v = u16_at d p /\ p' = p + 2 /\ p + 2 <= len d.
Proof.
  unfold r16. destruct (N.ltb_spec (len d) (p + 2)); [discriminate|].
  rewrite unpack_H_ok by lia. cbn. intros H0; injection H0 as <- <-. auto.
Qed.

Lemma rf_Ok d p v p' : rf d p = Ok (v, p') -> v = u32_at d p /\ p' = p + 4 /\ p + 4 <= len d.
Proof.
  unfold rf, unpack_from_f. destruct (N.ltb_spec (len d) (p + 4)); [discriminate|].
  rewrite unpack_I_ok by lia. cbn. intros H0; injection H0 as <- <-. auto.
Qed.

Lemma r8_Ok d p v p' : r8 d p = Ok (v, p') -> v = u8_at d p /\ p' = p + 1 /\ p + 1 <= len d.
Proof.
  unfold r8. destruct (N.ltb_spec (len d) (p + 1)); [discriminate|].
  intros H0; injection H0 as <- <-. auto.
Qed.

Lemma finite_not_special v : f32_finite v <-> f32_isnan v = false /\ f32_isinf v = false.
Proof.
  unfold f32_finite, f32_isnan, f32_isinf.
  destruct (N.eqb_spec (f32_exp v) 255) as [E|E]; cbn [andb].
  - destruct (f32_frac v =? 0); cbn; split; intros; try tauto;
      destruct H; discriminate.
  - tauto.
Qed.

Lemma is_float_reasonable_between v :
  is_float_reasonable v = true -> f32_between (-10000) 10000 v.
Proof.
  unfold is_float_reasonable, f32_between, f32_ge_int, f32_le_int.
  destruct (f32_isnan v) eqn:En; [discriminate|].
  destruct (f32_isinf v) eqn:Ei; [discriminate|]. cbn [orb].
  rewrite andb_true_iff, !Qle_bool_iff. intros [? ?].
  split; [apply finite_not_special; auto | auto].
Qed.

Lemma size_between v :
  f32_finite v -> f32_lt_int v 0 = false -> f32_gt_int v 5000 = false ->
  f32_between 0 5000 v.
Proof.
  intros Hf. pose proof (proj1 (finite_not_special v) Hf) as [En Ei].
  unfold f32_lt_int, f32_gt_int, f32_between. rewrite En, Ei.
  rewrite !negb_false_iff, !Qle_bool_iff. auto.
Qed.

(** The common tail of the two trial decodes: four floats, the range test
    and the size test. *)
Lemma floats_tail_valid sw sh spx spy :
  negb (is_float_reasonable sw && is_float_reasonable sh
        && is_float_reasonable spx && is_float_reasonable spy) = false ->
  f32_lt_int sw 0 || f32_lt_int sh 0 || f32_gt_int sw 5000 || f32_gt_int sh 5000 = false ->
  forall f u n e, sprite_floats_ok (mkSprite f u n sw sh spx spy e).
Proof.
  intros Hr Hs f u n e. apply negb_false_iff in Hr.
  repeat (apply andb_true_iff in Hr; destruct Hr as [Hr ?]).
  repeat (apply orb_false_iff in Hs; destruct Hs as [Hs ?]).
  unfold sprite_floats_ok; cbn.
  repeat split; try (apply is_float_reasonable_between; assumption);
    try (apply size_between; try assumption;
         apply (is_float_reasonable_between _); assumption).
Qed.

Lemma printable_name_of_valid d p :
  valid_str d p = true ->
  printable_name (map Byte.to_N (slice d (p + 4) (p + 4 + u32_at d p))).
Proof.
  intros Hv. apply valid_str_iff in Hv. destruct Hv as (_ & _ & _ & _ & _ & Hp).
  unfold printable_name. rewrite Forall_map. exact Hp.
Qed.

Lemma bare_sprite_valid d pos fs sp p :
  try_parse_bare_sprite d pos fs = Ok (Some (sp, p)) ->
  sprite_valid sp /\ sp_name sp <> [] /\ sp_empty sp = false.
Proof.
  unfold try_parse_bare_sprite. intros H. apply try_except_Some in H.
  destruct (valid_str d pos) eqn:Hv; [|discriminate]. cbn [negb] in H.
  rewrite (rstr_valid _ _ Hv) in H. cbn [bind] in H.
  destruct (N.ltb_spec fs (pos + 4 + u32_at d pos + 16)); [discriminate|].
  apply bind_Ok in H. destruct H as ([sw p1] & _ & H).
  apply bind_Ok in H. destruct H as ([sh p2] & _ & H).
  apply bind_Ok in H. destruct H as ([spx p3] & _ & H).
  apply bind_Ok in H. destruct H as ([spy p4] & _ & H).
  destruct (negb _) eqn:Hr in H; [discriminate|].
  destruct (_ || _) eqn:Hs in H; [discriminate|].
  injection H as <- <-. split; [split|split].
  - apply printable_name_of_valid, Hv.
  - now apply floats_tail_valid.
  - cbn. apply valid_str_iff in Hv. destruct Hv as (_ & _ & Hl & Hb & _).
    intros E. apply (f_equal (@len N)) in E. rewrite len_map, slice_len in E by lia.
    cbn in E. lia.
  - reflexivity.
Qed.

Lemma sprite_valid_or_placeholder d pos fs sp p :
  try_parse_sprite d pos fs = Ok (Some (sp, p)) ->
  (sp_empty sp = true /\ sp_name sp = []) \/
  (sp_empty sp = false /\ sp_name sp <> [] /\ sprite_valid sp).
Proof.
  unfold try_parse_sprite. intros H. apply try_except_Some in H.
  destruct (N.ltb_spec fs (pos + 4)); [discriminate|].
  apply bind_Ok in H. destruct H as ([spf p1] & E1 & H).
  apply bind_Ok in H. destruct H as ([spu p2] & E2 & H).
  destruct (empty_str_at d p2) eqn:He.
  - left. destruct (N.ltb_spec fs (p2 + 4 + 16)); [discriminate|].
    apply bind_Ok in H. destruct H as ([sw q1] & _ & H).
    apply bind_Ok in H. destruct H as ([sh q2] & _ & H).
    apply bind_Ok in H. destruct H as ([spx q3] & _ & H).
    apply bind_Ok in H. destruct H as ([spy q4] & _ & H).
    injection H as <- <-. auto.
  - right. destruct (valid_str d p2) eqn:Hv; [|discriminate]. cbn [negb] in H.
    rewrite (rstr_valid _ _ Hv) in H. cbn [bind] in H.
    destruct (N.ltb_spec fs (p2 + 4 + u32_at d p2 + 16)); [discriminate|].
    apply bind_Ok in H. destruct H as ([sw q1] & _ & H).
    apply bind_Ok in H. destruct H as ([sh q2] & _ & H).
    apply bind_Ok in H. destruct H as ([spx q3] & _ & H).
    apply bind_Ok in H. destruct H as ([spy q4] & _ & H).
    destruct (negb _) eqn:Hr in H; [discriminate|].
    destruct (_ || _) eqn:Hs in H; [discriminate|].
    injection H as <- <-. split; [reflexivity|split; [|split]].
    + cbn. apply valid_str_iff in Hv. destruct Hv as (_ & _ & Hl & Hb & _).
      intros E. apply (f_equal (@len N)) in E. rewrite len_map, slice_len in E by lia.
      cbn in E. lia.
    + apply printable_name_of_valid, Hv.
    + now apply floats_tail_valid.
Qed.

(** The readers raise nothing but [ValueError], so the trial decodes
    always return. *)
Lemma benign_bind {A B} (r : res A) (k : A -> res B) :
  benign r -> (forall a, benign (k a)) -> benign (bind r k).
Proof. destruct r; cbn; auto. Qed.

Lemma benign_try {A} (r : res A) (h : A) :
  benign r -> exists a, try_except is_ValueError_or_IndexError r (Ok h) = Ok a.
Proof.
  destruct r as [a|e|]; cbn; intros H; [eauto | rewrite H; eauto | contradiction].
Qed.

Lemma benign_r8 d p : benign (r8 d p).
Proof. unfold r8. destruct (N.ltb_spec (len d) (p + 1)); cbn; auto. Qed.

Lemma benign_r16 d p : benign (r16 d p).
Proof.
  unfold r16. destruct (N.ltb_spec (len d) (p + 2)); cbn; auto.
  rewrite unpack_H_ok by lia. cbn. auto.
Qed.

Lemma benign_r32 d p : benign (r32 d p).
Proof.
  unfold r32. destruct (N.ltb_spec (len d) (p + 4)); cbn; auto.
  rewrite unpack_I_ok by lia. cbn. auto.
Qed.

Lemma benign_rf d p : benign (rf d p).
Proof.
  unfold rf, unpack_from_f. destruct (N.ltb_spec (len d) (p + 4)); cbn; auto.
  rewrite unpack_I_ok by lia. cbn. auto.
Qed.

Lemma benign_rstr d p : benign (rstr d p).
Proof.
  destruct (rstr_failure_semantics d p) as [_ [E|[E _]]]; rewrite E; cbn; auto.
Qed.

Ltac benign_tac :=
  repeat first
    [ progress cbn [benign]
    | exact I
    | reflexivity
    | apply benign_bind; [first [apply benign_r8 | apply benign_r16 | apply benign_r32
                                | apply benign_rf | apply benign_rstr] | intros [? ?]]
    | match goal with |- benign (if ?c then _ else _) => destruct c end
    | match goal with |- benign (let _ := _ in _) => cbv zeta end ].

Lemma try_parse_sprite_total d pos fs : exists o, try_parse_sprite d pos fs = Ok o.
Proof. unfold try_parse_sprite. apply benign_try. benign_tac. Qed.

Lemma try_parse_bare_sprite_total d pos fs :
  exists o, try_parse_bare_sprite d pos fs = Ok o.
Proof. unfold try_parse_bare_sprite. apply benign_try. benign_tac. Qed.

Lemma f32_6000_too_wide : f32_gt_int f32_6000 5000 = true.
Proof. vm_compute. reflexivity. Qed.

(** A record with a non-empty valid name whose width field is 6000.0 is
    never accepted. *)
Lemma named_6000_rejected d pos fs :
  valid_str d (pos + 4) = true ->
  u32_at d (pos + 4 + 4 + u32_at d (pos + 4)) = f32_6000 ->
  try_parse_sprite d pos fs = Ok None.
Proof.
  intros Hv Hw.
  destruct (try_parse_sprite d pos fs) as [[[sp p]|]|e|] eqn:E; try reflexivity.
  - exfalso. unfold try_parse_sprite in E. apply try_except_Some in E.
    destruct (N.ltb_spec fs (pos + 4)); [discriminate|].
    apply bind_Ok in E. destruct E as ([spf p1] & E1 & E).
    apply bind_Ok in E. destruct E as ([spu p2] & E2 & E).
    apply r16_Ok in E1. destruct E1 as (_ & -> & _).
    apply r16_Ok in E2. destruct E2 as (_ & -> & _).
    replace (pos + 2 + 2) with (pos + 4) in E by lia.
    assert (He : empty_str_at d (pos + 4) = false).
    { apply valid_str_iff in Hv. destruct Hv as (? & _ & ? & _).
      unfold empty_str_at. destruct (N.ltb_spec (len d) (pos + 4 + 4)); [reflexivity|].
      apply N.eqb_neq. lia. }
    rewrite He, Hv in E. cbn [negb] in E. rewrite (rstr_valid _ _ Hv) in E.
    cbn [bind] in E.
    destruct (N.ltb_spec fs (pos + 4 + 4 + u32_at d (pos + 4) + 16)); [discriminate|].
    apply bind_Ok in E. destruct E as ([sw q1] & F1 & E).
    apply rf_Ok in F1. destruct F1 as (-> & -> & _). rewrite Hw in E.
    apply bind_Ok in E. destruct E as ([sh q2] & _ & E).
    apply bind_Ok in E. destruct E as ([spx q3] & _ & E).
    apply bind_Ok in E. destruct E as ([spy q4] & _ & E).
    rewrite f32_6000_too_wide in E.
    destruct (negb _) in E; [discriminate|].
    rewrite orb_true_r in E. cbn in E. discriminate.
  - exfalso. destruct (try_parse_sprite_total d pos fs) as [o Ho]. congruence.
  - exfalso. destruct (try_parse_sprite_total d pos fs) as [o Ho]. congruence.
Qed.

Lemma placeholder_6000_accepted :
  try_parse_sprite placeholder_6000 0 24
  = Ok (Some (mkSprite 0 0 [] f32_6000 1092616192 0 0 true, 24)).
Proof. vm_compute. reflexivity. Qed.

Lemma f32_6000_value : (f32_value f32_6000 == 6000)%Q.
Proof. vm_compute. reflexivity. Qed.

(** C5, as stated, fails: the trial decode accepts a zero-length-name
    placeholder whose width is 6000.0, which the validation predicate of
    the specification excludes. *)
Lemma sprite_validation_counterexample :
  exists sp p,
    try_parse_sprite placeholder_6000 0 24 = Ok (Some (sp, p)) /\
    (f32_value (sp_width sp) == 6000)%Q /\
    ~ sprite_valid sp.
Proof.
  eexists; eexists. split; [apply placeholder_6000_accepted|]. split.
  - exact f32_6000_value.
  - intros (_ & _ & _ & _ & _ & (_ & _ & Hw) & _). cbn in Hw.
    apply Qle_bool_iff in Hw. vm_compute in Hw. discriminate.
Qed.

(** C5, amended — sprite validation.  Every sprite accepted by
    [try_parse_bare_sprite], and every sprite accepted by [try_parse_sprite]
    with a name that is not empty, has a printable-ASCII name and width,
    height and pivots that are finite and within +-10000, width and height
    moreover in [0, 5000]; [try_parse_sprite] also accepts the zero-length
    placeholder, which it marks [empty] and whose floats it does not test.
    In particular a record with a valid non-empty name and width 6000.0 is
    rejected, whatever its other bytes. *)
Theorem sprite_validation :
  (forall d pos fs sp p,
     try_parse_bare_sprite d pos fs = Ok (Some (sp, p)) ->
     sp_name sp <> [] /\ sp_empty sp = false /\ sprite_valid sp) /\
  (forall d pos fs sp p,
     try_parse_sprite d pos fs = Ok (Some (sp, p)) ->
     (sp_empty sp = true /\ sp_name sp = []) \/
     (sp_empty sp = false /\ sp_name sp <> [] /\ sprite_valid sp)) /\
  (forall d pos fs,
     valid_str d (pos + 4) = true ->
     u32_at d (pos + 4 + 4 + u32_at d (pos + 4)) = f32_6000 ->
     try_parse_sprite d pos fs = Ok None).
Proof.
  split; [|split].
  - intros d pos fs sp p H. apply bare_sprite_valid in H. tauto.
  - exact sprite_valid_or_placeholder.
  - exact named_6000_rejected.
Qed.

Lemma sprite_validation_witness :
  sprite_valid (mkSprite 0 0 [97] 1092616192 1092616192 0 0 false) /\
  try_parse_sprite named_sprite_6000 0 25 = Ok None.
Proof.
  destruct sprite_validation as (_ & Hs & Hr). split.
  - destruct (Hs named_sprite_10 0 25 _ 25 eq_refl) as [[E _]|(_ & _ & V)].
    + discriminate E.
    + exact V.
  - apply Hr; reflexivity.
Defined.

(** ** Termination of the decoder *)

Lemma halts_bind {A B} (r : res A) (k : A -> res B) :
  halts r -> (forall a, r = Ok a -> halts (k a)) -> halts (bind r k).
Proof. destruct r; cbn; auto. Qed.

Lemma halts_try {A} h (r : res A) (x : res A) :
  halts r -> halts x -> halts (try_except h r x).
Proof. destruct r as [a|e|]; cbn; auto. destruct (h e); auto. Qed.

Lemma benign_halts {A} (r : res A) : benign r -> halts r.
Proof. destruct r; cbn; auto. Qed.

Lemma halts_index d p : halts (index d p).
Proof. unfold index. destruct (p <? len d); exact I. Qed.

Lemma halts_unpack_H d p : halts (unpack_from_H d p).
Proof. unfold unpack_from_H. destruct (p + 2 <=? len d); exact I. Qed.

Lemma halts_r8 d p : halts (r8 d p).
Proof. apply benign_halts, benign_r8. Qed.

Lemma halts_r16 d p : halts (r16 d p).
Proof. apply benign_halts, benign_r16. Qed.

Lemma halts_r32 d p : halts (r32 d p).
Proof. apply benign_halts, benign_r32. Qed.

Lemma halts_rf d p : halts (rf d p).
Proof. apply benign_halts, benign_rf. Qed.

Lemma halts_rstr d p : halts (rstr d p).
Proof. apply benign_halts, benign_rstr. Qed.

Lemma halts_try_parse_sprite d pos fs : halts (try_parse_sprite d pos fs).
Proof. destruct (try_parse_sprite_total d pos fs) as [o ->]. exact I. Qed.

Lemma halts_try_parse_bare_sprite d pos fs : halts (try_parse_bare_sprite d pos fs).
Proof. destruct (try_parse_bare_sprite_total d pos fs) as [o ->]. exact I. Qed.

Create HintDb halts.
#[local] Hint Resolve halts_index halts_unpack_H halts_r8 halts_r16 halts_r32 halts_rf
  halts_rstr halts_try_parse_sprite halts_try_parse_bare_sprite : halts.

(** Walk through a computation: every bind, branch and handler halts when
    its parts do. *)
Ltac halts_tac :=
  repeat first
    [ exact I
    | solve [auto with halts]
    | apply halts_bind; [ | intros ? ?]
    | apply halts_try
    | match goal with
      | |- halts (if ?c then _ else _) => destruct c
      | |- halts (let '(_, _) := ?x in _) => destruct x
      | |- halts (match ?x with Some _ => _ | None => _ end) => destruct x
      | |- halts (let _ := _ in _) => cbv zeta
      end ].

Lemma halts_is_symbol_header d pos fs : halts (is_symbol_header d pos fs).
Proof. unfold is_symbol_header. halts_tac. Qed.
#[local] Hint Resolve halts_is_symbol_header : halts.

Lemma halts_find_next_symbol_loop d fs n scan : halts (find_next_symbol_loop d fs n scan).
Proof.
  revert scan. induction n as [|n IH]; intros scan; cbn [find_next_symbol_loop].
  - exact I.
  - apply halts_bind; [auto with halts|]. intros [|] _; [exact I | apply IH].
Qed.

Lemma halts_find_next_symbol d pos fs : halts (find_next_symbol d pos fs).
Proof. apply halts_find_next_symbol_loop. Qed.
#[local] Hint Resolve halts_find_next_symbol : halts.

(** The while loop of [find_next_symbol], unrolled once. *)
Lemma find_next_symbol_unroll d pos fs :
  find_next_symbol d pos fs =
  if pos + 7 <? fs then
    b <- is_symbol_header d pos fs ;;
    if b then Ok pos else find_next_symbol d (pos + 1) fs
  else Ok fs.
Proof.
  unfold find_next_symbol. destruct (N.ltb_spec (pos + 7) fs).
  - replace (N.to_nat (fs - 7 - pos)) with (S (N.to_nat (fs - 7 - (pos + 1)))) by lia.
    reflexivity.
  - replace (N.to_nat (fs - 7 - pos)) with 0%nat by lia. reflexivity.
Qed.

Lemma find_next_symbol_loop_range d fs n :
  forall scan r, find_next_symbol_loop d fs n scan = Ok r ->
                 r = fs \/ (scan <= r /\ r < scan + N.of_nat n).
Proof.
  induction n as [|n IH]; intros scan r H; cbn [find_next_symbol_loop] in H.
  - left. congruence.
  - apply bind_Ok in H. destruct H as ([|] & _ & H).
    + right. injection H as <-. lia.
    + apply IH in H. destruct H as [H|H]; [now left | right; lia].
Qed.

(** The position found lies between [pos] and [fs]. *)
Lemma find_next_symbol_range d pos fs r :
  find_next_symbol d pos fs = Ok r -> r <= fs /\ (pos <= fs -> pos <= r).
Proof.
  intros H. apply find_next_symbol_loop_range in H. lia.
Qed.

Lemma try_parse_sprite_advance d pos fs sp p :
  try_parse_sprite d pos fs = Ok (Some (sp, p)) -> pos + 24 <= p /\ p <= fs.
Proof.
  unfold try_parse_sprite. intros H. apply try_except_Some in H.
  destruct (N.ltb_spec fs (pos + 4)); [discriminate|].
  apply bind_Ok in H. destruct H as ([spf p1] & E1 & H).
  apply bind_Ok in H. destruct H as ([spu p2] & E2 & H).
  apply r16_Ok in E1. destruct E1 as (_ & -> & _).
  apply r16_Ok in E2. destruct E2 as (_ & -> & _).
  destruct (empty_str_at d (pos + 2 + 2)) eqn:He.
  - destruct (N.ltb_spec fs (pos + 2 + 2 + 4 + 16)); [discriminate|].
    apply bind_Ok in H. destruct H as ([sw q1] & F1 & H).
    apply bind_Ok in H. destruct H as ([sh q2] & F2 & H).
    apply bind_Ok in H. destruct H as ([spx q3] & F3 & H).
    apply bind_Ok in H. destruct H as ([spy q4] & F4 & H).
    apply rf_Ok in F1, F2, F3, F4.
    destruct F1 as (_ & -> & _), F2 as (_ & -> & _), F3 as (_ & -> & _), F4 as (_ & -> & _).
    injection H as _ <-. lia.
  - destruct (valid_str d (pos + 2 + 2)) eqn:Hv; [|discriminate]. cbn [negb] in H.
    rewrite (rstr_valid _ _ Hv) in H. cbn [bind] in H.
    destruct (N.ltb_spec fs (pos + 2 + 2 + 4 + u32_at d (pos + 2 + 2) + 16)); [discriminate|].
    apply bind_Ok in H. destruct H as ([sw q1] & F1 & H).
    apply bind_Ok in H. destruct H as ([sh q2] & F2 & H).
    apply bind_Ok in H. destruct H as ([spx q3] & F3 & H).
    apply bind_Ok in H. destruct H as ([spy q4] & F4 & H).
    apply rf_Ok in F1, F2, F3, F4.
    destruct F1 as (_ & -> & _), F2 as (_ & -> & _), F3 as (_ & -> & _), F4 as (_ & -> & _).
    destruct (negb _) in H; [discriminate|].
    destruct (_ || _) in H; [discriminate|].
    injection H as _ <-. lia.
Qed.

Lemma try_parse_bare_sprite_advance d pos fs sp p :
  try_parse_bare_sprite d pos fs = Ok (Some (sp, p)) -> pos + 21 <= p /\ p <= fs.
Proof.
  unfold try_parse_bare_sprite. intros H. apply try_except_Some in H.
  destruct (valid_str d pos) eqn:Hv; [|discriminate]. cbn [negb] in H.
  rewrite (rstr_valid _ _ Hv) in H. cbn [bind] in H.
  apply valid_str_iff in Hv. destruct Hv as (_ & _ & Hl & _).
  destruct (N.ltb_spec fs (pos + 4 + u32_at d pos + 16)); [discriminate|].
  apply bind_Ok in H. destruct H as ([sw q1] & F1 & H).
  apply bind_Ok in H. destruct H as ([sh q2] & F2 & H).
  apply bind_Ok in H. destruct H as ([spx q3] & F3 & H).
  apply bind_Ok in H. destruct H as ([spy q4] & F4 & H).
  apply rf_Ok in F1, F2, F3, F4.
  destruct F1 as (_ & -> & _), F2 as (_ & -> & _), F3 as (_ & -> & _), F4 as (_ & -> & _).
  destruct (negb _) in H; [discriminate|].
  destruct (_ || _) in H; [discriminate|].
  injection H as _ <-. lia.
Qed.

(** *** parse_nested_symbol *)

Lemma halts_nested_probe d fs count pos subs : halts (nested_probe d fs count pos subs).
Proof. unfold nested_probe. halts_tac. Qed.
#[local] Hint Resolve halts_nested_probe : halts.

Lemma halts_nested_step d fs count st : halts (nested_step d fs count st).
Proof. unfold nested_step. destruct st as [pos subs]. halts_tac. Qed.

(** A pass of the sub-name loop that continues has read a valid string: the
    cursor moves forward and stays inside the buffer.  A pass that breaks
    does not move the cursor backwards. *)
Lemma nested_step_progress d fs count pos subs c :
  nested_step d fs count (pos, subs) = Ok c ->
  match c with
  | Continue (pos', _) => pos < pos' <= len d
  | Break (pos', _) => pos <= pos'
  end.
Proof.
  unfold nested_step. intros H.
  destruct (valid_str d pos) eqn:Hv; cbn [negb] in H.
  2:{ injection H as <-. lia. }
  apply bind_Ok in H. destruct H as (h & _ & H).
  apply bind_Ok in H. destruct H as (brk & _ & H).
  destruct brk. { injection H as <-. lia. }
  rewrite (rstr_valid _ _ Hv) in H. cbn [bind try_except] in H.
  apply valid_str_iff in Hv. destruct Hv as (_ & _ & Hl & Hb & _).
  destruct (_ && _) in H; injection H as <-; lia.
Qed.

Lemma nested_loop_halts d fs count fuel :
  forall pos subs, (N.to_nat (len d - pos) < fuel)%nat ->
                   halts (nested_loop fuel d fs count (pos, subs)).
Proof.
  induction fuel as [|fuel IH]; intros pos subs Hf; [lia|].
  cbn [nested_loop]. apply halts_bind; [apply halts_nested_step|].
  intros c Hc. apply nested_step_progress in Hc.
  destruct c as [[p' s']|[p' s']]; [exact I|]. apply IH. lia.
Qed.

Lemma nested_loop_monotone d fs count fuel :
  forall pos subs pos' subs',
    nested_loop fuel d fs count (pos, subs) = Ok (pos', subs') -> pos <= pos'.
Proof.
  induction fuel as [|fuel IH]; intros pos subs pos' subs' H; [discriminate|].
  cbn [nested_loop] in H. apply bind_Ok in H. destruct H as (c & Hc & H).
  apply nested_step_progress in Hc. destruct c as [[p1 s1]|[p1 s1]].
  - injection H as <- <-. exact Hc.
  - apply IH in H. lia.
Qed.

Lemma halts_parse_nested_symbol d pos fs name rate count :
  halts (parse_nested_symbol d pos fs name rate count).
Proof.
  unfold parse_nested_symbol. apply halts_bind.
  - apply nested_loop_halts. lia.
  - intros [p subs] _. halts_tac.
Qed.
#[local] Hint Resolve halts_parse_nested_symbol : halts.

(** The cursor returned for a composite symbol is not beyond [fs] and not
    before the position the sub-names started at, when that position is not
    beyond [fs] either. *)
Lemma parse_nested_symbol_range d pos fs name rate count sym p :
  parse_nested_symbol d pos fs name rate count = Ok (sym, p) ->
  pos <= fs -> pos <= p <= fs.
Proof.
  unfold parse_nested_symbol. intros H Hle.
  apply bind_Ok in H. destruct H as ([p1 subs] & Hl & H).
  apply nested_loop_monotone in Hl.
  apply bind_Ok in H. destruct H as (ns & Hn & H). injection H as _ <-.
  apply find_next_symbol_loop_range in Hn. lia.
Qed.

(** *** parse_build_section *)

Lemma halts_read_sub_names d n : forall tp acc, halts (read_sub_names d n tp acc).
Proof.
  induction n as [|n IH]; intros tp acc; cbn [read_sub_names]; [exact I|].
  destruct (valid_str d tp); [|exact I].
  apply halts_bind; [auto with halts|]. intros [tn tp'] _. apply IH.
Qed.

Lemma halts_read_sprites d fs n : forall pos acc, halts (read_sprites d fs n pos acc).
Proof.
  induction n as [|n IH]; intros pos acc; cbn [read_sprites]; [exact I|].
  apply halts_bind; [auto with halts|]. intros [[sp p']|] _; [apply IH | exact I].
Qed.
#[local] Hint Resolve halts_read_sub_names halts_read_sprites : halts.

Lemma read_sprites_range d fs n :
  forall pos acc sprites pos' sok,
    read_sprites d fs n pos acc = Ok (sprites, pos', sok) ->
    pos <= pos' /\ (pos <= fs -> pos' <= fs).
Proof.
  induction n as [|n IH]; intros pos acc sprites pos' sok H; cbn [read_sprites] in H.
  - injection H as _ <- _. lia.
  - apply bind_Ok in H. destruct H as ([[sp p1]|] & Ht & H).
    + apply try_parse_sprite_advance in Ht. apply IH in H. lia.
    + injection H as _ <- _. lia.
Qed.

Lemma halts_zero_count_symbol d fs st entry_start pos sn sr :
  halts (zero_count_symbol d fs st entry_start pos sn sr).
Proof. unfold zero_count_symbol. halts_tac. Qed.

Lemma halts_build_step d fs st : halts (build_step d fs st).
Proof.
  unfold build_step.
  destruct (negb (valid_str d (b_pos st)) && negb (empty_str_at d (b_pos st))); [exact I|].
  apply halts_bind; [auto with halts|]. intros [|] _.
  - destruct (rstr d (b_pos st)) as [[sn p1]|e|] eqn:Er; cbn [bind].
    + destruct (r8 d p1) as [[sr p2]|e|] eqn:E8; cbn [bind].
      * destruct (r16 d p2) as [[snsp p3]|e|] eqn:E16; cbn [bind].
        -- destruct (snsp =? 0); [apply halts_zero_count_symbol|]. halts_tac.
        -- destruct (is_ValueError e); exact I.
        -- pose proof (halts_r16 d p2) as F. rewrite E16 in F. exact F.
      * destruct (is_ValueError e); exact I.
      * pose proof (halts_r8 d p1) as F. rewrite E8 in F. exact F.
    + destruct (is_ValueError e); exact I.
    + pose proof (halts_rstr d (b_pos st)) as F. rewrite Er in F. exact F.
  - destruct (rstr d (b_pos st)) as [[sn p1]|e|] eqn:Er.
    + halts_tac.
    + destruct (is_ValueError e); exact I.
    + pose proof (halts_rstr d (b_pos st)) as F. rewrite Er in F. exact F.
Qed.

(** The header of a symbol, read by [rstr], [r8] and [r16] after
    [is_symbol_header] accepted the position. *)
Lemma header_read d pos fs :
  is_symbol_header d pos fs = Ok true ->
  exists sn sr snsp,
    ('(sn, p) <- rstr d pos ;; '(sr, p) <- r8 d p ;; '(snsp, p) <- r16 d p ;;
     Ok (sn, sr, snsp, p))
    = Ok (sn, sr, snsp, pos + 4 + u32_at d pos + 3) /\
    1 <= u32_at d pos /\ pos + 4 + u32_at d pos + 3 <= fs.
Proof.
  intros H. apply is_symbol_header_iff in H.
  destruct H as (l & name & rate & count & Hs & Hfs & Hlen & _).
  assert (Hl : u32_at d pos = l) by apply Hs.
  assert (Hv : valid_str d pos = true).
  { apply valid_str_iff. rewrite Hl. destruct Hs as (? & ? & ? & ? & ? & ?).
    subst name. repeat split; auto; lia. }
  rewrite (rstr_valid _ _ Hv). cbn [bind]. rewrite Hl.
  unfold r8. destruct (N.ltb_spec (len d) (pos + 4 + l + 1)); [lia|]. cbn [bind].
  unfold r16. destruct (N.ltb_spec (len d) (pos + 4 + l + 1 + 2)); [lia|].
  rewrite unpack_H_ok by lia. cbn [bind].
  replace (pos + 4 + l + 1 + 2) with (pos + 4 + l + 3) by lia.
  do 3 eexists. split; [reflexivity|].
  destruct Hs as (_ & _ & ? & _). lia.
Qed.

Lemma advances_bind {A} pos fs (r : res A) k :
  (forall a, r = Ok a -> advances pos fs (k a)) -> advances pos fs (bind r k).
Proof. destruct r; cbn; auto. Qed.

Lemma zero_count_symbol_advances d fs st entry_start pos0 pos sn sr :
  pos0 < pos -> pos <= fs ->
  advances pos0 fs (zero_count_symbol d fs st entry_start pos sn sr).
Proof.
  intros H0 Hfs. unfold zero_count_symbol.
  apply advances_bind. intros ns Hn. apply find_next_symbol_range in Hn.
  destruct Hn as [Hn1 Hn2]. specialize (Hn2 Hfs).
  destruct (N.ltb_spec pos ns); [|cbn; lia].
  destruct (pos + 4 <=? fs); [|cbn; lia].
  apply advances_bind. intros pc _. apply advances_bind. intros pu _.
  destruct (_ && _); [|cbn; lia].
  apply advances_bind. intros sl _.
  destruct (len sl =? pc); cbn; lia.
Qed.

(** Every pass of the build loop that continues moves the cursor forward
    by at least one byte and leaves it at or before [fs]. *)
Lemma build_step_advances d fs st :
  b_pos st + 4 < fs -> advances (b_pos st) fs (build_step d fs st).
Proof.
  intros Hg. unfold build_step.
  destruct (negb (valid_str d (b_pos st)) && negb (empty_str_at d (b_pos st))); [exact I|].
  apply advances_bind. intros [|] Hh.
  - destruct (header_read d (b_pos st) fs Hh) as (sn & sr & snsp & -> & Hl & Hfs).
    set (ph := b_pos st + 4 + u32_at d (b_pos st) + 3) in *.
    destruct (snsp =? 0).
    { apply zero_count_symbol_advances; lia. }
    apply advances_bind. intros test _. destruct (is_some test).
    + apply advances_bind. intros [[sprites p'] sok] Hr.
      apply read_sprites_range in Hr. destruct sok; cbn; lia.
    + destruct (valid_str d ph).
      * apply advances_bind. intros [sym p'] Hn.
        apply parse_nested_symbol_range in Hn; [|lia]. cbn. lia.
      * apply advances_bind. intros ns Hn. apply find_next_symbol_range in Hn.
        cbn. lia.
  - destruct (rstr d (b_pos st)) as [[sn tpos]|e|]; cbn; auto.
    + apply advances_bind. intros ns Hn. apply find_next_symbol_range in Hn.
      cbn. lia.
    + destruct (is_ValueError e); exact I.
Qed.

Lemma build_loop_halts d fs fuel :
  forall st, (N.to_nat (fs - b_pos st) < fuel)%nat -> halts (build_loop fuel d fs st).
Proof.
  induction fuel as [|fuel IH]; intros st Hf; [lia|].
  cbn [build_loop]. destruct (N.ltb_spec (b_pos st + 4) fs); [|exact I].
  apply halts_bind; [apply halts_build_step|]. intros c Hc.
  pose proof (build_step_advances d fs st H) as Ha. rewrite Hc in Ha.
  destruct c as [st'|st']; [exact I|]. cbn in Ha. apply IH. lia.
Qed.

Lemma halts_parse_build_section d pos fs layers :
  halts (parse_build_section d pos fs layers).
Proof. apply build_loop_halts. cbn. lia. Qed.
#[local] Hint Resolve halts_parse_build_section : halts.

(** *** parse_canim *)

Lemma is_symbol_header_returns d pos fs :
  fs <= len d -> exists b, is_symbol_header d pos fs = Ok b.
Proof.
  intros Hfs. unfold is_symbol_header.
  destruct (valid_str d pos) eqn:Hv; cbn [negb]; [|eauto].
  rewrite (rstr_valid _ _ Hv). cbn [bind].
  destruct (N.ltb_spec fs (pos + 4 + u32_at d pos + 3)); [cbn; eauto|].
  rewrite index_ok by lia. cbn [bind].
  rewrite unpack_H_ok by lia. cbn [bind try_except].
  repeat match goal with |- context [if ?c then _ else _] => destruct c end;
    cbn [try_except]; eauto.
Qed.

Lemma find_next_symbol_returns d pos fs :
  fs <= len d -> exists r, find_next_symbol d pos fs = Ok r.
Proof.
  intros Hfs. unfold find_next_symbol. generalize (N.to_nat (fs - 7 - pos)) as n.
  intros n. revert pos. induction n as [|n IH]; intros pos; cbn [find_next_symbol_loop].
  - eauto.
  - destruct (is_symbol_header_returns d pos fs Hfs) as [[|] ->]; cbn [bind]; eauto.
Qed.

Lemma halts_decode_ascii bs : halts (decode_ascii bs).
Proof. unfold decode_ascii. destruct (forallb _ _); exact I. Qed.

Lemma halts_looks_like_section d pos fs layers : halts (looks_like_section d pos fs layers).
Proof. unfold looks_like_section. halts_tac. Qed.

Lemma halts_sprite_scan_loop d n : forall scan, halts (sprite_scan_loop d n scan).
Proof.
  induction n as [|n IH]; intros scan; cbn [sprite_scan_loop]; [exact I|].
  apply halts_bind.
  - halts_tac.
  - intros [|] _; [exact I | apply IH].
Qed.

Lemma halts_find_sprite_start d fs pos : halts (find_sprite_start d fs pos).
Proof. apply halts_sprite_scan_loop. Qed.

Lemma bare_sprites_loop_halts d fs fuel :
  forall pos acc, (N.to_nat (fs - pos) < fuel)%nat ->
                  halts (bare_sprites_loop fuel d fs pos acc).
Proof.
  induction fuel as [|fuel IH]; intros pos acc Hf; [lia|].
  cbn [bare_sprites_loop]. destruct (N.ltb_spec (pos + 4) fs); [|exact I].
  apply halts_bind; [auto with halts|]. intros [[sp p']|] Hr; [|exact I].
  apply try_parse_bare_sprite_advance in Hr. apply IH. lia.
Qed.

Lemma halts_read_layers d n : forall pos acc, halts (read_layers d n pos acc).
Proof.
  induction n as [|n IH]; intros pos acc; cbn [read_layers]; [exact I|].
  destruct (negb _); [exact I|].
  apply halts_bind; [auto with halts|]. intros [nm p'] _. apply IH.
Qed.

Lemma cur_halts_ret {A} (a : A) : cur_halts (cret a).
Proof. intros p. exact I. Qed.

Lemma cur_halts_rd {A} (f : N -> res (A * N)) :
  (forall p, halts (f p)) -> cur_halts (rd f).
Proof.
  intros H p. unfold rd. specialize (H p).
  destruct (f p) as [[a p']|e|]; cbn; auto.
Qed.

Lemma cur_halts_bind {A B} (m : cur A) (k : A -> cur B) :
  cur_halts m -> (forall a, cur_halts (k a)) -> cur_halts (cbind m k).
Proof.
  intros Hm Hk p. unfold cbind. specialize (Hm p).
  destruct (m p) as [[a|e|] p']; cbn in *; auto. apply Hk.
Qed.

Ltac cur_halts_tac :=
  repeat first
    [ apply cur_halts_ret
    | apply cur_halts_rd; intros; auto with halts
    | apply cur_halts_bind; [ | intros ? ] ].

Lemma halts_read_clips d n : forall pos acc, halts (read_clips d n pos acc).
Proof.
  induction n as [|n IH]; intros pos acc; cbn [read_clips]; [exact I|].
  destruct (negb _); [exact I|].
  match goal with |- halts (match ?m pos with _ => _ end) =>
    assert (Hm : cur_halts m) by cur_halts_tac;
    specialize (Hm pos); destruct (m pos) as [[c|e|] p'] end.
  - apply IH.
  - destruct (is_ValueError e); exact I.
  - exact Hm.
Qed.

Lemma cur_halts_read_element d layers : cur_halts (read_element d layers).
Proof.
  unfold read_element. cur_halts_tac. intros p. exact I.
Qed.

Lemma halts_read_elements d layers n : forall pos acc, halts (read_elements d layers n pos acc).
Proof.
  induction n as [|n IH]; intros pos acc; cbn [read_elements]; [exact I|].
  pose proof (cur_halts_read_element d layers pos) as Hm.
  destruct (read_element d layers pos) as [[e|e|] p'].
  - apply IH.
  - destruct (is_ValueError_or_IndexError e); exact I.
  - exact Hm.
Qed.
#[local] Hint Resolve halts_decode_ascii halts_looks_like_section halts_find_sprite_start
  halts_read_layers halts_read_clips halts_read_elements : halts.

Lemma halts_read_sections d fs layers n :
  forall pos acc tel, halts (read_sections d fs layers n pos acc tel).
Proof.
  induction n as [|n IH]; intros pos acc tel; cbn [read_sections]; [exact I|].
  apply halts_bind; [auto with halts|]. intros l _. destruct (negb l); [exact I|].
  match goal with |- halts (match ?m with _ => _ end) =>
    assert (Hm : halts m) by halts_tac; destruct m as [[[[[[fn_ su] sf] sfc] sec] p']|e|] end.
  - destruct (_ || _); [exact I|].
    apply halts_bind; [auto with halts|]. intros [[els p2] ok] _.
    destruct (negb ok); [exact I | apply IH].
  - destruct (is_ValueError e); exact I.
  - exact Hm.
Qed.
#[local] Hint Resolve halts_read_sections : halts.

Lemma halts_parse_canim d : halts (parse_canim d).
Proof.
  unfold parse_canim. destruct (len d <? 20); [exact I|].
  apply halts_bind; [auto with halts|]. intros magic _.
  apply halts_bind; [auto with halts|]. intros [version p1] _.
  apply halts_bind; [auto with halts|]. intros [hf1 p2] _.
  apply halts_bind; [auto with halts|]. intros [hf2 p3] _.
  apply halts_bind; [auto with halts|]. intros [anim_name p4] _.
  apply halts_bind; [auto with halts|]. intros [m_rate p5] _.
  apply halts_bind. { destruct (hf1 =? 0); auto with halts. exact I. }
  intros [sprite_start|] _.
  - apply halts_bind.
    + apply bare_sprites_loop_halts. lia.
    + intros [sprites p6] _. destruct (trail_hex_of d (len d) p6). exact I.
  - halts_tac. all: destruct (trail_hex_of _ _ _); exact I.
Qed.

(** C10 — decoder totality.  [find_next_symbol] never loops (it is the
    bounded scan its [while] spells out), returns whenever [fs] is inside the
    buffer, and what it returns lies between [pos] and [fs]; every pass of the
    build-entry loop halts, and a pass that continues leaves the cursor
    strictly after where it was and at most at [fs]; so the build-entry loop,
    the sub-name loop of [parse_nested_symbol] and the whole of [parse_canim]
    come to an end (with a result or an exception) on every buffer. *)
Theorem decoder_total :
  (forall d pos fs,
     find_next_symbol d pos fs =
       (if pos + 7 <? fs then
          b <- is_symbol_header d pos fs ;;
          if b then Ok pos else find_next_symbol d (pos + 1) fs
        else Ok fs) /\
     halts (find_next_symbol d pos fs) /\
     (fs <= len d -> exists r, find_next_symbol d pos fs = Ok r) /\
     (forall r, find_next_symbol d pos fs = Ok r -> pos <= fs -> pos <= r <= fs)) /\
  (forall d fs st,
     b_pos st + 4 < fs ->
     halts (build_step d fs st) /\
     (forall st', build_step d fs st = Ok (Continue st') ->
                  b_pos st + 1 <= b_pos st' <= fs)) /\
  (forall d pos fs name rate count, halts (parse_nested_symbol d pos fs name rate count)) /\
  (forall d pos fs layers, halts (parse_build_section d pos fs layers)) /\
  (forall d, halts (parse_canim d)).
Proof.
  repeat split.
  - apply find_next_symbol_unroll.
  - apply halts_find_next_symbol.
  - apply find_next_symbol_returns.
  - apply find_next_symbol_range in H. tauto.
  - apply find_next_symbol_range in H. tauto.
  - apply halts_build_step.
  - pose proof (build_step_advances d fs st H) as Ha. rewrite H0 in Ha. cbn in Ha. lia.
  - pose proof (build_step_advances d fs st H) as Ha. rewrite H0 in Ha. cbn in Ha. lia.
  - apply halts_parse_nested_symbol.
  - apply halts_parse_build_section.
  - apply halts_parse_canim.
Qed.

(** ** Writers reproduce what the readers consumed *)

Lemma w8_read d p v p' buf :
  r8 d p = Ok (v, p') -> w8 buf v = Ok (buf ++ slice d p p').
Proof.
  intros H. apply r8_Ok in H. destruct H as (-> & -> & Hb).
  unfold w8, u8_at. rewrite slice_one by lia.
  pose proof (Byte.to_N_bounded (nth (N.to_nat p) d x00)) as Hle.
  change 255 with (N.ones 8) at 1. rewrite N.land_ones. change (2 ^ 8) with 256.
  rewrite N.mod_small by lia. now rewrite byte_of_to_N.
Qed.

Lemma w16_read d p v p' buf :
  r16 d p = Ok (v, p') -> w16 buf v = Ok (buf ++ slice d p p').
Proof.
  intros H. apply r16_Ok in H. destruct H as (-> & -> & Hb).
  unfold w16, u16_at. rewrite pack_H_le_N; [reflexivity|].
  rewrite length_slice by lia. lia.
Qed.

Lemma r32_Ok d p v p' : r32 d p = Ok (v, p') -> v = u32_at d p /\ p' = p + 4 /\ p + 4 <= len d.
Proof.
  unfold r32. destruct (N.ltb_spec (len d) (p + 4)); [discriminate|].
  rewrite unpack_I_ok by lia. cbn. intros H0; injection H0 as <- <-. auto.
Qed.

Lemma w32_read d p v p' buf :
  r32 d p = Ok (v, p') -> w32 buf v = Ok (buf ++ slice d p p').
Proof.
  intros H. apply r32_Ok in H. destruct H as (-> & -> & Hb).
  unfold w32, u32_at. rewrite pack_I_le_N; [reflexivity|].
  rewrite length_slice by lia. lia.
Qed.

Lemma wf_read d p v p' buf :
  rf d p = Ok (v, p') -> wf buf v = Ok (buf ++ slice d p p').
Proof.
  intros H. apply rf_Ok in H. destruct H as (-> & -> & Hb).
  unfold wf, pack_f, u32_at. cbn [bind].
  replace 4%nat with (length (slice d p (p + 4))) at 1
    by (rewrite length_slice by lia; lia).
  now rewrite le_bytes_le_N.
Qed.

Lemma encode_decode_ascii bs :
  ascii_text (decode_ascii_replace bs) -> encode_ascii (decode_ascii_replace bs) = Ok bs.
Proof.
  intros H. unfold encode_ascii.
  assert (Hf : forallb (fun c => c <? 128) (decode_ascii_replace bs) = true).
  { apply forallb_forall. intros c Hc. apply N.ltb_lt.
    unfold ascii_text in H. rewrite Forall_forall in H. auto. }
  rewrite Hf. f_equal. clear Hf. induction bs as [|b t IH]; [reflexivity|].
  cbn [decode_ascii_replace map] in *. fold (decode_ascii_replace t) in *.
  inversion H as [|? ? Hb Ht]; subst.
  destruct (N.ltb_spec (Byte.to_N b) 128); [|lia].
  rewrite byte_of_to_N. f_equal. apply IH, Ht.
Qed.

Lemma encode_decode_strict bs s : decode_ascii bs = Ok s -> encode_ascii s = Ok bs.
Proof.
  unfold decode_ascii. destruct (forallb _ bs) eqn:Hf; [|discriminate].
  intros [= <-]. unfold encode_ascii.
  assert (Hg : forallb (fun c => c <? 128) (map Byte.to_N bs) = true).
  { rewrite forallb_forall in *. intros c Hc. apply in_map_iff in Hc.
    destruct Hc as (b & <- & Hb). auto. }
  rewrite Hg. f_equal. rewrite map_map. rewrite <- (map_id bs) at 2.
  apply map_ext. intros b. apply byte_of_to_N.
Qed.

(** A string read by [rstr] that holds only ASCII is written back by
    [wstr] as the bytes it was read from. *)
Lemma wstr_read d p name p' buf :
  rstr d p = Ok (name, p') -> ascii_text name ->
  wstr buf name = Ok (buf ++ slice d p p').
Proof.
  intros H Ha.
  destruct (rstr_failure_semantics d p) as [_ [E|(E & Hlb & _)]]; [congruence|].
  rewrite E in H. injection H as <- <-.
  assert (Hf : ~ rstr_fails d p).
  { intros F. apply rstr_raise in F. congruence. }
  unfold rstr_fails in Hf.
  unfold wstr. rewrite encode_decode_ascii by assumption. cbn [bind].
  rewrite Hlb. unfold w32, u32_at. rewrite pack_I_le_N
    by (rewrite length_slice by lia; lia).
  cbn [bind]. rewrite <- app_assoc. rewrite slice_join by lia. reflexivity.
Qed.

Lemma printable_ascii s : printable_name s -> ascii_text s.
Proof. unfold printable_name, ascii_text. apply Forall_impl. intros; lia. Qed.

Lemma wstr_read_valid d p buf :
  valid_str d p = true ->
  wstr buf (map Byte.to_N (slice d (p + 4) (p + 4 + u32_at d p)))
  = Ok (buf ++ slice d p (p + 4 + u32_at d p)).
Proof.
  intros Hv. apply (wstr_read d p).
  - apply rstr_valid, Hv.
  - apply printable_ascii, printable_name_of_valid, Hv.
Qed.

(** A float that passed the range test is not a NaN, so the JSON file
    gives it back unchanged. *)
Lemma json_float_reasonable v : is_float_reasonable v = true -> json_float v = v.
Proof.
  unfold is_float_reasonable, json_float.
  destruct (f32_isnan v); [discriminate | reflexivity].
Qed.

Lemma for_each_app {A} (f : bytes -> A -> res bytes) l1 l2 buf :
  for_each f (l1 ++ l2) buf = (b <- for_each f l1 buf ;; for_each f l2 b).
Proof.
  revert buf. induction l1 as [|x l1 IH]; intros buf; cbn [for_each app bind].
  - reflexivity.
  - destruct (f buf x); cbn [bind]; auto.
Qed.

(** A bare sprite that the trial decode accepted is written back, after
    its trip through the JSON file, as the bytes it was read from. *)
Lemma bare_sprite_written d pos fs sp p buf :
  try_parse_bare_sprite d pos fs = Ok (Some (sp, p)) ->
  write_min_sprite buf (json_min_sprite (to_min_sprite sp)) = Ok (buf ++ slice d pos p).
Proof.
  unfold try_parse_bare_sprite. intros H. apply try_except_Some in H.
  destruct (valid_str d pos) eqn:Hv; [|discriminate]. cbn [negb] in H.
  rewrite (rstr_valid _ _ Hv) in H. cbn [bind] in H.
  set (p0 := pos + 4 + u32_at d pos) in *.
  destruct (N.ltb_spec fs (p0 + 16)); [discriminate|].
  apply bind_Ok in H. destruct H as ([sw q1] & F1 & H).
  apply bind_Ok in H. destruct H as ([sh q2] & F2 & H).
  apply bind_Ok in H. destruct H as ([spx q3] & F3 & H).
  apply bind_Ok in H. destruct H as ([spy q4] & F4 & H).
  destruct (negb _) eqn:Hr in H; [discriminate|].
  destruct (_ || _) in H; [discriminate|].
  injection H as <- <-.
  apply negb_false_iff in Hr.
  repeat (apply andb_true_iff in Hr; destruct Hr as [Hr ?]).
  unfold write_min_sprite, json_min_sprite, to_min_sprite. cbn [ms_name ms_width
    ms_height ms_pivot_x ms_pivot_y sp_name sp_width sp_height sp_pivot_x sp_pivot_y].
  rewrite !json_float_reasonable by assumption.
  pose proof (wstr_read_valid d pos buf Hv) as W. fold p0 in W. rewrite W. cbn [bind].
  rewrite (wf_read _ _ _ _ _ F1). cbn [bind].
  rewrite (wf_read _ _ _ _ _ F2). cbn [bind].
  rewrite (wf_read _ _ _ _ _ F3). cbn [bind].
  rewrite (wf_read _ _ _ _ _ F4).
  apply rf_Ok in F1, F2, F3, F4.
  destruct F1 as (_ & -> & ?), F2 as (_ & -> & ?), F3 as (_ & -> & ?), F4 as (_ & -> & ?).
  apply valid_str_iff in Hv. destruct Hv as (_ & _ & _ & ? & _).
  rewrite <- !app_assoc. rewrite !slice_join by (unfold p0; lia). reflexivity.
Qed.

Lemma bare_sprites_loop_written d fs fuel :
  forall pos acc sprites pend,
    bare_sprites_loop fuel d fs pos acc = Ok (sprites, pend) ->
    exists new,
      sprites = acc ++ new /\ pos <= pend /\ (pos <= fs -> pend <= fs) /\
      forall buf,
        for_each write_min_sprite (map (fun sp => json_min_sprite (to_min_sprite sp)) new) buf
        = Ok (buf ++ slice d pos pend).
Proof.
  induction fuel as [|fuel IH]; intros pos acc sprites pend H; [discriminate|].
  cbn [bare_sprites_loop] in H.
  assert (Hstop : forall buf,
            for_each write_min_sprite
              (map (fun sp => json_min_sprite (to_min_sprite sp)) []) buf
            = Ok (buf ++ slice d pos pos)).
  { intros buf. cbn. rewrite slice_empty by lia. now rewrite app_nil_r. }
  destruct (N.ltb_spec (pos + 4) fs).
  2:{ injection H as <- <-. exists []. rewrite app_nil_r. repeat split; auto; lia. }
  apply bind_Ok in H. destruct H as ([[sp p1]|] & Ht & H).
  2:{ injection H as <- <-. exists []. rewrite app_nil_r. repeat split; auto; lia. }
  pose proof (try_parse_bare_sprite_advance _ _ _ _ _ Ht) as [Ha1 Ha2].
  apply IH in H. destruct H as (new & -> & Hle & Hfs & Hw).
  exists (sp :: new). rewrite <- app_assoc. repeat split; try lia.
  intros buf. cbn [map for_each].
  rewrite (bare_sprite_written _ _ _ _ _ buf Ht). cbn [bind].
  rewrite Hw, <- app_assoc, slice_join by lia. reflexivity.
Qed.

(** ** The round trip of the minimal layout *)

Tactic Notation "inv_bind" hyp(H) "as" simple_intropattern(p) ident(E) :=
  apply bind_Ok in H; destruct H as (p & E & H).

Ltac inv_binds H :=
  repeat match type of H with
  | bind _ _ = Ok _ => let E := fresh "E" in apply bind_Ok in H; destruct H as (? & E & H)
  | (let '(_, _) := ?x in _) = Ok _ => destruct x
  end.

Lemma sprite_scan_loop_range d n :
  forall scan ss, sprite_scan_loop d n scan = Ok (Some ss) ->
                  scan <= ss /\ ss < scan + N.of_nat n.
Proof.
  induction n as [|n IH]; intros scan ss H; cbn [sprite_scan_loop] in H; [discriminate|].
  apply bind_Ok in H. destruct H as ([|] & _ & H).
  - injection H as <-. lia.
  - apply IH in H. lia.
Qed.



Lemma rstr_Ok d p name p' :
  rstr d p = Ok (name, p') ->
  p' = p + 4 + u32_at d p /\ p' <= len d /\
  name = decode_ascii_replace (slice d (p + 4) p').
Proof.
  intros H.
  assert (Hf : ~ rstr_fails d p) by (intros F; apply rstr_raise in F; congruence).
  rewrite (rstr_ok d p Hf) in H. injection H as <- <-.
  unfold rstr_fails in Hf. repeat split; lia.
Qed.


(** ** The minimal-animation scenario *)

Lemma slice_shift {A} (x y : list A) a b :
  slice (x ++ y) (len x + a) (len x + b) = slice y a b.
Proof.
  rewrite slice_app_r by lia. f_equal; lia.
Qed.



Lemma r16_ok d p : p + 2 <= len d -> r16 d p = Ok (u16_at d p, p + 2).
Proof.
  intros H. unfold r16. destruct (N.ltb_spec (len d) (p + 2)); [lia|].
  now rewrite unpack_H_ok by lia.
Qed.


Lemma r8_ok d p : p + 1 <= len d -> r8 d p = Ok (u8_at d p, p + 1).
Proof.
  intros H. unfold r8. destruct (N.ltb_spec (len d) (p + 1)); [lia|]. reflexivity.
Qed.

(** The test made at each position of the scan. *)
Lemma sprite_scan_hit d scan :
  (if valid_str d scan
   then try_except is_ValueError
          ('(tn, _) <- rstr d scan ;; Ok (contains_char 45 tn)) (Ok false)
   else Ok false) = Ok (hyphen_string_at d scan).
Proof.
  unfold hyphen_string_at. destruct (valid_str d scan) eqn:Hv; [|reflexivity].
  now rewrite (rstr_valid _ _ Hv).
Qed.













(** ** The round trip of the normal layout *)


Lemma read_clips_written d n :
  forall pos acc clips pos',
    read_clips d n pos acc = Ok (clips, pos') ->
    (length clips <= length acc + n)%nat /\
    ((length clips = length acc + n)%nat ->
     exists new,
       clips = acc ++ new /\ pos <= pos' /\
       forall buf, for_each write_clip new buf = Ok (buf ++ slice d pos pos')).
Proof.
  induction n as [|n IH]; intros pos acc clips pos' H; cbn [read_clips] in H.
  - injection H as <- <-. split; [lia|]. intros _. exists []. rewrite app_nil_r.
    repeat split; [lia|].
    intros buf. cbn. rewrite slice_empty by lia. now rewrite app_nil_r.
  - destruct (valid_str d pos) eqn:Hv; cbn [negb] in H.
    2:{ injection H as <- <-. split; [lia|]. intros; lia. }
    unfold cbind, rd in H. rewrite (rstr_valid _ _ Hv) in H.
    destruct (r16 d (pos + 4 + u32_at d pos)) as [[cv p2]|e|] eqn:E16.
    + cbn [cret] in H. apply IH in H. rewrite length_app in H. cbn [length] in H.
      destruct H as [Hlen Hw]. split; [lia|]. intros Heq.
      destruct Hw as (new & -> & Hle & Hw); [lia|].
      pose proof (r16_Ok _ _ _ _ E16) as (_ & -> & _).
      eexists (_ :: new). rewrite <- app_assoc. split; [reflexivity|]. split; [lia|].
      intros buf. cbn [for_each]. unfold write_clip. cbn [clip_name clip_value].
      rewrite (wstr_read_valid d pos buf Hv). cbn [bind].
      rewrite (w16_read _ _ _ _ _ E16). cbn [bind]. rewrite Hw.
      rewrite <- !app_assoc, !slice_join by lia. reflexivity.
    + destruct (is_ValueError e); [|discriminate]. injection H as <- <-.
      split; [lia|]. intros; lia.
    + discriminate.
Qed.

Lemma fromhex_hex_app buf bs : (b <- fromhex (hex bs) ;; Ok (buf ++ b)) = Ok (buf ++ bs).
Proof. now rewrite fromhex_hex. Qed.

(** An element whose floats survive the JSON file is written back as the
    bytes it was read from. *)
Lemma read_element_written d layers pos e pos' buf :
  read_element d layers pos = (Ok e, pos') ->
  element_stable e ->
  pos <= pos' /\
  write_element buf (json_element e) = Ok (buf ++ slice d pos pos').
Proof.
  unfold read_element. intros H.
  repeat match type of H with
  | cbind (rd ?f) _ ?p = _ =>
      unfold cbind at 1 in H; unfold rd at 1 in H;
      let E := fresh "E" in
      destruct (f p) as [[? ?]|?|] eqn:E; try discriminate
  end.
  unfold cbind, cret in H. injection H as <- <-.
  unfold element_stable, json_stable. cbn [el_matrix el_tx el_ty].
  intros (S1 & S2 & S3 & S4 & S5 & S6).
  unfold write_element, json_element.
  cbn [el_index el_unk1 el_layer_idx el_layer_name el_unk2 el_matrix el_tx el_ty
       el_z_ord el_type el_color el_pad].
  rewrite S1, S2, S3, S4, S5, S6.
  repeat match goal with
  | E : r16 d ?p = Ok (?v, _) |- context [w16 _ ?v] =>
      rewrite (w16_read _ _ _ _ _ E); cbn [bind]
  | E : rf d ?p = Ok (?v, _) |- context [wf _ ?v] =>
      rewrite (wf_read _ _ _ _ _ E); cbn [bind]
  | E : r8 d ?p = Ok (?v, _) |- context [w8 _ ?v] =>
      rewrite (w8_read _ _ _ _ _ E); cbn [bind]
  end.
  rewrite fromhex_hex. cbn [bind].
  repeat match goal with
  | E : r16 _ _ = Ok _ |- _ => apply r16_Ok in E; destruct E as (_ & ? & _)
  | E : rf _ _ = Ok _ |- _ => apply rf_Ok in E; destruct E as (_ & ? & _)
  | E : r8 _ _ = Ok _ |- _ => apply r8_Ok in E; destruct E as (_ & ? & _)
  end.
  split; [lia|]. f_equal.
  repeat (rewrite <- app_assoc; rewrite slice_join by lia). reflexivity.
Qed.

Lemma read_elements_written d layers n :
  forall pos acc els pos' ok,
    read_elements d layers n pos acc = Ok (els, pos', ok) ->
    (length els <= length acc + n)%nat /\
    ((length els = length acc + n)%nat ->
     exists new,
       els = acc ++ new /\ pos <= pos' /\ ok = true /\
       (Forall element_stable new ->
        forall buf, for_each write_element (map json_element new) buf
                    = Ok (buf ++ slice d pos pos'))).
Proof.
  induction n as [|n IH]; intros pos acc els pos' ok H; cbn [read_elements] in H.
  - injection H as <- <- <-. split; [lia|]. intros _. exists []. rewrite app_nil_r.
    repeat split; [lia|].
    intros _ buf. cbn. rewrite slice_empty by lia. now rewrite app_nil_r.
  - destruct (read_element d layers pos) as [[e|ex|] p1] eqn:Er.
    + apply IH in H. rewrite length_app in H. cbn [length] in H.
      destruct H as [Hlen Hw]. split; [lia|]. intros Heq.
      destruct Hw as (new & -> & Hle & -> & Hw); [lia|].
      exists (e :: new). rewrite <- app_assoc. split; [reflexivity|].
      assert (Hp : pos <= p1).
      { clear - Er. unfold read_element in Er.
        repeat match type of Er with
        | cbind (rd ?f) _ ?p = _ =>
            unfold cbind at 1 in Er; unfold rd at 1 in Er;
            let E := fresh "E" in
            destruct (f p) as [[? ?]|?|] eqn:E; try discriminate
        end.
        unfold cbind, cret in Er. injection Er as _ <-.
        repeat match goal with
        | E : r16 _ _ = Ok _ |- _ => apply r16_Ok in E; destruct E as (_ & ? & _)
        | E : rf _ _ = Ok _ |- _ => apply rf_Ok in E; destruct E as (_ & ? & _)
        | E : r8 _ _ = Ok _ |- _ => apply r8_Ok in E; destruct E as (_ & ? & _)
        end. lia. }
      split; [lia|]. split; [reflexivity|].
      intros Hst buf. inversion Hst as [|? ? He Hnew]; subst.
      cbn [map for_each].
      destruct (read_element_written d layers pos e p1 buf Er He) as [_ ->].
      cbn [bind]. rewrite (Hw Hnew), <- app_assoc, slice_join by lia. reflexivity.
    + destruct (is_ValueError_or_IndexError ex); [|discriminate].
      injection H as <- <- <-. split; [lia|]. intros; lia.
    + discriminate.
Qed.



Lemma looks_like_section_valid d pos fs layers :
  looks_like_section d pos fs layers = Ok true -> valid_str d pos = true.
Proof.
  unfold looks_like_section. destruct (valid_str d pos); [reflexivity|discriminate].
Qed.


(** *** Build entries *)

Lemma slice_nonempty {A} (d : list A) a b : a < b -> a < len d -> slice d a b <> [].
Proof.
  unfold slice, len. intros Hab Ha E. apply (f_equal (@length A)) in E.
  rewrite length_firstn, length_skipn in E. cbn in E. lia.
Qed.

Lemma recorded_refl d st : recorded d st st.
Proof.
  split; [lia|]. exists []. rewrite app_nil_r. split; [reflexivity|].
  intros buf. cbn. rewrite slice_empty by lia. now rewrite app_nil_r.
Qed.

Lemma recorded_trans d a b c : recorded d a b -> recorded d b c -> recorded d a c.
Proof.
  intros (Hab & n1 & E1 & W1) (Hbc & n2 & E2 & W2). split; [lia|].
  exists (n1 ++ n2). split; [rewrite E2, E1; now rewrite app_assoc|].
  intros buf. rewrite map_app, for_each_app, W1. cbn [bind].
  rewrite W2, <- app_assoc, slice_join by lia. reflexivity.
Qed.

Lemma write_raw_entry d a b buf e :
  a < b -> a < len d ->
  (match e with
   | JE_section r _ _ => r
   | JE_symbol r _ _ _ _ _ _ _ => r
   end) = hex (slice d a b) ->
  write_entry buf e = Ok (buf ++ slice d a b).
Proof.
  intros Hab Ha Hr. pose proof (slice_nonempty d a b Hab Ha) as Hne.
  destruct e; cbn [write_entry]; subst; rewrite nonempty_hex;
    destruct (slice d a b) eqn:E; try congruence; rewrite <- E, fromhex_hex; reflexivity.
Qed.

Lemma push_symbol_recorded d st sym added pos' :
  b_pos st < pos' -> b_pos st < len d ->
  recorded d st (push_symbol st (with_raw sym (slice d (b_pos st) pos')) added pos').
Proof.
  intros Hlt Hin. split; [cbn; lia|]. eexists [_]. split; [reflexivity|].
  intros buf. cbn [map for_each push_symbol b_pos].
  rewrite (write_raw_entry d (b_pos st) pos'); [reflexivity|assumption|assumption|].
  reflexivity.
Qed.

Lemma push_section_recorded d st sn tl pos' :
  b_pos st < pos' -> b_pos st < len d ->
  recorded d st
    (push_section st (mkBuildSection sn tl (b_pos st) (hex (slice d (b_pos st) pos'))) pos').
Proof.
  intros Hlt Hin. split; [cbn; lia|]. eexists [_]. split; [reflexivity|].
  intros buf. cbn [map for_each push_section b_pos].
  rewrite (write_raw_entry d (b_pos st) pos'); [reflexivity|assumption|assumption|].
  reflexivity.
Qed.

Lemma pass_recorded_bind {A} d st (r : res A) k :
  (forall a, r = Ok a -> pass_recorded d st (k a)) -> pass_recorded d st (bind r k).
Proof. destruct r; cbn; auto. Qed.

Lemma zero_count_symbol_recorded d fs st pos sn sr :
  b_pos st < pos -> pos <= fs -> b_pos st < len d ->
  pass_recorded d st (zero_count_symbol d fs st (b_pos st) pos sn sr).
Proof.
  intros H0 Hfs Hin. unfold zero_count_symbol.
  apply pass_recorded_bind. intros ns Hn. apply find_next_symbol_range in Hn.
  destruct Hn as [Hn1 Hn2]. specialize (Hn2 Hfs).
  destruct (N.ltb_spec pos ns); [|cbn; apply push_symbol_recorded; lia].
  destruct (pos + 4 <=? fs); [|cbn; apply push_symbol_recorded; lia].
  apply pass_recorded_bind. intros pc _. apply pass_recorded_bind. intros pu _.
  destruct (_ && _); [|cbn; apply push_symbol_recorded; lia].
  apply pass_recorded_bind. intros sl _.
  destruct (len sl =? pc); cbn; apply push_symbol_recorded; lia.
Qed.

(** Whatever a pass of the build loop does, the entry it adds is written
    back as the bytes the cursor moved over. *)
Lemma build_step_recorded d fs st :
  b_pos st + 4 < fs -> fs <= len d -> pass_recorded d st (build_step d fs st).
Proof.
  intros Hg Hfs. unfold build_step.
  destruct (negb (valid_str d (b_pos st)) && negb (empty_str_at d (b_pos st)));
    [apply recorded_refl|].
  apply pass_recorded_bind. intros [|] Hh.
  - destruct (header_read d (b_pos st) fs Hh) as (sn & sr & snsp & -> & Hl & Hp).
    set (ph := b_pos st + 4 + u32_at d (b_pos st) + 3) in *.
    destruct (snsp =? 0).
    { apply zero_count_symbol_recorded; lia. }
    apply pass_recorded_bind. intros test _. destruct (is_some test).
    + apply pass_recorded_bind. intros [[sprites p'] sok] Hr.
      apply read_sprites_range in Hr.
      destruct sok; cbn; apply push_symbol_recorded; lia.
    + destruct (valid_str d ph).
      * apply pass_recorded_bind. intros [sym p'] Hn.
        apply parse_nested_symbol_range in Hn; [|lia].
        cbn. apply push_symbol_recorded; lia.
      * apply pass_recorded_bind. intros ns Hn. apply find_next_symbol_range in Hn.
        cbn. apply push_symbol_recorded; lia.
  - destruct (rstr d (b_pos st)) as [[sn tpos]|e|]; cbn; auto.
    + apply pass_recorded_bind. intros ns Hn. apply find_next_symbol_range in Hn.
      cbn. apply push_section_recorded; lia.
    + destruct (is_ValueError e); [apply recorded_refl | exact I].
Qed.

Lemma build_loop_recorded d fs fuel :
  fs <= len d ->
  forall st st', build_loop fuel d fs st = Ok st' -> recorded d st st'.
Proof.
  intros Hfs. induction fuel as [|fuel IH]; intros st st' H; [discriminate|].
  cbn [build_loop] in H. destruct (N.ltb_spec (b_pos st + 4) fs) as [Hg|Hg].
  2:{ injection H as <-. apply recorded_refl. }
  apply bind_Ok in H. destruct H as (c & Hc & H).
  pose proof (build_step_recorded d fs st Hg Hfs) as Hr. rewrite Hc in Hr.
  destruct c as [s1|s1]; cbn in Hr.
  - injection H as <-. exact Hr.
  - apply IH in H. eapply recorded_trans; eassumption.
Qed.


(** *** The whole file, normal layout *)


End CanimFacts.





Module CanimMetaFacts.
Import CanimMeta CanimMetaSpec.

(** ** Scaling a collision chunk *)

Lemma flat_map_flat_map {A B C} (f : B -> list C) (g : A -> list B) l :
  flat_map f (flat_map g l) = flat_map (fun x => flat_map f (g x)) l.
Proof.
  induction l as [|a l IH]; [reflexivity|].
  cbn [flat_map]. now rewrite flat_map_app, IH.
Qed.

Lemma seg_xs_ys_nil segs : seg_xs segs = [] -> seg_ys segs = [].
Proof. destruct segs; [reflexivity | discriminate]. Qed.

Lemma mcol_bounds_centre e :
  let '(bx1, by1, bx2, by2) := mcol_get_bounds e in
  bbox_centre (all_segments e) = (((bx1 + bx2) / 2)%float, ((by1 + by2) / 2)%float).
Proof.
  unfold mcol_get_bounds, bbox_centre, all_segments.
  rewrite !flat_map_flat_map.
  change (fun x : CollisionPhase =>
            flat_map (fun s => [x1 s; x2 s]) (segments x))
    with (fun ph => seg_xs (segments ph)).
  change (fun x : CollisionPhase =>
            flat_map (fun s => [y1 s; y2 s]) (segments x))
    with (fun ph => seg_ys (segments ph)).
  assert (Hnil : flat_map (fun ph => seg_xs (segments ph)) (mcol_phases e) = [] ->
                 flat_map (fun ph => seg_ys (segments ph)) (mcol_phases e) = []).
  { induction (mcol_phases e) as [|ph l IH]; [reflexivity|].
    cbn [flat_map]. intros E. apply app_eq_nil in E. destruct E as [E1 E2].
    rewrite (seg_xs_ys_nil _ E1), (IH E2). reflexivity. }
  set (xs := flat_map (fun ph => seg_xs (segments ph)) (mcol_phases e)) in *.
  set (ys := flat_map (fun ph => seg_ys (segments ph)) (mcol_phases e)) in *.
  unfold bounds_of. destruct xs as [|x xs'].
  - rewrite (Hnil eq_refl). reflexivity.
  - reflexivity.
Qed.

(** C7 — collision scale about the shared centroid.  [MCOLEntry.scale]
    takes one centroid, the centre of the bounding box over all segments of
    all phases, and moves every coordinate of every segment of every phase to
    [centre + (coordinate - centre) * factor]; nothing else in the chunk
    changes.  On the chunk with the two phases (0,0)-(10,0) and
    (0,10)-(10,10) and factor 2.0 the centroid is (5,5) and the segments
    become (-5,-5)-(15,-5) and (-5,15)-(15,15), whereas scaling each phase
    about its own centre would leave the ordinates 0 and 10 in place. *)
Theorem mcol_scale_shared_centroid :
  (forall (e : MCOLEntry) (factor : float),
     let '(cx, cy) := bbox_centre (all_segments e) in
     mcol_scale e factor =
     mcol_with_phases e
       (map (fun ph => mkColPhase (cp_phase_time ph)
                         (map (scale_segment_about cx cy factor) (segments ph)))
            (mcol_phases e))) /\
  bbox_centre (all_segments two_phase_chunk) = (5, 5)%float /\
  mcol_phases (mcol_scale two_phase_chunk 2) =
    [mkColPhase 0%float [mkSeg (-5) (-5) 15 (-5)];
     mkColPhase 1%float [mkSeg (-5) 15 15 15]] /\
  map (fun ph => segments (cp_scale ph 2 None None)) (mcol_phases two_phase_chunk) =
    [[mkSeg (-5) 0 15 0]; [mkSeg (-5) 10 15 10]].
Proof.
  split; [|repeat split; vm_compute; reflexivity].
  intros e factor. pose proof (mcol_bounds_centre e) as Hc.
  unfold mcol_scale. destruct (mcol_get_bounds e) as [[[bx1 by1] bx2] by2].
  rewrite Hc. f_equal. apply map_ext. intros ph.
  unfold cp_scale. destruct (cp_get_bounds ph) as [[[? ?] ?] ?]. reflexivity.
Qed.

(** ** Interchange *)

(** C9 — idempotence of interchange, at the input where the code departs
    from it.  The file [foreign_hash_file] loads to one structured hit-phase
    chunk whose animation hash is 1; [export_json] does not write that hash
    and [import_json] fills in the hash of the container, 0, so the document
    that comes back is not structurally equal to the one that was loaded. *)
Theorem interchange_loses_mhit_anim_hash :
  exists m m',
    load foreign_hash_file = Ok m /\
    interchange m = Ok m' /\
    chunks m = [C_MHIT (mkMHIT 1 0 0 0 0 [] [] [])] /\
    chunks m' = [C_MHIT (mkMHIT 0 0 0 0 0 [] [] [])] /\
    ~ same_document m' m.
Proof.
  eexists; eexists.
  split; [vm_compute; reflexivity|].
  split; [vm_compute; reflexivity|].
  split; [reflexivity|]. split; [reflexivity|].
  intros (_ & _ & H & _). cbn in H. discriminate H.
Qed.

(** ** The loader *)

Lemma bytes_eqb_eq a b : bytes_eqb a b = true <-> a = b.
Proof.
  revert b. induction a as [|x a IH]; intros [|y b]; cbn; split; intros H;
    try discriminate; try reflexivity.
  - apply andb_true_iff in H. destruct H as [H1 H2].
    apply Byte.byte_dec_bl in H1. apply IH in H2. now subst.
  - injection H as -> ->. apply andb_true_iff. split.
    + now apply Byte.byte_dec_lb.
    + now apply IH.
Qed.

Lemma bytes_eqb_refl a : bytes_eqb a a = true.
Proof. now apply bytes_eqb_eq. Qed.

(** The boundary scan never runs out of its budget. *)
Lemma boundaries_loop_total fuel d pos acc :
  (N.to_nat (len d - pos) < fuel)%nat ->
  exists r, boundaries_loop fuel d pos acc = Ok r.
Proof.
  revert pos acc. induction fuel as [|fuel IH]; intros pos acc Hf; [lia|].
  cbn [boundaries_loop]. destruct (N.leb_spec (pos + 4) (len d)); [|eauto].
  destruct (is_chunk_magic _); apply IH; lia.
Qed.

Lemma find_chunk_boundaries_total d : exists cps, _find_chunk_boundaries d = Ok cps.
Proof. apply boundaries_loop_total. lia. Qed.

Lemma load_chunk_verified d cpos cmagic csize :
  verified_or_raw d (cpos, cmagic, csize) (load_chunk d cpos cmagic csize).
Proof.
  unfold verified_or_raw, load_chunk, tentative, raw_slice. cbn [fst snd].
  set (raw := slice d cpos (cpos + csize)).
  destruct (bytes_eqb cmagic MHIT).
  { destruct (mhit_from_bytes d cpos csize) as [e| |]; try (right; split; [reflexivity|discriminate]).
    cbn [chunk_to_bytes]. destruct (mhit_to_bytes e) as [b| |] eqn:Eb.
    - destruct (bytes_eqb b raw) eqn:Eq.
      + apply bytes_eqb_eq in Eq. subst b. left. auto.
      + right. split; [reflexivity|]. intros t [= <-]. cbn [chunk_to_bytes]. rewrite Eb.
        intros [= ->]. rewrite bytes_eqb_refl in Eq. discriminate.
    - right. split; [reflexivity|]. intros t [= <-]. cbn [chunk_to_bytes]. rewrite Eb. discriminate.
    - right. split; [reflexivity|]. intros t [= <-]. cbn [chunk_to_bytes]. rewrite Eb. discriminate. }
  destruct (bytes_eqb cmagic MCOL).
  { destruct (mcol_from_bytes d cpos csize) as [[e|]| |]; try (right; split; [reflexivity|discriminate]).
    cbn [chunk_to_bytes]. destruct (mcol_to_bytes e) as [b| |] eqn:Eb.
    - destruct (bytes_eqb b raw) eqn:Eq.
      + apply bytes_eqb_eq in Eq. subst b. left. auto.
      + right. split; [reflexivity|]. intros t [= <-]. cbn [chunk_to_bytes]. rewrite Eb.
        intros [= ->]. rewrite bytes_eqb_refl in Eq. discriminate.
    - right. split; [reflexivity|]. intros t [= <-]. cbn [chunk_to_bytes]. rewrite Eb. discriminate.
    - right. split; [reflexivity|]. intros t [= <-]. cbn [chunk_to_bytes]. rewrite Eb. discriminate. }
  right. split; [reflexivity|discriminate].
Qed.

Lemma load_chunks_verified d cps :
  Forall2 (verified_or_raw d) (spans_of d cps) (load_chunks d cps).
Proof.
  induction cps as [|[cpos cmagic] rest IH]; cbn [spans_of load_chunks]; constructor.
  - apply load_chunk_verified.
  - exact IH.
Qed.

(** The loader accepts every buffer, and its chunks are those of
    [load_chunks] on the boundaries. *)
Lemma load_chunks_eq d :
  exists m, load d = Ok m /\
    chunks m = if len d <? 12 then []
               else match _find_chunk_boundaries d with
                    | Ok cps => load_chunks d cps
                    | _ => []
                    end.
Proof.
  unfold load. destruct (N.ltb_spec (len d) 12).
  - eexists. split; reflexivity.
  - unfold unpack_from_I.
    destruct (N.leb_spec (0 + 4) (len d)); [|lia].
    destruct (N.leb_spec (4 + 4) (len d)); [|lia].
    destruct (N.leb_spec (8 + 4) (len d)); [|lia].
    cbn [bind]. destruct (find_chunk_boundaries_total d) as [cps ->]. cbn [bind].
    eexists. split; reflexivity.
Qed.

(** C2 — load-time promotion invariant.  [CAnimMeta.load] accepts every
    buffer, keeps one chunk per boundary, and each chunk it keeps in
    structured form (an [MHITEntry] or an [MCOLEntry]) is the tentative decode
    of its boundary and encodes to exactly the raw byte slice of that
    boundary; a boundary whose tentative decode fails, or re-encodes to
    something else, is kept as a [RawChunk] holding the raw slice. *)
Theorem load_promotion_invariant (d : bytes) :
  exists m,
    load d = Ok m /\
    Forall2 (verified_or_raw d) (chunk_spans d) (chunks m) /\
    (forall i c span,
       nth_error (chunks m) i = Some c -> nth_error (chunk_spans d) i = Some span ->
       if structured c then chunk_to_bytes c = Ok (raw_slice d span)
       else c = C_Raw (snd (fst span)) (raw_slice d span)).
Proof.
  destruct (load_chunks_eq d) as (m & Hl & Hc). exists m. split; [exact Hl|].
  assert (HF : Forall2 (verified_or_raw d) (chunk_spans d) (chunks m)).
  { rewrite Hc. unfold chunk_spans. destruct (len d <? 12); [constructor|].
    destruct (_find_chunk_boundaries d); try constructor.
    apply load_chunks_verified. }
  split; [exact HF|].
  intros i c span Hi Hs.
  assert (V : verified_or_raw d span c).
  { clear Hl Hc. revert i Hi Hs. induction HF as [|s0 c0 ss cs H0 _ IH]; intros [|i] Hi Hs;
      try discriminate.
    - cbn in Hi, Hs. injection Hi as <-. injection Hs as <-. exact H0.
    - cbn in Hi, Hs. eapply IH; eassumption. }
  destruct V as [(Hst & _ & Hb) | (-> & _)].
  - rewrite Hst. exact Hb.
  - reflexivity.
Qed.

(** ** Collision chunks with a bad separator *)

Lemma unpack_I_inv d p v : unpack_from_I d p = Ok v -> v = u32_at_meta d p.
Proof.
  unfold unpack_from_I, u32_at_meta. destruct (p + 4 <=? len d); [|discriminate].
  now intros [= <-].
Qed.

Lemma bind_inv {A B} (r : res A) (k : A -> res B) v :
  bind r k = Ok v -> exists a, r = Ok a /\ k a = Ok v.
Proof. destruct r; cbn; intros H; try discriminate. eauto. Qed.

Lemma read_segments_ok d max_end n :
  forall si cursor acc segs c',
    read_segments d max_end n si cursor acc = Ok (inl (segs, c')) ->
    c' = cursor + 21 * N.of_nat n /\
    forall k, k < N.of_nat n ->
      slice d (cursor + 21 * k + 16) (cursor + 21 * k + 21) = zeros5.
Proof.
  induction n as [|n IH]; intros si cursor acc segs c' H.
  - cbn in H. injection H as _ <-. split; [lia|]. intros k Hk. lia.
  - cbn [read_segments] in H.
    destruct (N.ltb_spec max_end (cursor + 16)); [discriminate|].
    apply bind_inv in H. destruct H as (seg & _ & H).
    destruct (N.ltb_spec max_end (cursor + 16 + 5)); [discriminate|].
    destruct (bytes_eqb (slice d (cursor + 16) (cursor + 16 + 5)) zeros5) eqn:Es;
      [|discriminate].
    cbn [negb] in H. apply IH in H. destruct H as [-> Hk]. split; [lia|].
    intros k Hlt. destruct (N.eq_dec k 0) as [->|Hne].
    + apply bytes_eqb_eq in Es. rewrite <- Es. f_equal; lia.
    + specialize (Hk (k - 1)). rewrite <- Hk by lia. f_equal; lia.
Qed.

Lemma cp_from_bytes_ok d offset max_end ph c' :
  cp_from_bytes d offset max_end = Ok (inl (ph, c')) ->
  let num_segs := u32_at_meta d (offset + 4) in
  c' = offset + 8 + 21 * num_segs /\
  1 <= num_segs <= 200 /\
  forall k, k < num_segs -> separator_of d offset k = zeros5.
Proof.
  unfold cp_from_bytes. intros H.
  destruct (N.ltb_spec max_end (offset + 8)); [discriminate|].
  apply bind_inv in H. destruct H as (pt & _ & H).
  apply bind_inv in H. destruct H as (ns & Ens & H).
  apply unpack_I_inv in Ens. subst ns. cbv zeta.
  set (ns := u32_at_meta d (offset + 4)) in *.
  destruct (N.ltb_spec ns 1); [discriminate|].
  destruct (N.ltb_spec 200 ns); [discriminate|]. cbn [orb] in H.
  apply bind_inv in H. destruct H as (r & Er & H).
  destruct r as [[segs cur]|e]; [|discriminate].
  injection H as _ <-. apply read_segments_ok in Er. destruct Er as [-> Hk].
  rewrite N2Nat.id in *. split; [reflexivity|]. split; [lia|].
  intros k Hlt. unfold separator_of. rewrite <- (Hk k Hlt). f_equal; lia.
Qed.

Lemma read_col_phases_ok d max_end n :
  forall cursor acc phs c',
    read_col_phases d max_end n cursor acc = Ok (Some (phs, c')) ->
    ~ bad_separator_in d n cursor.
Proof.
  induction n as [|n IH]; intros cursor acc phs c' H; [exact (fun f => f)|].
  cbn [read_col_phases] in H. apply bind_inv in H. destruct H as (r & Er & H).
  destruct r as [[ph cur]|e]; [|discriminate].
  apply cp_from_bytes_ok in Er. destruct Er as (-> & _ & Hk).
  apply IH in H. cbn [bad_separator_in]. intros [(k & Hlt & Hbad)|Hrest].
  - apply Hbad, Hk, Hlt.
  - apply H, Hrest.
Qed.

(** A collision chunk with a bad separator has no structured decode. *)
Lemma mcol_from_bytes_bad d cpos csize :
  has_bad_separator d cpos -> forall e, mcol_from_bytes d cpos csize <> Ok (Some e).
Proof.
  intros Hbad e H. unfold mcol_from_bytes in H.
  apply bind_inv in H. destruct H as (ah & _ & H).
  apply bind_inv in H. destruct H as (eh & _ & H).
  apply bind_inv in H. destruct H as (st & _ & H).
  apply bind_inv in H. destruct H as (et & _ & H).
  apply bind_inv in H. destruct H as (el & _ & H).
  apply bind_inv in H. destruct H as (np & Enp & H).
  apply unpack_I_inv in Enp. subst np.
  apply bind_inv in H. destruct H as (r & Er & H).
  destruct r as [[phs cur]|]; [|discriminate].
  apply read_col_phases_ok in Er. apply Er, Hbad.
Qed.

Lemma Forall2_nth_error {A B} (R : A -> B -> Prop) l l' :
  Forall2 R l l' ->
  forall i a, nth_error l i = Some a -> exists b, nth_error l' i = Some b /\ R a b.
Proof.
  induction 1 as [|x y l l' Hxy _ IH]; intros [|i] a Hi; try discriminate.
  - injection Hi as <-. exists y. auto.
  - cbn in Hi. apply IH in Hi. exact Hi.
Qed.

(** C3 — verify-or-fallback on bad separators.  Whenever a boundary of the
    buffer carries the collision tag and some segment of the chunk laid out
    there has a separator that is not five zero bytes, the structured decode
    of the chunk yields no entry, [CAnimMeta.load] keeps the chunk as a
    [RawChunk] under the tag [MCOL], and the [to_bytes] of that chunk is the
    raw slice of the boundary, unchanged. *)
Theorem bad_separator_falls_back (d : bytes) (i : nat) (cpos csize : N) :
  nth_error (chunk_spans d) i = Some (cpos, MCOL, csize) ->
  has_bad_separator d cpos ->
  (forall e, mcol_from_bytes d cpos csize <> Ok (Some e)) /\
  exists m,
    load d = Ok m /\
    nth_error (chunks m) i = Some (C_Raw MCOL (slice d cpos (cpos + csize))) /\
    chunk_to_bytes (C_Raw MCOL (slice d cpos (cpos + csize)))
      = Ok (slice d cpos (cpos + csize)).
Proof.
  intros Hspan Hbad. pose proof (mcol_from_bytes_bad d cpos csize Hbad) as Hno.
  split; [exact Hno|].
  destruct (load_promotion_invariant d) as (m & Hl & HF & _).
  exists m. split; [exact Hl|]. split; [|reflexivity].
  destruct (Forall2_nth_error _ _ _ HF i _ Hspan) as (c & Hc & V).
  rewrite Hc. f_equal.
  destruct V as [(_ & Ht & _) | (-> & _)]; [|reflexivity].
  exfalso. unfold tentative in Ht. change (bytes_eqb MCOL MHIT) with false in Ht.
  change (bytes_eqb MCOL MCOL) with true in Ht. cbv iota in Ht.
  destruct (mcol_from_bytes d cpos csize) as [[e|]| |] eqn:E; try discriminate.
  now apply (Hno e).
Qed.

Lemma bad_separator_falls_back_witness :
  exists m,
    load bad_separator_file = Ok m /\
    nth_error (chunks m) 0 = Some (C_Raw MCOL (slice bad_separator_file 12 73)).
Proof.
  assert (Hs : nth_error (chunk_spans bad_separator_file) 0 = Some (12, MCOL, 61))
    by (vm_compute; reflexivity).
  assert (Hb : has_bad_separator bad_separator_file 12).
  { left. exists 0. split; [vm_compute; reflexivity | vm_compute; discriminate]. }
  destruct (bad_separator_falls_back bad_separator_file 0 12 61 Hs Hb)
    as (_ & m & Hl & Hc & _).
  exists m. split; [exact Hl | exact Hc].
Defined.

(** ** Round trip of the event-metadata container *)

Lemma ascending_weaken d lo lo' cps : lo' <= lo -> ascending d lo cps -> ascending d lo' cps.
Proof. destruct cps as [|[p m] rest]; cbn; [auto|]. intros ? (? & ? & ?). repeat split; auto; lia. Qed.

Lemma ascending_app d lo a b :
  ascending d lo (a ++ b) <->
  ascending d lo a /\
  ascending d (match rev a with [] => lo | (p, _) :: _ => p + 4 end) b.
Proof.
  revert lo. induction a as [|[p m] a IH]; intros lo; cbn [app ascending rev].
  - tauto.
  - rewrite IH. destruct (rev a) as [|[q mq] r] eqn:Er; cbn [app]; tauto.
Qed.

Lemma boundaries_loop_ascending fuel d :
  forall pos acc r lo,
    boundaries_loop fuel d pos acc = Ok r ->
    ascending d lo acc ->
    (match rev acc with [] => lo | (p, _) :: _ => p + 4 end) <= pos ->
    ascending d lo r.
Proof.
  induction fuel as [|fuel IH]; intros pos acc r lo H Ha Hp; [discriminate|].
  cbn [boundaries_loop] in H. destruct (N.leb_spec (pos + 4) (len d)).
  2:{ now injection H as <-. }
  destruct (is_chunk_magic _).
  - eapply IH; [exact H| |].
    + apply ascending_app. split; [exact Ha|]. cbn. repeat split; lia.
    + rewrite rev_app_distr. cbn. lia.
  - eapply IH; [exact H|exact Ha|lia].
Qed.

Lemma find_chunk_boundaries_ascending d cps :
  _find_chunk_boundaries d = Ok cps -> ascending d 12 cps.
Proof.
  intros H. eapply boundaries_loop_ascending; [exact H|exact I|cbn; lia].
Qed.



Lemma length_spans_of d cps : length (spans_of d cps) = length cps.
Proof. induction cps as [|[p m] rest IH]; cbn; auto. Qed.

Lemma length_load_chunks d cps : length (load_chunks d cps) = length cps.
Proof. induction cps as [|[p m] rest IH]; cbn; auto. Qed.



Lemma pack_I_length v b : pack_I v = Ok b -> length b = 4%nat.
Proof.
  unfold pack_I. destruct (_ <? _); [|discriminate].
  intros [= <-]. reflexivity.
Qed.



End CanimMetaFacts.

(* ================================================================== *)
(** * The round-trip law of the two containers *)

Module RoundTripFacts.
Import Py Canim CanimMeta CanimSpec CanimMetaSpec.




End RoundTripFacts.

(* ================================================================== *)
(** * Further properties of canim.py *)
(* ================================================================== *)

Module CanimProps.
Import Py Canim CanimSpec PyFacts CanimFacts.
Local Open Scope N_scope.

(** ** Resynchronisation *)

Lemma find_next_symbol_loop_first d fs n :
  forall scan r,
    find_next_symbol_loop d fs n scan = Ok r ->
    (forall s, scan <= s -> s < r -> s < scan + N.of_nat n ->
               is_symbol_header d s fs = Ok false) /\
    (r = fs \/ (scan <= r /\ r < scan + N.of_nat n /\ is_symbol_header d r fs = Ok true)).
Proof.
  induction n as [|n IH]; intros scan r H; cbn [find_next_symbol_loop] in H.
  - injection H as <-. split; [intros; lia | now left].
  - apply bind_Ok in H. destruct H as (b & Hb & H). destruct b.
    + injection H as <-. split; [intros; lia|]. right. repeat split; try lia. exact Hb.
    + apply IH in H. destruct H as (Hbefore & Hr). split.
      * intros s H1 H2 H3. destruct (N.eq_dec s scan) as [->|Hne]; [exact Hb|].
        apply Hbefore; lia.
      * destruct Hr as [->|(H1 & H2 & H3)]; [now left|]. right. repeat split; try lia.
        exact H3.
Qed.

(** [find_next_symbol] returns the first position at or after [pos], and
    more than seven bytes before [fs], at which [is_symbol_header] holds;
    it returns [fs] when there is none. *)
Theorem find_next_symbol_first (d : bytes) (pos fs r : N) :
  find_next_symbol d pos fs = Ok r ->
  (forall s, pos <= s -> s < r -> s + 7 < fs -> is_symbol_header d s fs = Ok false) /\
  (r = fs \/ (pos <= r /\ r + 7 < fs /\ is_symbol_header d r fs = Ok true)).
Proof.
  unfold find_next_symbol. intros H. apply find_next_symbol_loop_first in H.
  destruct H as (Hbefore & Hr). split.
  - intros s H1 H2 H3. apply Hbefore; lia.
  - destruct Hr as [->|(H1 & H2 & H3)]; [now left|]. right. repeat split; try lia.
    exact H3.
Qed.

(** ** Writers against readers *)

Lemma ascii_text_forallb s : forallb (fun c => c <? 128) s = true <-> ascii_text s.
Proof.
  unfold ascii_text. rewrite forallb_forall, Forall_forall. split; intros H c Hc.
  - apply N.ltb_lt. now apply H.
  - apply N.ltb_lt. now apply H.
Qed.

Lemma decode_encode_ascii s :
  ascii_text s -> decode_ascii_replace (map byte_of s) = s.
Proof.
  unfold decode_ascii_replace. induction 1 as [|c s Hc _ IH]; [reflexivity|].
  cbn [map]. rewrite IH, to_N_byte_of, N.mod_small by lia.
  destruct (N.ltb_spec c 128); [reflexivity | lia].
Qed.

Lemma slice_prefix {A} (x y : list A) : slice (x ++ y) 0 (len x) = x.
Proof.
  rewrite slice_app_l by lia. apply slice_all.
Qed.

Lemma slice_middle {A} (x y z : list A) :
  slice (x ++ y ++ z) (len x) (len x + len y) = y.
Proof.
  rewrite <- (N.add_0_r (len x)) at 1. rewrite slice_shift. apply slice_prefix.
Qed.

(** A string written by [wstr] is read back by [rstr] from the place where
    it was written, whatever follows it, as long as it has at most 500
    characters; a longer one is written but [rstr] refuses it.  [wstr]
    itself accepts ASCII text only. *)
Theorem wstr_then_rstr (buf rest : bytes) (s : pystr) (buf' : bytes) :
  wstr buf s = Ok buf' ->
  ascii_text s /\
  buf' = buf ++ le_bytes 4 (len s) ++ map byte_of s /\
  rstr (buf' ++ rest) (len buf) =
    (if len s <=? 500 then Ok (s, len buf') else Raise ValueError).
Proof.
  unfold wstr, encode_ascii, w32, pack_I. intros H.
  destruct (forallb (fun c => c <? 128) s) eqn:Ha; [|discriminate].
  apply ascii_text_forallb in Ha. cbn [bind] in H. rewrite len_map in H.
  destruct (N.ltb_spec (len s) 4294967296) as [Hl|Hl]; [|discriminate].
  cbn [bind] in H. apply Ok_inj in H. subst buf'.
  split; [exact Ha|]. split; [now rewrite <- app_assoc|].
  rewrite <- !app_assoc.
  set (hd := le_bytes 4 (len s)). set (body := map byte_of s).
  assert (Lhd : len hd = 4) by apply len_le_bytes.
  assert (Lbody : len body = len s) by apply len_map.
  assert (Hu : u32_at (buf ++ hd ++ body ++ rest) (len buf) = len s).
  { unfold u32_at. rewrite <- Lhd. rewrite slice_middle. unfold hd.
    rewrite le_N_le_bytes. apply N.mod_small. exact Hl. }
  assert (Hlen : len (buf ++ hd ++ body ++ rest) = len buf + 4 + len s + len rest).
  { rewrite !len_app. lia. }
  destruct (N.leb_spec (len s) 500) as [Hs|Hs].
  - rewrite rstr_ok.
    + rewrite Hu. f_equal. f_equal.
      * replace (buf ++ hd ++ body ++ rest) with ((buf ++ hd) ++ body ++ rest)
          by now rewrite <- app_assoc.
        replace (len buf + 4) with (len (buf ++ hd)) by (rewrite len_app; lia).
        rewrite <- Lbody. rewrite slice_middle. apply decode_encode_ascii, Ha.
      * rewrite !len_app. lia.
    + unfold rstr_fails. rewrite Hu, Hlen. lia.
  - apply rstr_raise. unfold rstr_fails. rewrite Hu, Hlen. lia.
Qed.

Lemma u8_at_middle (x z : bytes) b : u8_at (x ++ b :: z) (len x) = Byte.to_N b.
Proof.
  unfold u8_at, len. rewrite Nat2N.id, app_nth2 by lia.
  now rewrite Nat.sub_diag.
Qed.

Lemma u16_at_middle (x z : bytes) v :
  v < 65536 -> u16_at (x ++ le_bytes 2 v ++ z) (len x) = v.
Proof.
  intros Hv. unfold u16_at. change 2 with (N.of_nat 2).
  rewrite <- (len_le_bytes 2 v), slice_middle, le_N_le_bytes.
  apply N.mod_small. exact Hv.
Qed.

Lemma u32_at_middle (x z : bytes) v :
  v < 4294967296 -> u32_at (x ++ le_bytes 4 v ++ z) (len x) = v.
Proof.
  intros Hv. unfold u32_at. change 4 with (N.of_nat 4).
  rewrite <- (len_le_bytes 4 v), slice_middle, le_N_le_bytes.
  apply N.mod_small. exact Hv.
Qed.

(** What [w8], [w16] and [w32] append is read back by [r8], [r16] and
    [r32] from the place where it was written, whatever follows: [w8]
    keeps the low byte of its argument, [w16] and [w32] refuse a value that
    does not fit the field with [struct.error]. *)
Theorem integers_written_read_back (buf rest : bytes) (v : N) :
  (exists b, w8 buf v = Ok b /\ len b = len buf + 1 /\
             r8 (b ++ rest) (len buf) = Ok (v mod 256, len buf + 1)) /\
  (v < 65536 ->
   exists b, w16 buf v = Ok b /\ len b = len buf + 2 /\
             r16 (b ++ rest) (len buf) = Ok (v, len buf + 2)) /\
  (65536 <= v -> w16 buf v = Raise StructError) /\
  (v < 4294967296 ->
   exists b, w32 buf v = Ok b /\ len b = len buf + 4 /\
             r32 (b ++ rest) (len buf) = Ok (v, len buf + 4)) /\
  (4294967296 <= v -> w32 buf v = Raise StructError).
Proof.
  repeat split.
  - eexists. split; [reflexivity|]. split; [rewrite len_app; reflexivity|].
    rewrite <- app_assoc. cbn [app]. rewrite r8_ok by (rewrite len_app, len_cons; lia).
    rewrite u8_at_middle, to_N_byte_of.
    change 255 with (N.ones 8). rewrite N.land_ones. change (2 ^ 8) with 256.
    now rewrite N.Div0.mod_mod.
  - intros Hv. unfold w16, pack_H. destruct (N.ltb_spec v 65536); [|lia]. cbn [bind].
    eexists. split; [reflexivity|]. split; [rewrite len_app, len_le_bytes; reflexivity|].
    rewrite <- app_assoc.
    rewrite r16_ok by (rewrite !len_app, len_le_bytes; lia).
    now rewrite u16_at_middle.
  - intros Hv. unfold w16, pack_H. destruct (N.ltb_spec v 65536); [lia|]. reflexivity.
  - intros Hv. unfold w32, pack_I. destruct (N.ltb_spec v 4294967296); [|lia]. cbn [bind].
    eexists. split; [reflexivity|]. split; [rewrite len_app, len_le_bytes; reflexivity|].
    rewrite <- app_assoc.
    rewrite r32_ok by (rewrite !len_app, len_le_bytes; lia).
    now rewrite u32_at_middle.
  - intros Hv. unfold w32, pack_I. destruct (N.ltb_spec v 4294967296); [lia|]. reflexivity.
Qed.

(** ** Sprites *)

Lemma zero_word bs : length bs = 4%nat -> le_N bs = 0 -> bs = le_bytes 4 0.
Proof.
  intros Hl Hz. rewrite <- (le_bytes_le_N bs), Hl, Hz. reflexivity.
Qed.

(** A sprite record that [try_parse_sprite] accepts takes 24 bytes and its
    name, ends inside the limit [fs] and the buffer, and is written back by
    the sprite writer of [_write_symbol_from_parsed] as the bytes it was
    read from; a named sprite also after its trip through the JSON file. *)
Theorem sprite_written_back (d : bytes) (pos fs : N) (sp : sprite) (p : N) (buf : bytes) :
  try_parse_sprite d pos fs = Ok (Some (sp, p)) ->
  p = pos + 24 + len (sp_name sp) /\ p <= fs /\ p <= len d /\
  write_sprite buf sp = Ok (buf ++ slice d pos p) /\
  (sp_empty sp = false -> write_sprite buf (json_sprite sp) = Ok (buf ++ slice d pos p)).
Proof.
  unfold try_parse_sprite. intros H. apply try_except_Some in H.
  destruct (N.ltb_spec fs (pos + 4)); [discriminate|].
  apply bind_Ok in H. destruct H as ([spf p1] & E1 & H).
  apply bind_Ok in H. destruct H as ([spu p2] & E2 & H).
  pose proof (w16_read _ _ _ _ buf E1) as W1.
  apply r16_Ok in E1. destruct E1 as (_ & -> & ?).
  pose proof (fun b => w16_read _ _ _ _ b E2) as W2.
  apply r16_Ok in E2. destruct E2 as (_ & -> & ?).
  set (p2 := pos + 2 + 2) in *.
  destruct (empty_str_at d p2) eqn:He.
  - destruct (N.ltb_spec fs (p2 + 4 + 16)); [discriminate|].
    apply bind_Ok in H. destruct H as ([sw q1] & F1 & H).
    apply bind_Ok in H. destruct H as ([sh q2] & F2 & H).
    apply bind_Ok in H. destruct H as ([spx q3] & F3 & H).
    apply bind_Ok in H. destruct H as ([spy q4] & F4 & H).
    apply Ok_inj in H. injection H as <- <-.
    pose proof (fun b => wf_read _ _ _ _ b F1) as V1.
    pose proof (fun b => wf_read _ _ _ _ b F2) as V2.
    pose proof (fun b => wf_read _ _ _ _ b F3) as V3.
    pose proof (fun b => wf_read _ _ _ _ b F4) as V4.
    apply rf_Ok in F1, F2, F3, F4.
    destruct F1 as (_ & -> & ?), F2 as (_ & -> & ?), F3 as (_ & -> & ?), F4 as (_ & -> & ?).
    cbn [sp_name sp_empty]. rewrite len_nil.
    split; [unfold p2; lia|]. split; [lia|]. split; [lia|].
    split; [|discriminate].
    unfold write_sprite. cbn [sp_frame sp_unk sp_name sp_empty sp_width sp_height
                               sp_pivot_x sp_pivot_y orb].
    rewrite W1. cbn [bind]. rewrite W2. cbn [bind].
    unfold w32, pack_I. cbn [N.ltb N.compare bind].
    unfold empty_str_at in He. destruct (N.ltb_spec (len d) (p2 + 4)); [discriminate|].
    apply N.eqb_eq in He. unfold u32_at in He.
    rewrite <- (zero_word (slice d p2 (p2 + 4))); [|rewrite length_slice by lia; lia|exact He].
    rewrite V1. cbn [bind]. rewrite V2. cbn [bind]. rewrite V3. cbn [bind]. rewrite V4.
    f_equal. repeat (rewrite <- app_assoc; rewrite slice_join by (unfold p2; lia)).
    reflexivity.
  - destruct (valid_str d p2) eqn:Hv; [|discriminate]. cbn [negb] in H.
    rewrite (rstr_valid _ _ Hv) in H. cbn [bind] in H.
    set (p3 := p2 + 4 + u32_at d p2) in *.
    destruct (N.ltb_spec fs (p3 + 16)); [discriminate|].
    apply bind_Ok in H. destruct H as ([sw q1] & F1 & H).
    apply bind_Ok in H. destruct H as ([sh q2] & F2 & H).
    apply bind_Ok in H. destruct H as ([spx q3] & F3 & H).
    apply bind_Ok in H. destruct H as ([spy q4] & F4 & H).
    destruct (negb _) eqn:Hr in H; [discriminate|].
    destruct (_ || _) in H; [discriminate|].
    apply Ok_inj in H. injection H as <- <-.
    apply negb_false_iff in Hr.
    repeat (apply andb_true_iff in Hr; destruct Hr as [Hr ?]).
    pose proof (fun b => wf_read _ _ _ _ b F1) as V1.
    pose proof (fun b => wf_read _ _ _ _ b F2) as V2.
    pose proof (fun b => wf_read _ _ _ _ b F3) as V3.
    pose proof (fun b => wf_read _ _ _ _ b F4) as V4.
    apply rf_Ok in F1, F2, F3, F4.
    destruct F1 as (_ & -> & ?), F2 as (_ & -> & ?), F3 as (_ & -> & ?), F4 as (_ & -> & ?).
    pose proof (fun b => wstr_read_valid d p2 b Hv) as W. fold p3 in W.
    apply valid_str_iff in Hv. destruct Hv as (_ & _ & Hl & Hin & _).
    assert (Hname : len (map Byte.to_N (slice d (p2 + 4) p3)) = u32_at d p2).
    { rewrite len_map, slice_len by (unfold p3; lia). unfold p3. lia. }
    assert (Hw : forall s, s = mkSprite spf spu (map Byte.to_N (slice d (p2 + 4) p3))
                                 sw sh spx spy false ->
                        write_sprite buf s = Ok (buf ++ slice d pos (p3 + 4 + 4 + 4 + 4))).
    { intros s ->. unfold write_sprite.
      cbn [sp_frame sp_unk sp_name sp_empty sp_width sp_height sp_pivot_x sp_pivot_y orb].
      rewrite Hname. destruct (N.eqb_spec (u32_at d p2) 0) as [E|_]; [lia|].
      rewrite W1. cbn [bind]. rewrite W2. cbn [bind]. rewrite W. cbn [bind].
      rewrite V1. cbn [bind]. rewrite V2. cbn [bind]. rewrite V3. cbn [bind]. rewrite V4.
      f_equal. repeat (rewrite <- app_assoc; rewrite slice_join by (unfold p3, p2; lia)).
      reflexivity. }
    cbn [sp_name sp_empty]. rewrite Hname.
    split; [unfold p3, p2; lia|]. split; [lia|]. split; [lia|]. split.
    + apply Hw. reflexivity.
    + intros _. apply Hw. unfold json_sprite.
      cbn [sp_frame sp_unk sp_name sp_empty sp_width sp_height sp_pivot_x sp_pivot_y].
      rewrite !json_float_reasonable by assumption. reflexivity.
Qed.

(** ** The stages of [parse_canim] *)

(** The three ways in which [parse_canim] returns: a file too short, the
    minimal layout, the normal layout; with the stages that led there. *)
Lemma parse_canim_cases d r :
  parse_canim d = Ok r ->
  (len d < 20 /\ r = _empty_result (len d) true) \/
  (20 <= len d /\
   exists magic version hf2 name p4 rate ss sprites pend,
     rstr d 12 = Ok (name, p4) /\
     find_sprite_start d (len d) (p4 + 1) = Ok (Some ss) /\
     bare_sprites_loop (S (N.to_nat (len d - ss))) d (len d) ss [] = Ok (sprites, pend) /\
     r = mkResult magic version 0 hf2 name rate 0 0 0 [] [] []
           [mkSymbol name rate (len sprites) sprites false [] None None None]
           [] [] (len d) (fst (trail_hex_of d (len d) pend))
           (snd (trail_hex_of d (len d) pend)) 0 false true false 0
           (hex (slice d (p4 + 1) ss))) \/
  (20 <= len d /\
   exists magic version hf1 hf2 name p4 rate m_clips m_sections m_elements m_unk2
          layers q6 clips q7 has_trad sections q8 tel b,
     rstr d 12 = Ok (name, p4) /\
     p4 + 1 + 10 <= len d /\
     m_clips = u16_at d (p4 + 1) /\
     m_sections = u16_at d (p4 + 1 + 2) /\
     read_layers d (N.to_nat (declared_layer_count d)) (p4 + 1 + 10) [] = Ok (layers, q6) /\
     (if m_clips >? 0 then read_clips d (N.to_nat m_clips) q6 [] else Ok ([], q6))
       = Ok (clips, q7) /\
     looks_like_section d q7 (len d) layers = Ok has_trad /\
     (if has_trad then read_sections d (len d) layers (N.to_nat m_sections) q7 [] 0
      else Ok ([], q7, 0)) = Ok (sections, q8, tel) /\
     parse_build_section d q8 (len d) layers = Ok b /\
     r = mkResult magic version hf1 hf2 name rate m_clips m_sections m_elements
           layers clips sections (b_symbols b) (b_build_secs b) (b_entries b) (len d)
           (fst (trail_hex_of d (len d) (b_pos b))) (snd (trail_hex_of d (len d) (b_pos b)))
           tel has_trad false false m_unk2 EmptyString).
Proof.
  intros H. unfold parse_canim in H.
  destruct (N.ltb_spec (len d) 20) as [Hsz|Hsz].
  { left. apply Ok_inj in H. auto. }
  right.
  inv_bind H as magic Em.
  inv_bind H as [version p1] E1.
  inv_bind H as [hf1 p2] E2.
  inv_bind H as [hf2 p3] E3.
  inv_bind H as [anim_name p4] E4.
  inv_bind H as [m_rate p5] E5.
  inv_bind H as [ss|] E6.
  - left. split; [exact Hsz|].
    inv_bind H as [sprites pend] E7.
    apply r32_Ok in E1. destruct E1 as (_ & -> & _).
    apply r16_Ok in E2. destruct E2 as (_ & -> & _).
    apply r16_Ok in E3. destruct E3 as (_ & -> & _).
    apply r8_Ok in E5. destruct E5 as (_ & -> & _).
    change (4 + 4 + 2 + 2) with 12 in *.
    destruct (hf1 =? 0) eqn:Hh; [|discriminate]. apply N.eqb_eq in Hh. subst hf1.
    destruct (trail_hex_of d (len d) pend) as [trail trail_hex] eqn:Et.
    apply Ok_inj in H. subst r.
    exists magic, version, hf2, anim_name, p4, m_rate, ss, sprites, pend.
    rewrite Et. cbn [fst snd]. repeat split; first [assumption | reflexivity].
  - right. split; [exact Hsz|].
    inv_bind H as [m_clips q1] F1.
    inv_bind H as [m_sections q2] F2.
    inv_bind H as [m_elements q3] F3.
    inv_bind H as [m_unk2 q4] F4.
    inv_bind H as [m_layers q5] F5.
    inv_bind H as [layers q6] F6.
    inv_bind H as [clips q7] F7.
    inv_bind H as has_trad F8.
    inv_bind H as [[sections q8] tel] F9.
    inv_bind H as b F10.
    apply r32_Ok in E1. destruct E1 as (_ & -> & _).
    apply r16_Ok in E2. destruct E2 as (_ & -> & _).
    apply r16_Ok in E3. destruct E3 as (_ & -> & _).
    apply r8_Ok in E5. destruct E5 as (_ & -> & _).
    change (4 + 4 + 2 + 2) with 12 in *.
    pose proof (rstr_Ok _ _ _ _ E4) as (Ep4 & _ & _).
    apply r16_Ok in F1. destruct F1 as (-> & -> & _).
    apply r16_Ok in F2. destruct F2 as (-> & -> & _).
    apply r16_Ok in F3. destruct F3 as (_ & -> & _).
    apply r16_Ok in F4. destruct F4 as (_ & -> & _).
    apply r16_Ok in F5. destruct F5 as (-> & -> & Hq5).
    replace (u16_at d (p4 + 1 + 2 + 2 + 2 + 2)) with (declared_layer_count d) in F6
      by (unfold declared_layer_count; f_equal; lia).
    replace (p4 + 1 + 2 + 2 + 2 + 2 + 2) with (p4 + 1 + 10) in * by lia.
    destruct (trail_hex_of d (len d) (b_pos b)) as [trail trail_hex] eqn:Et.
    apply Ok_inj in H. subst r.
    exists magic, version, hf1, hf2, anim_name, p4, m_rate, (u16_at d (p4 + 1)),
      (u16_at d (p4 + 1 + 2)), m_elements, m_unk2, layers, q6, clips, q7, has_trad,
      sections, q8, tel, b.
    rewrite Et. cbn [fst snd]. repeat split; first [assumption | reflexivity | lia].
Qed.

(** A file of fewer than 20 bytes is decoded to the empty document marked
    as skipped, and to nothing else; the export refuses that document, so
    export-and-rebuild ends with [ValueError].  Every decoded document
    records the size of the file. *)
Theorem short_file_skipped (d : bytes) (r : parse_result) :
  parse_canim d = Ok r ->
  pr_filesize r = len d /\
  (pr_skipped r = true <-> len d < 20) /\
  (len d < 20 ->
   r = _empty_result (len d) true /\
   export_canim_to_json r = Raise ValueError /\
   roundtrip d = Raise ValueError).
Proof.
  intros H. pose proof (parse_canim_cases d r H) as C.
  destruct C as [(Hs & ->) | [(Hs & C) | (Hs & C)]].
  - split; [reflexivity|]. split; [split; auto|]. intros _.
    split; [reflexivity|]. split; [reflexivity|].
    unfold roundtrip. rewrite H. reflexivity.
  - destruct C as (magic & version & hf2 & name & p4 & rate & ss & sprites & pend & _ & _ & _ & ->).
    cbn [pr_filesize pr_skipped]. split; [reflexivity|].
    split; [split; [discriminate | lia] | lia].
  - destruct C as (magic & version & hf1 & hf2 & name & p4 & rate & m_clips & m_sections
                   & m_elements & m_unk2 & layers & q6 & clips & q7 & has_trad & sections
                   & q8 & tel & b & _ & _ & _ & _ & _ & _ & _ & _ & _ & ->).
    cbn [pr_filesize pr_skipped]. split; [reflexivity|].
    split; [split; [discriminate | lia] | lia].
Qed.

(** ** The minimal layout *)

Lemma bare_sprite_plain d pos fs sp p :
  try_parse_bare_sprite d pos fs = Ok (Some (sp, p)) -> sp_frame sp = 0 /\ sp_unk sp = 0.
Proof.
  unfold try_parse_bare_sprite. intros H. apply try_except_Some in H.
  destruct (valid_str d pos) eqn:Hv; [|discriminate]. cbn [negb] in H.
  rewrite (rstr_valid _ _ Hv) in H. cbn [bind] in H.
  destruct (_ >? _) in H; [discriminate|].
  apply bind_Ok in H. destruct H as ([sw q1] & F1 & H).
  apply bind_Ok in H. destruct H as ([sh q2] & F2 & H).
  apply bind_Ok in H. destruct H as ([spx q3] & F3 & H).
  apply bind_Ok in H. destruct H as ([spy q4] & F4 & H).
  destruct (negb _) in H; [discriminate|].
  destruct (_ || _) in H; [discriminate|].
  apply Ok_inj in H. injection H as <- _. auto.
Qed.

Lemma bare_sprites_loop_valid d fs fuel :
  forall pos acc sprites pend,
    bare_sprites_loop fuel d fs pos acc = Ok (sprites, pend) ->
    exists new,
      sprites = acc ++ new /\
      Forall (fun sp => sprite_valid sp /\ sp_name sp <> [] /\ sp_empty sp = false /\
                        sp_frame sp = 0 /\ sp_unk sp = 0) new.
Proof.
  induction fuel as [|fuel IH]; intros pos acc sprites pend H; [discriminate|].
  cbn [bare_sprites_loop] in H. destruct (pos + 4 <? fs).
  - apply bind_Ok in H. destruct H as ([[sp p']|] & E & H).
    + apply IH in H. destruct H as (new & -> & Hn). exists (sp :: new).
      split; [now rewrite <- app_assoc|]. constructor; [|exact Hn].
      pose proof (bare_sprite_valid _ _ _ _ _ E) as (? & ? & ?).
      pose proof (bare_sprite_plain _ _ _ _ _ E) as (? & ?). auto.
    + apply Ok_inj in H. injection H as <- _. exists []. split; [now rewrite app_nil_r|].
      constructor.
  - apply Ok_inj in H. injection H as <- _. exists []. split; [now rewrite app_nil_r|].
    constructor.
Qed.

Lemma sprite_scan_loop_first d n :
  forall scan ss,
    sprite_scan_loop d n scan = Ok (Some ss) ->
    scan <= ss /\ ss < scan + N.of_nat n /\ hyphen_string_at d ss = true /\
    forall k, scan <= k -> k < ss -> hyphen_string_at d k = false.
Proof.
  induction n as [|n IH]; intros scan ss H; cbn [sprite_scan_loop] in H; [discriminate|].
  rewrite sprite_scan_hit in H. cbn [bind] in H.
  destruct (hyphen_string_at d scan) eqn:Hh.
  - apply Ok_inj in H. injection H as <-. repeat split; try lia. exact Hh.
  - apply IH in H. destruct H as (H1 & H2 & H3 & H4). repeat split; try lia; [exact H3|].
    intros k Hk1 Hk2. destruct (N.eq_dec k scan) as [->|Hne]; [exact Hh|].
    apply H4; lia.
Qed.

(** A document of the minimal layout: the header flag [hf1] is zero, the
    tables and the build entries are empty, and there is one symbol, named
    after the animation, whose sprites all passed the sprite validation as
    bare sprites.  The metadata blob kept in hexadecimal runs from the rate
    byte to the first position that starts a valid string with a hyphen, and
    the trailing count is between zero and the file size. *)
Theorem minimal_document (d : bytes) (r : parse_result) :
  parse_canim d = Ok r -> pr_minimal r = true ->
  pr_skipped r = false /\ pr_hf1 r = 0 /\
  pr_layers r = [] /\ pr_clips r = [] /\ pr_sections r = [] /\ pr_build_entries r = [] /\
  (exists sprites,
     pr_symbols r = [mkSymbol (pr_anim_name r) (pr_frame_rate r) (len sprites) sprites
                       false [] None None None] /\
     Forall (fun sp => sprite_valid sp /\ sp_name sp <> [] /\ sp_empty sp = false /\
                       sp_frame sp = 0 /\ sp_unk sp = 0) sprites) /\
  (exists p ss,
     rstr d 12 = Ok (pr_anim_name r, p) /\ p + 1 <= ss /\ ss + 4 < len d /\
     pr_minimal_meta_hex r = hex (slice d (p + 1) ss) /\
     hyphen_string_at d ss = true /\
     (forall k, p + 1 <= k -> k < ss -> hyphen_string_at d k = false)) /\
  (0 <= pr_trail r <= Z.of_N (len d))%Z.
Proof.
  intros H Hm. pose proof (parse_canim_cases d r H) as C.
  destruct C as [(Hs & ->) | [(Hs & C) | (Hs & C)]].
  - discriminate Hm.
  - destruct C as (magic & version & hf2 & name & p4 & rate & ss & sprites & pend
                   & E4 & E6 & E7 & ->).
    cbn [pr_skipped pr_hf1 pr_layers pr_clips pr_sections pr_build_entries pr_symbols
         pr_anim_name pr_frame_rate pr_minimal_meta_hex pr_trail].
    unfold find_sprite_start in E6. apply sprite_scan_loop_first in E6.
    destruct E6 as (S1 & S2 & S3 & S4).
    pose proof (bare_sprites_loop_valid _ _ _ _ _ _ _ E7) as (new & Hnew & Hv).
    cbn [app] in Hnew. subst new.
    apply bare_sprites_loop_written in E7. destruct E7 as (_ & _ & Hle & Hfs & _).
    repeat split; try reflexivity.
    + exists sprites. split; [reflexivity | exact Hv].
    + exists p4, ss. repeat split; try assumption; try lia.
    + unfold trail_hex_of. cbn [fst]. lia.
    + unfold trail_hex_of. cbn [fst]. lia.
  - destruct C as (magic & version & hf1 & hf2 & name & p4 & rate & m_clips & m_sections
                   & m_elements & m_unk2 & layers & q6 & clips & q7 & has_trad & sections
                   & q8 & tel & b & _ & _ & _ & _ & _ & _ & _ & _ & _ & ->).
    discriminate Hm.
Qed.


(** ** The tables of the normal layout *)

Lemma read_layers_bound d n :
  forall pos acc layers pos',
    read_layers d n pos acc = Ok (layers, pos') ->
    (length layers <= length acc + n)%nat /\ pos' <= N.max pos (len d).
Proof.
  induction n as [|n IH]; intros pos acc layers pos' H; cbn [read_layers] in H.
  - apply Ok_inj in H. injection H as <- <-. lia.
  - destruct (valid_str d pos) eqn:Hv; cbn [negb] in H.
    2:{ apply Ok_inj in H. injection H as <- <-. lia. }
    rewrite (rstr_valid _ _ Hv) in H. cbn [bind] in H.
    apply IH in H. rewrite length_app in H. cbn [length] in H.
    apply valid_str_iff in Hv. destruct Hv as (_ & _ & _ & Hin & _). lia.
Qed.

Lemma read_clips_bound d n :
  forall pos acc clips pos',
    read_clips d n pos acc = Ok (clips, pos') -> pos' <= N.max pos (len d).
Proof.
  induction n as [|n IH]; intros pos acc clips pos' H; cbn [read_clips] in H.
  - apply Ok_inj in H. injection H as _ <-. lia.
  - destruct (valid_str d pos) eqn:Hv; cbn [negb] in H.
    2:{ apply Ok_inj in H. injection H as _ <-. lia. }
    unfold cbind, rd in H. rewrite (rstr_valid _ _ Hv) in H.
    apply valid_str_iff in Hv. destruct Hv as (_ & _ & _ & Hin & _).
    destruct (r16 d (pos + 4 + u32_at d pos)) as [[cv p2]|e|] eqn:E16.
    + cbn [cret] in H. apply IH in H. apply r16_Ok in E16. lia.
    + destruct (is_ValueError e); [|discriminate]. apply Ok_inj in H.
      injection H as _ <-. lia.
    + discriminate.
Qed.

Lemma read_element_bound d layers pos :
  snd (read_element d layers pos) <= N.max pos (len d + 4).
Proof.
  unfold read_element.
  repeat match goal with
  | |- snd (cbind (rd ?f) _ ?p) <= _ =>
      unfold cbind at 1; unfold rd at 1;
      let E := fresh "E" in
      destruct (f p) as [[? ?]|?|] eqn:E; cbn [snd]
  end.
  all: try (unfold cbind, cret; cbn [snd]).
  all: repeat match goal with
  | E : r16 _ _ = Ok _ |- _ => apply r16_Ok in E; destruct E as (_ & ? & ?)
  | E : rf _ _ = Ok _ |- _ => apply rf_Ok in E; destruct E as (_ & ? & ?)
  | E : r8 _ _ = Ok _ |- _ => apply r8_Ok in E; destruct E as (_ & ? & ?)
  end.
  all: lia.
Qed.

Lemma read_elements_bound d layers n :
  forall pos acc els pos' ok,
    read_elements d layers n pos acc = Ok (els, pos', ok) ->
    pos' <= N.max pos (len d + 4).
Proof.
  induction n as [|n IH]; intros pos acc els pos' ok H; cbn [read_elements] in H.
  - apply Ok_inj in H. injection H as _ <- _. lia.
  - pose proof (read_element_bound d layers pos) as Hm.
    destruct (read_element d layers pos) as [[e|ex|] p1]; cbn [snd] in Hm.
    + apply IH in H. lia.
    + destruct (is_ValueError_or_IndexError ex); [|discriminate].
      apply Ok_inj in H. injection H as _ <- _. lia.
    + discriminate.
Qed.

Lemma read_sections_counts d fs layers n :
  forall pos acc tel secs pos' tel',
    read_sections d fs layers n pos acc tel = Ok (secs, pos', tel') ->
    exists new,
      secs = acc ++ new /\ (length new <= n)%nat /\
      Forall (fun s => len (sec_elements s) <= sec_element_count s /\
                       sec_element_count s <= 10000 /\ sec_frame_count s <= 10000) new /\
      tel' = tel + fold_right (fun s t => len (sec_elements s) + t) 0 new /\
      pos' <= N.max pos (len d + 4).
Proof.
  induction n as [|n IH]; intros pos acc tel secs pos' tel' H; cbn [read_sections] in H.
  all: assert (Hstop : forall m, exists new : list section,
           acc = acc ++ new /\ (length new <= m)%nat /\
           Forall (fun s => len (sec_elements s) <= sec_element_count s /\
                            sec_element_count s <= 10000 /\ sec_frame_count s <= 10000) new /\
           tel = tel + fold_right (fun s t => len (sec_elements s) + t) 0 new /\
           pos <= N.max pos (len d + 4))
    by (intros m; exists []; rewrite app_nil_r; cbn; repeat split; try lia; constructor).
  - apply Ok_inj in H. injection H as <- <- <-. apply Hstop.
  - apply bind_Ok in H. destruct H as (l & El & H).
    destruct l; cbn [negb] in H.
    2:{ apply Ok_inj in H. injection H as <- <- <-. apply Hstop. }
    apply looks_like_section_valid in El.
    rewrite (rstr_valid _ _ El) in H. cbn [bind] in H.
    set (p0 := pos + 4 + u32_at d pos) in *.
    destruct (r32 d p0) as [[su p1]|e|] eqn:E32; cbn [bind] in H.
    2:{ destruct (is_ValueError e); [|discriminate]. apply Ok_inj in H.
        injection H as <- <- <-. apply Hstop. }
    2:{ discriminate. }
    destruct (r8 d p1) as [[sf p2]|e|] eqn:E8; cbn [bind] in H.
    2:{ destruct (is_ValueError e); [|discriminate]. apply Ok_inj in H.
        injection H as <- <- <-. apply Hstop. }
    2:{ discriminate. }
    destruct (r16 d p2) as [[sfc p3]|e|] eqn:E16a; cbn [bind] in H.
    2:{ destruct (is_ValueError e); [|discriminate]. apply Ok_inj in H.
        injection H as <- <- <-. apply Hstop. }
    2:{ discriminate. }
    destruct (r16 d p3) as [[sec p4]|e|] eqn:E16b; cbn [bind] in H.
    2:{ destruct (is_ValueError e); [|discriminate]. apply Ok_inj in H.
        injection H as <- <- <-. apply Hstop. }
    2:{ discriminate. }
    destruct (N.ltb_spec 10000 sec) as [Hsec|Hsec]; cbn [orb] in H.
    { apply Ok_inj in H. injection H as <- <- <-. apply Hstop. }
    destruct (N.ltb_spec 10000 sfc) as [Hsfc|Hsfc].
    { apply Ok_inj in H. injection H as <- <- <-. apply Hstop. }
    apply bind_Ok in H. destruct H as ([[els p5] ok] & Ee & H).
    pose proof (read_elements_bound _ _ _ _ _ _ _ _ Ee) as Hb.
    pose proof (read_elements_written _ _ _ _ _ _ _ _ Ee) as [Hlen _].
    cbn [length Nat.add] in Hlen.
    pose proof (r16_Ok _ _ _ _ E16b) as (_ & Hp4 & Hin).
    assert (Hs : len els <= sec /\ sec <= 10000 /\ sfc <= 10000)
      by (unfold len; lia).
    destruct ok; cbn [negb] in H.
    + apply IH in H. destruct H as (new & -> & Hn & HF & -> & Hp).
      eexists (_ :: new). rewrite <- app_assoc. split; [reflexivity|].
      split; [cbn [length]; lia|]. split; [constructor; [exact Hs | exact HF]|].
      cbn [fold_right sec_elements]. split; lia.
    + apply Ok_inj in H. injection H as <- <- <-. eexists [_]. split; [reflexivity|].
      split; [cbn [length]; lia|]. split; [constructor; [exact Hs | constructor]|].
      cbn [fold_right sec_elements]. split; lia.
Qed.

(** In the normal layout the decoder never returns more layers, clips or
    sections than the header declares, nor more elements in a section than
    the section declares (at most 10000, like its frame count); the element
    total it reports is the number of elements it kept; and without
    traditional sections there is no section at all. *)
Theorem decoded_counts_bounded (d : bytes) (r : parse_result) :
  parse_canim d = Ok r -> pr_skipped r = false -> pr_minimal r = false ->
  len (pr_layers r) <= declared_layer_count d /\
  len (pr_clips r) <= pr_num_clips r /\
  len (pr_sections r) <= pr_num_sections r /\
  Forall (fun s => len (sec_elements s) <= sec_element_count s /\
                   sec_element_count s <= 10000 /\ sec_frame_count s <= 10000)
    (pr_sections r) /\
  pr_tel r = fold_right (fun s t => len (sec_elements s) + t) 0 (pr_sections r) /\
  (pr_has_traditional_sections r = false -> pr_sections r = []).
Proof.
  intros H Hk Hm. pose proof (parse_canim_cases d r H) as C.
  destruct C as [(Hs & ->) | [(Hs & C) | (Hs & C)]].
  - discriminate Hk.
  - destruct C as (magic & version & hf2 & name & p4 & rate & ss & sprites & pend
                   & _ & _ & _ & ->). discriminate Hm.
  - destruct C as (magic & version & hf1 & hf2 & name & p4 & rate & m_clips & m_sections
                   & m_elements & m_unk2 & layers & q6 & clips & q7 & has_trad & sections
                   & q8 & tel & b & E4 & Hin & Ec & Es & F6 & F7 & F8 & F9 & F10 & ->).
    cbn [pr_layers pr_clips pr_sections pr_num_clips pr_num_sections pr_tel
         pr_has_traditional_sections].
    apply read_layers_bound in F6. cbn [length Nat.add] in F6.
    assert (Hc : len clips <= m_clips).
    { destruct (m_clips >? 0).
      - apply read_clips_written in F7. cbn [length Nat.add] in F7. unfold len. lia.
      - apply Ok_inj in F7. injection F7 as <- _. cbn. lia. }
    assert (Hsec : exists new, sections = new /\ (length new <= N.to_nat m_sections)%nat /\
              Forall (fun s => len (sec_elements s) <= sec_element_count s /\
                       sec_element_count s <= 10000 /\ sec_frame_count s <= 10000) new /\
              tel = fold_right (fun s t => len (sec_elements s) + t) 0 new /\
              (has_trad = false -> new = [])).
    { destruct has_trad.
      - apply read_sections_counts in F9. destruct F9 as (new & -> & Hn & HF & -> & _).
        exists new. cbn [app]. repeat split; try assumption; try lia; try discriminate.
      - apply Ok_inj in F9. injection F9 as <- _ <-. exists []. cbn.
        repeat split; try lia; try constructor. }
    destruct Hsec as (new & -> & Hn & HF & -> & Hnone).
    unfold len in *. repeat split; try assumption; try lia.
Qed.


(** ** The build region *)

Lemma pass_shaped_bind {A} d fs st (r : res A) k :
  (forall a, r = Ok a -> pass_shaped d fs st (k a)) -> pass_shaped d fs st (bind r k).
Proof. destruct r; cbn; auto. Qed.

Ltac shape_symbol :=
  match goal with
  | |- pass_shape ?d ?fs ?st (push_symbol _ (with_raw ?s _) _ ?p) =>
      apply (PS_symbol d fs st s p); lia
  end.

Lemma parse_nested_symbol_sprites d pos fs name rate count sym p :
  parse_nested_symbol d pos fs name rate count = Ok (sym, p) ->
  sym_sprites sym = [] /\ sym_composite sym = true /\ sym_name sym = name /\
  sym_frame_rate sym = rate /\ sym_timeline_size sym = Some (p - pos).
Proof.
  unfold parse_nested_symbol. intros H.
  apply bind_Ok in H. destruct H as ([q subs] & _ & H).
  apply bind_Ok in H. destruct H as (ns & _ & H).
  apply Ok_inj in H. injection H as <- <-. cbn. auto.
Qed.

Lemma zero_count_symbol_shaped d fs st pos sn sr :
  b_pos st < pos -> pos <= fs ->
  pass_shaped d fs st (zero_count_symbol d fs st (b_pos st) pos sn sr).
Proof.
  intros H0 Hfs. unfold zero_count_symbol.
  apply pass_shaped_bind. intros ns Hn. apply find_next_symbol_range in Hn.
  destruct Hn as [Hn1 Hn2]. specialize (Hn2 Hfs).
  destruct (N.ltb_spec pos ns); [|cbn; shape_symbol].
  destruct (pos + 4 <=? fs); [|cbn; shape_symbol].
  apply pass_shaped_bind. intros pc _. apply pass_shaped_bind. intros pu _.
  destruct (_ && _); [|cbn; shape_symbol].
  apply pass_shaped_bind. intros sl _.
  destruct (len sl =? pc); cbn; shape_symbol.
Qed.

(** Whatever a pass of the build loop does, it leaves the state as it was
    or adds one entry that retains the bytes the cursor moved over. *)
Lemma build_step_shaped d fs st :
  b_pos st + 4 < fs -> pass_shaped d fs st (build_step d fs st).
Proof.
  intros Hg. unfold build_step.
  destruct (negb (valid_str d (b_pos st)) && negb (empty_str_at d (b_pos st)));
    [apply PS_same|].
  apply pass_shaped_bind. intros [|] Hh.
  - destruct (header_read d (b_pos st) fs Hh) as (sn & sr & snsp & -> & Hl & Hp).
    set (ph := b_pos st + 4 + u32_at d (b_pos st) + 3) in *.
    destruct (snsp =? 0).
    { apply zero_count_symbol_shaped; lia. }
    apply pass_shaped_bind. intros test _. destruct (is_some test).
    + apply pass_shaped_bind. intros [[sprites p'] sok] Hr.
      apply read_sprites_range in Hr.
      destruct sok; cbn; shape_symbol.
    + destruct (valid_str d ph).
      * apply pass_shaped_bind. intros [sym p'] Hn.
        pose proof (parse_nested_symbol_sprites _ _ _ _ _ _ _ _ Hn) as (Hs & _).
        apply parse_nested_symbol_range in Hn; [|lia].
        cbn. replace 0 with (len (sym_sprites sym)) by (rewrite Hs; reflexivity).
        shape_symbol.
      * apply pass_shaped_bind. intros ns Hn. apply find_next_symbol_range in Hn.
        cbn. shape_symbol.
  - destruct (rstr d (b_pos st)) as [[sn tpos]|e|]; cbn; auto.
    + apply pass_shaped_bind. intros ns Hn. apply find_next_symbol_range in Hn.
      cbn. apply PS_section; lia.
    + destruct (is_ValueError e); [apply PS_same | exact I].
Qed.

Lemma symbols_of_app a b : symbols_of (a ++ b) = symbols_of a ++ symbols_of b.
Proof. apply flat_map_app. Qed.

Lemma sections_of_app a b : sections_of (a ++ b) = sections_of a ++ sections_of b.
Proof. apply flat_map_app. Qed.

Lemma sprite_total_app a b : sprite_total (a ++ b) = sprite_total a + sprite_total b.
Proof.
  unfold sprite_total. induction a as [|x a IH]; cbn [app fold_right]; [reflexivity|].
  rewrite IH. lia.
Qed.

Lemma pass_shape_booked d fs st st' : pass_shape d fs st st' -> booked st -> booked st'.
Proof.
  intros [ | sym pos' _ _ | sn pos' _ _] (B1 & B2 & B3); [repeat split; assumption| |].
  - unfold booked, push_symbol. cbn [b_symbols b_entries b_build_secs b_tsp].
    rewrite symbols_of_app, sections_of_app, sprite_total_app, <- B1, <- B2, <- B3.
    cbn. rewrite app_nil_r. repeat split. lia.
  - unfold booked, push_section. cbn [b_symbols b_entries b_build_secs b_tsp].
    rewrite symbols_of_app, sections_of_app, <- B1, <- B2, <- B3.
    cbn. rewrite app_nil_r. repeat split.
Qed.

Lemma tiles_app d a m b es es' :
  tiles d a es m -> tiles d m es' b -> tiles d a (es ++ es') b.
Proof.
  revert a. induction es as [|e es IH]; intros a H1 H2; cbn [tiles app] in *.
  - now subst.
  - destruct H1 as (k & ? & ? & ? & H1). exists k. repeat split; try assumption.
    now apply IH.
Qed.

Lemma pass_shape_tiles d fs st st' :
  fs <= len d -> pass_shape d fs st st' ->
  exists new, b_entries st' = b_entries st ++ new /\
              tiles d (b_pos st) new (b_pos st') /\
              b_pos st <= b_pos st' /\ b_pos st' <= N.max (b_pos st) fs.
Proof.
  intros Hfs [ | sym pos' H1 H2 | sn pos' H1 H2].
  - exists []. rewrite app_nil_r. cbn. repeat split; lia.
  - eexists [_]. split; [reflexivity|]. cbn [b_pos push_symbol tiles]. split; [|lia].
    exists pos'. repeat split; try lia.
  - eexists [_]. split; [reflexivity|]. cbn [b_pos push_section tiles]. split; [|lia].
    exists pos'. repeat split; try lia.
Qed.

Lemma build_loop_shaped d fs fuel :
  fs <= len d ->
  forall st st',
    build_loop fuel d fs st = Ok st' ->
    (booked st -> booked st') /\
    exists new, b_entries st' = b_entries st ++ new /\
                tiles d (b_pos st) new (b_pos st') /\
                b_pos st <= b_pos st' /\ b_pos st' <= N.max (b_pos st) fs.
Proof.
  intros Hfs. induction fuel as [|fuel IH]; intros st st' H; [discriminate|].
  cbn [build_loop] in H. destruct (N.ltb_spec (b_pos st + 4) fs) as [Hg|Hg].
  2:{ apply Ok_inj in H. subst st'. split; [auto|]. exists []. rewrite app_nil_r. cbn.
      repeat split; lia. }
  apply bind_Ok in H. destruct H as (c & Hc & H).
  pose proof (build_step_shaped d fs st Hg) as Hr. rewrite Hc in Hr.
  destruct c as [s1|s1]; cbn in Hr.
  - apply Ok_inj in H. subst st'. split; [now apply (pass_shape_booked d fs)|].
    now apply (pass_shape_tiles d fs).
  - apply IH in H. destruct H as (Hb & new' & En' & Ht' & Hl' & Hu').
    split; [intros B; apply Hb; now apply (pass_shape_booked d fs st)|].
    destruct (pass_shape_tiles d fs st s1 Hfs Hr) as (new & En & Ht & Hl & Hu).
    exists (new ++ new'). rewrite En', En, app_assoc. split; [reflexivity|].
    split; [now apply (tiles_app d _ (b_pos s1))|]. lia.
Qed.

(** The build entries tile the build region: each entry retains, in
    [_raw_hex], a span of the buffer that is not empty, the spans follow one
    another from the start of the region to the final cursor (a timeline
    block also records where it starts and how long it is), and the final
    cursor is not beyond [fs] unless the region started there.  Rebuilding
    the exported entries therefore writes back the region byte for byte,
    never through the field-by-field fallback. *)
Theorem build_entries_tile (d : bytes) (pos fs : N) (layers : list pystr)
    (b : build_state) :
  parse_build_section d pos fs layers = Ok b -> fs <= len d ->
  tiles d pos (b_entries b) (b_pos b) /\
  pos <= b_pos b /\ b_pos b <= N.max pos fs /\
  forall buf, for_each write_entry (map json_export_entry (b_entries b)) buf
              = Ok (buf ++ slice d pos (b_pos b)).
Proof.
  unfold parse_build_section. intros H Hfs.
  pose proof (build_loop_shaped d fs _ Hfs _ _ H) as (_ & new & En & Ht & Hl & Hu).
  pose proof (build_loop_recorded d fs _ Hfs _ _ H) as (_ & new' & En' & Hw).
  cbn [b_entries b_pos app] in *. subst new new'.
  repeat split; assumption.
Qed.

Lemma build_loop_booked d fs fuel :
  forall st st', build_loop fuel d fs st = Ok st' -> booked st -> booked st'.
Proof.
  induction fuel as [|fuel IH]; intros st st' H B; [discriminate|].
  cbn [build_loop] in H. destruct (N.ltb_spec (b_pos st + 4) fs) as [Hg|Hg].
  2:{ apply Ok_inj in H. now subst st'. }
  apply bind_Ok in H. destruct H as (c & Hc & H).
  pose proof (build_step_shaped d fs st Hg) as Hr. rewrite Hc in Hr.
  destruct c as [s1|s1]; cbn in Hr.
  - apply Ok_inj in H. subst st'. now apply (pass_shape_booked d fs st).
  - apply IH in H; [exact H|]. now apply (pass_shape_booked d fs st).
Qed.

(** The bookkeeping of [parse_build_section]: the symbols it returns are
    the symbol entries, the timeline blocks are the other entries, both in
    the order of the entries, and the sprite total counts the sprites of the
    symbols. *)
Theorem build_bookkeeping (d : bytes) (pos fs : N) (layers : list pystr)
    (b : build_state) :
  parse_build_section d pos fs layers = Ok b ->
  b_symbols b = symbols_of (b_entries b) /\
  b_build_secs b = sections_of (b_entries b) /\
  b_tsp b = sprite_total (b_symbols b) /\
  len (b_entries b) = len (b_symbols b) + len (b_build_secs b).
Proof.
  unfold parse_build_section. intros H.
  assert (B : booked b).
  { apply (build_loop_booked _ _ _ _ _ H). repeat split. }
  destruct B as (B1 & B2 & B3). repeat split; try assumption.
  rewrite B1, B2. clear. unfold symbols_of, sections_of.
  induction (b_entries b) as [|[s|s] es IH]; cbn [flat_map app]; [reflexivity| |].
  - rewrite !len_cons. lia.
  - rewrite !len_cons. lia.
Qed.

(** ** Trailing bytes *)

(** The trailing count of a decoded document is the file size less the
    final cursor.  It is never below -4 (the cursor passes the end of the
    file only through the unchecked four padding bytes of an element), and
    when it is positive the trailing text is the hexadecimal of exactly that
    many last bytes of the file; otherwise the trailing text is empty. *)
Theorem trailing_bytes (d : bytes) (r : parse_result) :
  parse_canim d = Ok r ->
  (-4 <= pr_trail r <= Z.of_N (len d))%Z /\
  ((0 < pr_trail r)%Z ->
   pr_trail_hex r = hex (slice_from d (len d - Z.to_N (pr_trail r)))) /\
  ((pr_trail r <= 0)%Z -> pr_trail_hex r = EmptyString).
Proof.
  intros H.
  assert (T : forall pos, pos <= len d + 4 ->
            let t := trail_hex_of d (len d) pos in
            (-4 <= fst t <= Z.of_N (len d))%Z /\
            ((0 < fst t)%Z -> snd t = hex (slice_from d (len d - Z.to_N (fst t)))) /\
            ((fst t <= 0)%Z -> snd t = EmptyString)).
  { intros pos Hp. unfold trail_hex_of. cbn [fst snd]. split; [lia|].
    destruct (Z.ltb_spec 0 (Z.of_N (len d) - Z.of_N pos)); split; intros; try lia;
      try reflexivity.
    do 2 f_equal. lia. }
  pose proof (parse_canim_cases d r H) as C.
  destruct C as [(Hs & ->) | [(Hs & C) | (Hs & C)]].
  - cbn. repeat split; try lia; try reflexivity; intros; lia.
  - destruct C as (magic & version & hf2 & name & p4 & rate & ss & sprites & pend
                   & E4 & E6 & E7 & ->).
    cbn [pr_trail pr_trail_hex]. apply T.
    unfold find_sprite_start in E6. apply sprite_scan_loop_range in E6.
    apply bare_sprites_loop_written in E7. destruct E7 as (_ & _ & _ & Hfs & _). lia.
  - destruct C as (magic & version & hf1 & hf2 & name & p4 & rate & m_clips & m_sections
                   & m_elements & m_unk2 & layers & q6 & clips & q7 & has_trad & sections
                   & q8 & tel & b & E4 & Hin & Ec & Es & F6 & F7 & F8 & F9 & F10 & ->).
    cbn [pr_trail pr_trail_hex]. apply T.
    apply read_layers_bound in F6. destruct F6 as [_ F6].
    assert (Hq7 : q7 <= len d).
    { destruct (m_clips >? 0).
      - apply read_clips_bound in F7. lia.
      - apply Ok_inj in F7. injection F7 as _ <-. lia. }
    assert (Hq8 : q8 <= len d + 4).
    { destruct has_trad.
      - apply read_sections_counts in F9. destruct F9 as (new & _ & _ & _ & _ & Hb). lia.
      - apply Ok_inj in F9. injection F9 as _ <- _. lia. }
    unfold parse_build_section in F10.
    apply (build_loop_shaped d (len d)) in F10; [|lia].
    destruct F10 as (_ & new & _ & _ & _ & Hu). cbn [b_pos] in Hu. lia.
Qed.


(** ** Heuristics *)

(** [looks_like_build] never raises, and it holds wherever
    [is_symbol_header] holds: a symbol header always looks like the start of
    a build region. *)
Theorem symbol_header_looks_like_build (d : bytes) (pos fs : N) :
  (exists b, looks_like_build d pos fs = Ok b) /\
  (is_symbol_header d pos fs = Ok true -> looks_like_build d pos fs = Ok true).
Proof.
  unfold looks_like_build. split.
  - destruct (valid_str d pos) eqn:Hv; cbn [negb]; [|eauto].
    rewrite (rstr_valid _ _ Hv). cbn [bind].
    destruct (_ || _); [cbn; eauto|].
    destruct (N.leb_spec (pos + 4 + u32_at d pos + 3) fs); [|cbn; eauto].
    unfold index. destruct (N.ltb_spec (pos + 4 + u32_at d pos) (len d));
      cbn [bind try_except is_ValueError_or_IndexError]; [|eauto].
    match goal with |- context [known_rate ?x] => destruct (known_rate x) end;
      cbn [try_except]; eauto.
  - intros H. apply is_symbol_header_iff in H.
    destruct H as (l & name & rate & count & Hv & Hfs & Hd & -> & Hr & _).
    assert (Hv' : valid_str d pos = true).
    { apply valid_str_iff. destruct Hv as (H1 & H2 & H3 & H4 & H5 & H6).
      subst l. repeat split; try assumption; try lia. now rewrite <- H5. }
    destruct Hv as (_ & <- & _).
    rewrite Hv'. cbn [negb]. rewrite (rstr_valid _ _ Hv'). cbn [bind].
    destruct (_ || _); [reflexivity|].
    destruct (N.leb_spec (pos + 4 + u32_at d pos + 3) fs); [|lia].
    rewrite index_ok by lia. cbn [bind].
    apply known_rate_In in Hr. rewrite Hr. reflexivity.
Qed.

(** ** Composite symbols *)

Lemma nested_step_names d fs count pos subs c :
  nested_step d fs count (pos, subs) = Ok c ->
  Forall printable_name subs -> (0 < count -> len subs < count) ->
  match c with
  | Continue (_, subs') =>
      Forall printable_name subs' /\ (0 < count -> len subs' < count)
  | Break (_, subs') =>
      Forall printable_name subs' /\ (0 < count -> len subs' <= count)
  end.
Proof.
  unfold nested_step. intros H HF Hc.
  destruct (valid_str d pos) eqn:Hv; cbn [negb] in H.
  2:{ apply Ok_inj in H. subst c. split; [exact HF | intros; apply N.lt_le_incl; auto]. }
  apply bind_Ok in H. destruct H as (h & _ & H).
  apply bind_Ok in H. destruct H as (brk & _ & H).
  destruct brk.
  { apply Ok_inj in H. subst c. split; [exact HF | intros; apply N.lt_le_incl; auto]. }
  rewrite (rstr_valid _ _ Hv) in H. cbn [bind try_except] in H.
  assert (HF' : Forall printable_name
                  (subs ++ [map Byte.to_N (slice d (pos + 4) (pos + 4 + u32_at d pos))])).
  { apply Forall_app. split; [exact HF|]. constructor; [|constructor].
    now apply printable_name_of_valid. }
  assert (Hlen : forall A (l : list A) x, len (l ++ [x]) = len l + 1).
  { intros. rewrite len_app, len_cons, len_nil. lia. }
  match type of H with context [if ?c then _ else _] => destruct c eqn:Hcond end;
    cbn [try_except] in H; apply Ok_inj in H; subst c; (split; [exact HF'|]);
    intros H3; specialize (Hc H3); rewrite Hlen; [lia|].
  apply andb_false_iff in Hcond. rewrite Hlen in Hcond.
  destruct Hcond as [Hcond|Hcond].
  - apply N.leb_gt in Hcond. lia.
  - apply N.ltb_ge in Hcond. lia.
Qed.

Lemma nested_loop_names d fs count fuel :
  forall pos subs pos' subs',
    nested_loop fuel d fs count (pos, subs) = Ok (pos', subs') ->
    Forall printable_name subs -> (0 < count -> len subs < count) ->
    Forall printable_name subs' /\ (0 < count -> len subs' <= count).
Proof.
  induction fuel as [|fuel IH]; intros pos subs pos' subs' H HF Hc; [discriminate|].
  cbn [nested_loop] in H. apply bind_Ok in H. destruct H as (c & Hs & H).
  pose proof (nested_step_names _ _ _ _ _ _ Hs HF Hc) as Hn.
  destruct c as [[p1 s1]|[p1 s1]].
  - apply Ok_inj in H. injection H as <- <-. exact Hn.
  - destruct Hn as [HF1 Hc1]. exact (IH _ _ _ _ H HF1 Hc1).
Qed.

(** A composite symbol read by [parse_nested_symbol] has no sprite, its
    block size is the distance from the start of the block to the next
    symbol, every sub-symbol name is a non-empty printable string, and for a
    positive count there are at most [count] of them. *)
Theorem nested_symbol_names (d : bytes) (pos fs : N) (name : pystr) (rate count : N)
    (sym : symbol) (p : N) :
  parse_nested_symbol d pos fs name rate count = Ok (sym, p) ->
  sym_composite sym = true /\ sym_num_sprites sym = 0 /\ sym_sprites sym = [] /\
  sym_timeline_size sym = Some (p - pos) /\
  Forall printable_name (sym_sub_symbols sym) /\
  (0 < count -> len (sym_sub_symbols sym) <= count).
Proof.
  unfold parse_nested_symbol. intros H.
  apply bind_Ok in H. destruct H as ([q subs] & Hl & H).
  apply bind_Ok in H. destruct H as (ns & _ & H).
  apply Ok_inj in H. injection H as <- <-.
  cbn [sym_composite sym_num_sprites sym_sprites sym_timeline_size sym_sub_symbols].
  apply nested_loop_names in Hl; [|constructor|cbn; lia].
  repeat split; try reflexivity; apply Hl.
Qed.

(** ** Texts with a byte above 127 *)

Lemma parse_canim_header d r :
  parse_canim d = Ok r -> 20 <= len d ->
  pr_skipped r = false /\
  decode_ascii (slice d 0 4) = Ok (pr_magic r) /\
  r32 d 4 = Ok (pr_version r, 8) /\
  r16 d 8 = Ok (pr_hf1 r, 10) /\
  r16 d 10 = Ok (pr_hf2 r, 12) /\
  exists p4, rstr d 12 = Ok (pr_anim_name r, p4) /\ r8 d p4 = Ok (pr_frame_rate r, p4 + 1).
Proof.
  intros H Hsz. unfold parse_canim in H.
  destruct (N.ltb_spec (len d) 20) as [?|_]; [lia|].
  inv_bind H as magic Em.
  inv_bind H as [version p1] E1.
  inv_bind H as [hf1 p2] E2.
  inv_bind H as [hf2 p3] E3.
  inv_bind H as [anim_name p4] E4.
  inv_bind H as [m_rate p5] E5.
  pose proof (r32_Ok _ _ _ _ E1) as (_ & -> & _).
  pose proof (r16_Ok _ _ _ _ E2) as (_ & -> & _).
  pose proof (r16_Ok _ _ _ _ E3) as (_ & -> & _).
  pose proof (r8_Ok _ _ _ _ E5) as (_ & -> & _).
  change (4 + 4) with 8 in *. change (8 + 2) with 10 in *. change (10 + 2) with 12 in *.
  inv_bind H as [ss|] E6.
  - inv_binds H. apply Ok_inj in H. subst r. cbn. repeat split; try assumption.
    exists p4. split; assumption.
  - inv_binds H. apply Ok_inj in H. subst r. cbn. repeat split; try assumption.
    exists p4. split; assumption.
Qed.

Lemma high_byte_forallb bs :
  Exists (fun b => 128 <= Byte.to_N b) bs ->
  forallb (fun b => Byte.to_N b <? 128) bs = false.
Proof.
  induction 1 as [b bs Hb | b bs _ IH]; cbn [forallb].
  - destruct (N.ltb_spec (Byte.to_N b) 128); [lia | reflexivity].
  - rewrite IH. apply andb_false_r.
Qed.

Lemma high_byte_not_encoded bs :
  Exists (fun b => 128 <= Byte.to_N b) bs ->
  encode_ascii (decode_ascii_replace bs) = Raise UnicodeError.
Proof.
  intros H. unfold encode_ascii.
  replace (forallb (fun c => c <? 128) (decode_ascii_replace bs)) with false; [reflexivity|].
  symmetry. induction H as [b bs Hb | b bs _ IH]; cbn [decode_ascii_replace map forallb].
  - destruct (N.ltb_spec (Byte.to_N b) 128); [lia | reflexivity].
  - unfold decode_ascii_replace in IH. rewrite IH. apply andb_false_r.
Qed.

(** The decoder reads the magic as strict ASCII but the animation name
    with replacement of the bytes above 127, and the rebuild encodes both as
    strict ASCII.  So a file of at least 20 bytes with such a byte in the
    magic is refused by the decoder with a Unicode error, and one with such
    a byte in the name is decoded and exported, but its rebuild ends with a
    Unicode error. *)
Theorem high_byte_text (d : bytes) :
  20 <= len d ->
  (Exists (fun b => 128 <= Byte.to_N b) (slice d 0 4) ->
   parse_canim d = Raise UnicodeError) /\
  (forall r,
     parse_canim d = Ok r ->
     Exists (fun b => 128 <= Byte.to_N b) (slice d 16 (16 + u32_at d 12)) ->
     (exists j, export_canim_to_json r = Ok j) /\
     roundtrip d = Raise UnicodeError).
Proof.
  intros Hsz. split.
  - intros Hx. unfold parse_canim. destruct (N.ltb_spec (len d) 20); [lia|].
    unfold decode_ascii. rewrite (high_byte_forallb _ Hx). reflexivity.
  - intros r H Hx.
    destruct (parse_canim_header d r H Hsz) as (Hk & Em & E1 & E2 & E3 & p4 & E4 & E5).
    unfold roundtrip. rewrite H. cbn [bind].
    unfold export_canim_to_json. rewrite Hk. split; [eauto|]. cbn [bind].
    unfold json_dump_load, rebuild_canim_from_json.
    cbn [j_format j_magic j_version j_hf1 j_hf2 j_anim_name].
    change (negb ("canim_v10" =? "canim_v10")%string) with false. cbv iota.
    rewrite (encode_decode_strict _ _ Em). cbn [bind].
    rewrite (w32_read _ _ _ _ _ E1). cbn [bind].
    rewrite (w16_read _ _ _ _ _ E2). cbn [bind].
    rewrite (w16_read _ _ _ _ _ E3). cbn [bind].
    apply rstr_Ok in E4. destruct E4 as (-> & _ & ->).
    unfold wstr. change (12 + 4) with 16.
    rewrite (high_byte_not_encoded _ Hx). reflexivity.
Qed.

End CanimProps.

(* ================================================================== *)
(** * Further properties of canim_meta.py *)
(* ================================================================== *)

Module CanimMetaProps.
Import Py CanimMeta CanimMetaSpec PyFacts CanimMetaFacts.
Local Open Scope N_scope.

(** ** Chunk boundaries *)

Lemma is_chunk_magic_In tag : is_chunk_magic tag = true <-> In tag CHUNK_MAGICS.
Proof.
  unfold is_chunk_magic. rewrite existsb_exists. split.
  - intros (x & Hx & He). apply bytes_eqb_eq in He. now subst.
  - intros H. exists tag. split; [exact H | apply bytes_eqb_refl].
Qed.

Lemma slice_as_firstn {A} (d : list A) p k :
  slice d p (p + k) = firstn (N.to_nat k) (skipn (N.to_nat p) d).
Proof. unfold slice. do 2 f_equal. lia. Qed.

Lemma slice_shifted {A} (d : list A) p j k :
  slice d (p + j) (p + j + k)
  = firstn (N.to_nat k) (skipn (N.to_nat j) (skipn (N.to_nat p) d)).
Proof.
  rewrite slice_as_firstn, skipn_skipn. do 2 f_equal. lia.
Qed.

(** The three tags start with an [M] that none of them repeats, so two
    tags never overlap. *)
Lemma magic_no_overlap d p q :
  is_chunk_magic (slice d p (p + 4)) = true -> p < q -> q < p + 4 ->
  is_chunk_magic (slice d q (q + 4)) = false.
Proof.
  intros Hm H1 H2. replace q with (p + (q - p)) by lia.
  rewrite slice_shifted. rewrite slice_as_firstn in Hm.
  change (N.to_nat 4) with 4%nat in *.
  apply is_chunk_magic_In in Hm.
  assert (Hk : (N.to_nat (q - p) = 1 \/ N.to_nat (q - p) = 2 \/ N.to_nat (q - p) = 3)%nat)
    by lia.
  destruct (skipn (N.to_nat p) d) as [|a [|b [|c [|e l]]]];
    cbn [firstn] in Hm;
    try (destruct Hm as [Hm|[Hm|[Hm|[]]]]; discriminate Hm).
  destruct Hm as [Hm|[Hm|[Hm|[]]]]; injection Hm as <- <- <- <-;
    destruct Hk as [Hk|[Hk|Hk]]; rewrite Hk; cbn [skipn];
    destruct l as [|l0 [|l1 [|l2 l]]]; reflexivity.
Qed.

Lemma boundaries_loop_exact fuel d :
  forall pos acc r,
    boundaries_loop fuel d pos acc = Ok r ->
    forall q tag,
      In (q, tag) r <->
      In (q, tag) acc \/
      (pos <= q /\ q + 4 <= len d /\ tag = slice d q (q + 4) /\ is_chunk_magic tag = true).
Proof.
  induction fuel as [|fuel IH]; intros pos acc r H q tag; [discriminate|].
  cbn [boundaries_loop] in H. destruct (N.leb_spec (pos + 4) (len d)) as [Hin|Hout].
  2:{ apply Ok_inj in H. subst r. split; [auto|]. intros [Ha|(H1 & H2 & _)]; [exact Ha | lia]. }
  destruct (is_chunk_magic (slice d pos (pos + 4))) eqn:Hm.
  - rewrite (IH _ _ _ H). rewrite in_app_iff. cbn [In]. split.
    + intros [[Ha|[He|[]]]|(H1 & H2 & H3 & H4)].
      * now left.
      * injection He as <- <-. right. repeat split; try lia; assumption.
      * right. repeat split; try lia; assumption.
    + intros [Ha|(H1 & H2 & H3 & H4)]; [left; now left|].
      destruct (N.eq_dec q pos) as [->|Hne].
      * left. right. left. now subst tag.
      * destruct (N.lt_ge_cases q (pos + 4)) as [Hlt|Hge].
        -- subst tag. rewrite (magic_no_overlap d pos q Hm) in H4 by lia. discriminate.
        -- right. repeat split; try lia; assumption.
  - rewrite (IH _ _ _ H). split.
    + intros [Ha|(H1 & H2 & H3 & H4)]; [now left|]. right. repeat split; try lia; assumption.
    + intros [Ha|(H1 & H2 & H3 & H4)]; [now left|]. right.
      destruct (N.eq_dec q pos) as [->|Hne].
      * subst tag. rewrite Hm in H4. discriminate.
      * repeat split; try lia; assumption.
Qed.

(** [_find_chunk_boundaries] always returns, and what it returns is exactly
    the positions from offset 12 on at which one of the three tags stands
    entirely inside the buffer, each with its tag, in ascending order and at
    least four bytes apart. *)
Theorem chunk_boundaries_exact (d : bytes) :
  exists cps,
    _find_chunk_boundaries d = Ok cps /\
    (forall q tag,
       In (q, tag) cps <->
       12 <= q /\ q + 4 <= len d /\ tag = slice d q (q + 4) /\ In tag CHUNK_MAGICS) /\
    ascending d 12 cps.
Proof.
  destruct (find_chunk_boundaries_total d) as (cps & H). exists cps.
  split; [exact H|]. split; [|now apply find_chunk_boundaries_ascending].
  intros q tag. unfold _find_chunk_boundaries in H.
  rewrite (boundaries_loop_exact _ _ _ _ _ H). rewrite is_chunk_magic_In. cbn [In].
  tauto.
Qed.

(** ** The loader *)

Lemma unpack_I_meta d p : p + 4 <= len d -> unpack_from_I d p = Ok (u32_at_meta d p).
Proof.
  intros H. unfold unpack_from_I, u32_at_meta.
  destruct (N.leb_spec (p + 4) (len d)); [reflexivity | lia].
Qed.

(** [load] never raises.  On a buffer of fewer than twelve bytes it keeps
    no chunk, a count of zero and the header words that are complete.
    Otherwise the three header words are those of the buffer, there is one
    chunk for each boundary, and trailing bytes are kept only when no
    boundary was found: they are then everything after the header. *)
Theorem load_shape (d : bytes) :
  exists m,
    load d = Ok m /\
    (len d < 12 ->
     m = mkMeta (if 4 <=? len d then u32_at_meta d 0 else 0)
                (if 8 <=? len d then u32_at_meta d 4 else 0) 0 [] []) /\
    (12 <= len d ->
     version m = u32_at_meta d 0 /\ anim_hash m = u32_at_meta d 4 /\
     entry_count m = u32_at_meta d 8 /\
     len (chunks m) = len (chunk_spans d) /\
     (chunks m = [] -> _trailing_bytes m = slice_from d 12) /\
     (chunks m <> [] -> _trailing_bytes m = [])).
Proof.
  unfold load, chunk_spans. destruct (N.ltb_spec (len d) 12) as [Hs|Hs].
  - eexists. split; [reflexivity|]. split; [|lia]. intros _. reflexivity.
  - destruct (find_chunk_boundaries_total d) as (cps & Hc).
    rewrite !unpack_I_meta by lia. cbn [bind]. rewrite Hc. cbn [bind].
    eexists. split; [reflexivity|]. split; [lia|]. intros _.
    cbn [version anim_hash entry_count chunks _trailing_bytes].
    split; [reflexivity|]. split; [reflexivity|]. split; [reflexivity|].
    split; [unfold len; now rewrite length_load_chunks, length_spans_of|].
    assert (Hlast : forall q tag, In (q, tag) cps -> q + 4 <= len d).
    { intros q tag Hi. unfold _find_chunk_boundaries in Hc.
      apply (boundaries_loop_exact _ _ _ _ _ Hc) in Hi. cbn [In] in Hi.
      destruct Hi as [[]|(_ & H & _)]. exact H. }
    destruct (rev cps) as [|[last tg] t] eqn:Er.
    + assert (cps = []) by (apply (f_equal (@rev _)) in Er; now rewrite rev_involutive in Er).
      subst cps. cbn [load_chunks]. split; [|congruence]. intros _.
      destruct (N.ltb_spec 12 (len d)); [reflexivity|].
      symmetry. apply slice_from_beyond. lia.
    + assert (Hin : In (last, tg) cps).
      { apply in_rev. rewrite Er. now left. }
      apply Hlast in Hin.
      destruct (N.ltb_spec (last + (len d - last)) (len d)); [lia|].
      split; [|reflexivity]. intros He.
      apply (f_equal (@length _)) in He. rewrite length_load_chunks in He.
      apply (f_equal (@length _)) in Er. rewrite length_rev in Er.
      cbn [length] in *. lia.
Qed.


(** ** Sizes *)

Lemma cat_Ok a b r : cat a b = Ok r -> exists x y, a = Ok x /\ b = Ok y /\ r = x ++ y.
Proof.
  unfold cat. destruct a as [x| |]; cbn; try discriminate.
  destruct b as [y| |]; cbn; try discriminate.
  intros H. apply Ok_inj in H. eauto.
Qed.

Lemma pack_I_len v b : pack_I v = Ok b -> len b = 4.
Proof. intros H. apply pack_I_length in H. unfold len. now rewrite H. Qed.

Lemma pack_f_len x b : pack_f x = Ok b -> len b = 4.
Proof.
  unfold pack_f. destruct (float_to_f32 x); cbn [bind]; try discriminate.
  intros H. apply Ok_inj in H. subst b. apply len_le_bytes.
Qed.

Lemma cat_all_len {A} (f : A -> res bytes) (g : A -> N) l :
  (forall x b, f x = Ok b -> len b = g x) ->
  forall r, cat_all f l = Ok r -> len r = sum_N (map g l).
Proof.
  intros Hf. induction l as [|x l IH]; intros r H; cbn [cat_all] in H.
  - apply Ok_inj in H. now subst.
  - apply cat_Ok in H. destruct H as (a & b & Ha & Hb & ->).
    rewrite len_app, (Hf _ _ Ha), (IH _ Hb). reflexivity.
Qed.

Lemma sum_N_const {A} (l : list A) k : sum_N (map (fun _ => k) l) = len l * k.
Proof.
  unfold sum_N. induction l as [|x l IH]; cbn [map fold_right]; [reflexivity|].
  rewrite IH, len_cons. lia.
Qed.

Lemma seg_to_bytes_len s b : seg_to_bytes s = Ok b -> len b = 21.
Proof.
  unfold seg_to_bytes. intros H. apply cat_Ok in H. destruct H as (x & y & Hx & Hy & ->).
  apply Ok_inj in Hy. subst y.
  apply (cat_all_len pack_f (fun _ => 4)) in Hx; [|exact pack_f_len].
  rewrite len_app, Hx. reflexivity.
Qed.

Lemma cp_to_bytes_len ph b : cp_to_bytes ph = Ok b -> len b = cp_phase_byte_size ph.
Proof.
  unfold cp_to_bytes, cp_phase_byte_size, BYTE_SIZE. intros H.
  apply cat_Ok in H. destruct H as (x & y & Hx & H & ->).
  apply cat_Ok in H. destruct H as (y1 & y2 & Hy1 & Hy2 & ->).
  apply (cat_all_len seg_to_bytes (fun _ => 21)) in Hy2; [|exact seg_to_bytes_len].
  rewrite !len_app, (pack_f_len _ _ Hx), (pack_I_len _ _ Hy1), Hy2, sum_N_const. lia.
Qed.

Ltac cat_lengths H :=
  repeat (apply cat_Ok in H;
          let x := fresh "x" in let y := fresh "y" in
          let Hx := fresh "Hx" in
          destruct H as (x & y & Hx & H & ->));
  repeat match goal with
  | E : pack_I _ = Ok _ |- _ => apply pack_I_len in E
  | E : pack_f _ = Ok _ |- _ => apply pack_f_len in E
  | E : Ok _ = Ok _ |- _ => apply Ok_inj in E; subst
  end.

Lemma mcol_to_bytes_len e b : mcol_to_bytes e = Ok b -> len b = mcol_byte_size e.
Proof.
  unfold mcol_to_bytes, mcol_byte_size. intros H. cat_lengths H.
  match goal with
  | E : cat_all cp_to_bytes _ = Ok _ |- _ =>
      apply (cat_all_len cp_to_bytes cp_phase_byte_size _ cp_to_bytes_len) in E
  end.
  rewrite !len_app. change (len MCOL) with 4. lia.
Qed.

Lemma phase_to_bytes_len ph b :
  phase_to_bytes ph = Ok b -> len b = 8 + 4 * len (phase_get_floats ph).
Proof.
  unfold phase_to_bytes. intros H.
  apply cat_Ok in H. destruct H as (x & y & Hx & H & ->).
  apply cat_Ok in H. destruct H as (y1 & y2 & Hy1 & Hy2 & ->).
  apply (cat_all_len pack_f (fun _ => 4)) in Hy2; [|exact pack_f_len].
  rewrite !len_app, (pack_f_len _ _ Hx), (pack_I_len _ _ Hy1), Hy2, sum_N_const. lia.
Qed.

Lemma sum_N_ext {A} (f g : A -> N) l :
  Forall (fun x => f x = g x) l -> sum_N (map f l) = sum_N (map g l).
Proof.
  unfold sum_N. induction 1 as [|x l Hx _ IH]; cbn [map fold_right]; [reflexivity|].
  now rewrite Hx, IH.
Qed.

Lemma mhit_to_bytes_len e b :
  mhit_to_bytes e = Ok b ->
  len b = 28 + sum_N (map (fun ph => 8 + 4 * len (phase_get_floats ph)) (mhit_phases e))
          + 4 + len (mhit_ref_hashes e) * 4 + len (mhit_footer_extra e).
Proof.
  unfold mhit_to_bytes. intros H. cat_lengths H.
  match goal with
  | E : cat_all phase_to_bytes _ = Ok _ |- _ =>
      apply (cat_all_len phase_to_bytes _ _ phase_to_bytes_len) in E
  end.
  match goal with
  | E : cat_all pack_I _ = Ok _ |- _ =>
      apply (cat_all_len pack_I (fun _ => 4) _ pack_I_len) in E; rewrite sum_N_const in E
  end.
  rewrite !len_app. change (len MHIT) with 4. lia.
Qed.

(** The [byte_size] property agrees with the length of what [to_bytes]
    writes: always for a collision chunk and a raw chunk, and for a hit chunk
    whenever each phase holds as many floats as its point count says. *)
Theorem byte_size_is_length (c : chunk) (b : bytes) :
  chunk_to_bytes c = Ok b -> sized c -> len b = chunk_byte_size c.
Proof.
  destruct c as [e|e|magic raw]; cbn [chunk_to_bytes chunk_byte_size sized].
  - intros H Hs. apply mhit_to_bytes_len in H. rewrite H. unfold mhit_byte_size.
    rewrite (sum_N_ext _ phase_byte_size (mhit_phases e)); [reflexivity|].
    eapply Forall_impl; [|exact Hs]. intros ph Hph. cbn beta in *.
    rewrite Hph. unfold num_floats, phase_byte_size. lia.
  - intros H _. now apply mcol_to_bytes_len.
  - intros H _. apply Ok_inj in H. now subst.
Qed.


(** ** What the loader keeps *)

Lemma read_floats_length d n :
  forall off l, read_floats d n off = Ok l -> length l = n.
Proof.
  induction n as [|n IH]; intros off l H; cbn [read_floats] in H.
  - apply Ok_inj in H. now subst.
  - apply bind_inv in H. destruct H as (v & _ & H).
    apply bind_inv in H. destruct H as (t & Ht & H).
    apply Ok_inj in H. subst l. cbn [length]. f_equal. eapply IH, Ht.
Qed.

Lemma phase_from_bytes_sized d off ph :
  phase_from_bytes d off = Ok ph -> len (phase_get_floats ph) = num_floats ph.
Proof.
  unfold phase_from_bytes. intros H.
  apply bind_inv in H. destruct H as (pt & _ & H).
  apply bind_inv in H. destruct H as (bt & _ & H).
  apply bind_inv in H. destruct H as (floats & Hf & H).
  apply read_floats_length in Hf.
  destruct (N.eqb_spec bt 4) as [->|Hbt]; cbn [andb] in H.
  - destruct (len floats =? 8); apply Ok_inj in H; subst ph;
      unfold phase_get_floats, num_floats; cbn [_raw_floats bbox_type].
    + reflexivity.
    + unfold len. rewrite Hf. reflexivity.
  - apply Ok_inj in H. subst ph.
    unfold phase_get_floats, num_floats; cbn [_raw_floats bbox_type].
    unfold len. rewrite Hf. lia.
Qed.

Lemma read_hit_phases_sized d chunk_end n :
  forall cursor acc phs c',
    read_hit_phases d chunk_end n cursor acc = Ok (phs, c') ->
    Forall (fun ph => len (phase_get_floats ph) = num_floats ph) acc ->
    Forall (fun ph => len (phase_get_floats ph) = num_floats ph) phs.
Proof.
  induction n as [|n IH]; intros cursor acc phs c' H Ha; cbn [read_hit_phases] in H.
  - apply Ok_inj in H. injection H as <- _. exact Ha.
  - destruct (_ >? _) in H.
    { apply Ok_inj in H. injection H as <- _. exact Ha. }
    apply bind_inv in H. destruct H as (bt & _ & H).
    destruct (_ >? _) in H.
    { apply Ok_inj in H. injection H as <- _. exact Ha. }
    apply bind_inv in H. destruct H as (ph & Hp & H).
    apply IH in H; [exact H|]. apply Forall_app. split; [exact Ha|].
    constructor; [|constructor]. eapply phase_from_bytes_sized, Hp.
Qed.

Lemma mhit_from_bytes_sized d off size e :
  mhit_from_bytes d off size = Ok e -> sized (C_MHIT e).
Proof.
  unfold mhit_from_bytes. intros H.
  do 6 (apply bind_inv in H; destruct H as (? & _ & H)).
  apply bind_inv in H. destruct H as ([phs pc] & Hp & H).
  apply read_hit_phases_sized in Hp; [|constructor].
  destruct (_ <=? _) in H.
  - apply bind_inv in H. destruct H as (rc & _ & H).
    apply bind_inv in H. destruct H as (rh & _ & H).
    apply Ok_inj in H. subst e. exact Hp.
  - apply Ok_inj in H. subst e. exact Hp.
Qed.

Lemma read_segments_length d max_end n :
  forall si cursor acc segs c',
    read_segments d max_end n si cursor acc = Ok (inl (segs, c')) ->
    length segs = (length acc + n)%nat.
Proof.
  induction n as [|n IH]; intros si cursor acc segs c' H; cbn [read_segments] in H.
  - apply Ok_inj in H. injection H as <- _. lia.
  - destruct (_ >? _) in H; [discriminate|].
    apply bind_inv in H. destruct H as (seg & _ & H).
    destruct (_ >? _) in H; [discriminate|].
    destruct (negb _) in H; [discriminate|].
    apply IH in H. rewrite length_app in H. cbn [length] in H. lia.
Qed.

Lemma cp_from_bytes_range d offset max_end ph c' :
  cp_from_bytes d offset max_end = Ok (inl (ph, c')) -> 1 <= len (segments ph) <= 200.
Proof.
  intros H. pose proof (cp_from_bytes_ok _ _ _ _ _ H) as (_ & Hr & _).
  unfold cp_from_bytes in H.
  destruct (_ >? _) in H; [discriminate|].
  apply bind_inv in H. destruct H as (pt & _ & H).
  apply bind_inv in H. destruct H as (ns & Ens & H).
  apply unpack_I_inv in Ens. subst ns.
  destruct (_ || _) in H; [discriminate|].
  apply bind_inv in H. destruct H as (r & Er & H).
  destruct r as [[segs cur]|e]; [|discriminate].
  apply Ok_inj in H. injection H as <- _. cbn [segments].
  apply read_segments_length in Er. cbn [length] in Er. unfold len. lia.
Qed.

Lemma read_col_phases_range d max_end n :
  forall cursor acc phs c',
    read_col_phases d max_end n cursor acc = Ok (Some (phs, c')) ->
    Forall (fun ph => 1 <= len (segments ph) <= 200) acc ->
    Forall (fun ph => 1 <= len (segments ph) <= 200) phs.
Proof.
  induction n as [|n IH]; intros cursor acc phs c' H Ha; cbn [read_col_phases] in H.
  - apply Ok_inj in H. injection H as <- _. exact Ha.
  - apply bind_inv in H. destruct H as (r & Er & H).
    destruct r as [[ph cur]|e]; [|discriminate].
    apply IH in H; [exact H|]. apply Forall_app. split; [exact Ha|].
    constructor; [|constructor]. eapply cp_from_bytes_range, Er.
Qed.

Lemma mcol_from_bytes_range d off size e :
  mcol_from_bytes d off size = Ok (Some e) -> segments_in_range (C_MCOL e).
Proof.
  unfold mcol_from_bytes. intros H.
  do 6 (apply bind_inv in H; destruct H as (? & _ & H)).
  apply bind_inv in H. destruct H as (r & Hp & H).
  destruct r as [[phs cur]|]; [|discriminate].
  apply read_col_phases_range in Hp; [|constructor].
  apply bind_inv in H. destruct H as (rc & _ & H).
  apply Ok_inj in H. injection H as <-. exact Hp.
Qed.

Lemma tentative_shape d span c :
  tentative d span = Some c -> sized c /\ segments_in_range c.
Proof.
  destruct span as [[cpos cmagic] csize]. unfold tentative. intros H.
  destruct (bytes_eqb cmagic MHIT).
  - destruct (mhit_from_bytes d cpos csize) as [e| |] eqn:E; try discriminate.
    injection H as <-. split; [eapply mhit_from_bytes_sized, E | exact I].
  - destruct (bytes_eqb cmagic MCOL); [|discriminate].
    destruct (mcol_from_bytes d cpos csize) as [[e|]| |] eqn:E; try discriminate.
    injection H as <-. split; [exact I | eapply mcol_from_bytes_range, E].
Qed.

(** Every span starts with its four-byte tag and lies inside the buffer. *)
Lemma spans_in_buffer d lo cps :
  ascending d lo cps ->
  Forall (fun span => let '(p, _, sz) := span in 4 <= sz /\ p + sz <= len d)
    (spans_of d cps).
Proof.
  revert lo. induction cps as [|[p tg] rest IH]; intros lo Ha; cbn [spans_of];
    [constructor|].
  cbn [ascending] in Ha. destruct Ha as (Hlo & Hin & Hr).
  constructor; [|eapply IH, Hr].
  unfold chunk_size. destruct rest as [|[np ntg] rest']; [lia|].
  cbn [ascending] in Hr. lia.
Qed.

Lemma chunk_spans_in_buffer d :
  Forall (fun span => let '(p, _, sz) := span in 4 <= sz /\ p + sz <= len d)
    (chunk_spans d).
Proof.
  unfold chunk_spans. destruct (len d <? 12); [constructor|].
  destruct (_find_chunk_boundaries d) as [cps| |] eqn:E; try constructor.
  eapply spans_in_buffer, find_chunk_boundaries_ascending, E.
Qed.

Lemma Forall2_Forall_l {A B} (R : A -> B -> Prop) (P : A -> Prop) (Q : A -> B -> Prop) l l' :
  Forall2 R l l' -> Forall P l -> (forall a b, R a b -> P a -> Q a b) -> Forall2 Q l l'.
Proof.
  intros H. induction H as [|a b l l' Hab _ IH]; intros HP HQ; [constructor|].
  inversion HP; subst. constructor; auto.
Qed.

Lemma load_verified_or_raw d :
  exists m, load d = Ok m /\ Forall2 (verified_or_raw d) (chunk_spans d) (chunks m).
Proof.
  destruct (load_chunks_eq d) as (m & Hl & Hc). exists m. split; [exact Hl|].
  rewrite Hc. unfold chunk_spans. destruct (len d <? 12); [constructor|].
  destruct (_find_chunk_boundaries d); try constructor.
  apply load_chunks_verified.
Qed.

(** For every chunk that [load] keeps, [byte_size] is the size of the span
    of the chunk in the buffer, which is at least the four bytes of the tag.
    A hit chunk kept in structured form holds in each phase as many floats
    as its point count says, and a collision chunk kept in structured form
    has between 1 and 200 segments in each phase. *)
Theorem loaded_chunk_sizes (d : bytes) :
  exists m,
    load d = Ok m /\
    Forall2 (fun span c =>
               chunk_byte_size c = snd span /\ 4 <= snd span /\
               fst (fst span) + snd span <= len d /\
               sized c /\ segments_in_range c)
      (chunk_spans d) (chunks m).
Proof.
  destruct (load_verified_or_raw d) as (m & Hl & HF). exists m. split; [exact Hl|].
  apply (Forall2_Forall_l _ _ _ _ _ HF (chunk_spans_in_buffer d)).
  intros [[p tg] sz] c Hv (H4 & Hin). cbn [fst snd].
  assert (Hraw : len (raw_slice d (p, tg, sz)) = sz).
  { unfold raw_slice. rewrite slice_len by lia. lia. }
  destruct Hv as [(Hs & Ht & Hb) | (-> & _)].
  - destruct (tentative_shape _ _ _ Ht) as (Hsz & Hrg).
    rewrite <- (byte_size_is_length _ _ Hb Hsz). auto.
  - cbn [snd fst chunk_byte_size sized segments_in_range]. auto.
Qed.


(** ** The raw view of a chunk *)

Lemma slice_slice {A} (d : list A) p q a b :
  p + b <= q -> slice (slice d p q) a b = slice d (p + a) (p + b).
Proof.
  intros H. unfold slice. rewrite skipn_firstn_comm, firstn_firstn, skipn_skipn.
  f_equal; [lia | f_equal; lia].
Qed.

Lemma unpack_I_slice d p sz k :
  k + 4 <= sz -> p + sz <= len d ->
  unpack_from_I (slice d p (p + sz)) k = unpack_from_I d (p + k).
Proof.
  intros Hk Hin. unfold unpack_from_I. rewrite slice_len by lia.
  destruct (N.leb_spec (k + 4) (p + sz - p)); [|lia].
  destruct (N.leb_spec (p + k + 4) (len d)); [|lia].
  rewrite slice_slice by lia. replace (p + (k + 4)) with (p + k + 4) by lia. reflexivity.
Qed.

Lemma unpack_f_slice d p sz k :
  k + 4 <= sz -> p + sz <= len d ->
  unpack_from_f (slice d p (p + sz)) k = unpack_from_f d (p + k).
Proof.
  intros Hk Hin. unfold unpack_from_f. now rewrite unpack_I_slice.
Qed.

Lemma raw_header_words d p sz ah eh st et :
  p + sz <= len d ->
  unpack_from_I d (p + 4) = Ok ah -> unpack_from_I d (p + 8) = Ok eh ->
  unpack_from_f d (p + 12) = Ok st -> unpack_from_f d (p + 16) = Ok et ->
  (8 <= sz -> raw_anim_hash (slice d p (p + sz)) = Ok ah) /\
  (12 <= sz -> raw_event_hash (slice d p (p + sz)) = Ok eh) /\
  (16 <= sz -> raw_start_time (slice d p (p + sz)) = Ok st) /\
  (20 <= sz -> raw_end_time (slice d p (p + sz)) = Ok et).
Proof.
  intros Hin H1 H2 H3 H4.
  unfold raw_anim_hash, raw_event_hash, raw_start_time, raw_end_time.
  rewrite slice_len by lia. replace (p + sz - p) with sz by lia.
  repeat split; intros Hs.
  - destruct (N.leb_spec 8 sz); [|lia]. now rewrite unpack_I_slice by lia.
  - destruct (N.leb_spec 12 sz); [|lia]. now rewrite unpack_I_slice by lia.
  - destruct (N.leb_spec 16 sz); [|lia]. now rewrite unpack_f_slice by lia.
  - destruct (N.leb_spec 20 sz); [|lia]. now rewrite unpack_f_slice by lia.
Qed.

(** The accessors of a raw chunk never raise, and on the bytes of a span
    that lies inside the buffer they give the same animation hash, event
    hash, start time and end time as the structured decode of that span
    does, as far as the span is long enough to hold the word. *)
Theorem raw_view_agrees (d : bytes) (cpos csize : N) :
  (forall raw, exists a e s t,
     raw_anim_hash raw = Ok a /\ raw_event_hash raw = Ok e /\
     raw_start_time raw = Ok s /\ raw_end_time raw = Ok t) /\
  (cpos + csize <= len d ->
   (forall e, mhit_from_bytes d cpos csize = Ok e ->
      (8 <= csize -> raw_anim_hash (slice d cpos (cpos + csize)) = Ok (mhit_anim_hash e)) /\
      (12 <= csize -> raw_event_hash (slice d cpos (cpos + csize)) = Ok (mhit_event_hash e)) /\
      (16 <= csize -> raw_start_time (slice d cpos (cpos + csize)) = Ok (mhit_start_time e)) /\
      (20 <= csize -> raw_end_time (slice d cpos (cpos + csize)) = Ok (mhit_end_time e))) /\
   (forall e, mcol_from_bytes d cpos csize = Ok (Some e) ->
      (8 <= csize -> raw_anim_hash (slice d cpos (cpos + csize)) = Ok (mcol_anim_hash e)) /\
      (12 <= csize -> raw_event_hash (slice d cpos (cpos + csize)) = Ok (mcol_event_hash e)) /\
      (16 <= csize -> raw_start_time (slice d cpos (cpos + csize)) = Ok (mcol_start_time e)) /\
      (20 <= csize -> raw_end_time (slice d cpos (cpos + csize)) = Ok (mcol_end_time e)))).
Proof.
  split.
  - intros raw. unfold raw_anim_hash, raw_event_hash, raw_start_time, raw_end_time,
      unpack_from_f, unpack_from_I.
    destruct (N.leb_spec 8 (len raw)); destruct (N.leb_spec 12 (len raw));
      destruct (N.leb_spec 16 (len raw)); destruct (N.leb_spec 20 (len raw)); try lia;
      repeat match goal with
      | |- context [?a + 4 <=? len raw] => destruct (N.leb_spec (a + 4) (len raw)); [|lia]
      end; cbn [bind]; eauto 10.
  - intros Hin. split.
    + intros e H. unfold mhit_from_bytes in H.
      apply bind_inv in H. destruct H as (ah & H1 & H).
      apply bind_inv in H. destruct H as (eh & H2 & H).
      apply bind_inv in H. destruct H as (st & H3 & H).
      apply bind_inv in H. destruct H as (et & H4 & H).
      do 2 (apply bind_inv in H; destruct H as (? & _ & H)).
      apply bind_inv in H. destruct H as ([phs pc] & _ & H).
      assert (He : mhit_anim_hash e = ah /\ mhit_event_hash e = eh /\
                   mhit_start_time e = st /\ mhit_end_time e = et).
      { destruct (_ <=? _) in H.
        - apply bind_inv in H. destruct H as (rc & _ & H).
          apply bind_inv in H. destruct H as (rh & _ & H).
          apply Ok_inj in H. subst e. cbn. auto.
        - apply Ok_inj in H. subst e. cbn. auto. }
      destruct He as (-> & -> & -> & ->).
      now apply raw_header_words.
    + intros e H. unfold mcol_from_bytes in H.
      apply bind_inv in H. destruct H as (ah & H1 & H).
      apply bind_inv in H. destruct H as (eh & H2 & H).
      apply bind_inv in H. destruct H as (st & H3 & H).
      apply bind_inv in H. destruct H as (et & H4 & H).
      do 2 (apply bind_inv in H; destruct H as (? & _ & H)).
      apply bind_inv in H. destruct H as (r & _ & H).
      destruct r as [[phs cur]|]; [|discriminate].
      apply bind_inv in H. destruct H as (rc & _ & H).
      apply Ok_inj in H. injection H as <-. cbn [mcol_anim_hash mcol_event_hash
        mcol_start_time mcol_end_time].
      now apply raw_header_words.
Qed.


(** ** Interchange *)

Lemma hex_val_HEX_digit v : v < 16 -> hex_val (HEX_digit v) = Some v.
Proof.
  intros H.
  assert (C : v = 0 \/ v = 1 \/ v = 2 \/ v = 3 \/ v = 4 \/ v = 5 \/ v = 6 \/ v = 7 \/
              v = 8 \/ v = 9 \/ v = 10 \/ v = 11 \/ v = 12 \/ v = 13 \/ v = 14 \/ v = 15)
    by lia.
  repeat (destruct C as [->|C]; [reflexivity|]). subst v. reflexivity.
Qed.

Lemma hex_value_HEX_digits k :
  forall n acc a,
    hex_value (HEX_digits k n acc) a = hex_value acc (a * 16 ^ N.of_nat k + n mod 16 ^ N.of_nat k).
Proof.
  induction k as [|k IH]; intros n acc a.
  - cbn [HEX_digits]. change (16 ^ N.of_nat 0) with 1. rewrite N.mod_1_r. f_equal. lia.
  - cbn [HEX_digits]. rewrite IH. cbn [hex_value].
    rewrite hex_val_HEX_digit by (apply N.mod_lt; lia). f_equal.
    rewrite Nat2N.inj_succ, N.pow_succ_r'.
    rewrite (N.Div0.mod_mul_r n 16 (16 ^ N.of_nat k)). lia.
Qed.

Lemma HEX_digits_nonempty k n acc :
  acc <> EmptyString -> HEX_digits k n acc <> EmptyString.
Proof.
  revert n acc. induction k as [|k IH]; intros n acc H; cbn [HEX_digits]; [exact H|].
  apply IH. discriminate.
Qed.

Lemma hex_width_covers n : n < 16 ^ N.of_nat (hex_width n).
Proof.
  unfold hex_width.
  assert (H16 : forall k, 16 ^ k = 2 ^ (4 * k)).
  { intros k. rewrite N.pow_mul_r. reflexivity. }
  rewrite H16.
  destruct (N.eq_dec n 0) as [->|Hn].
  { apply N.lt_le_trans with (2 ^ 0); [cbn; lia|]. apply N.pow_le_mono_r; lia. }
  apply N.lt_le_trans with (2 ^ N.succ (N.log2 n)).
  - apply N.log2_spec. lia.
  - apply N.pow_le_mono_r; [lia|].
    pose proof (N.Div0.mod_le (N.log2 n) 4).
    pose proof (N.div_mod (N.log2 n) 4 ltac:(lia)).
    pose proof (N.mod_lt (N.log2 n) 4 ltac:(lia)). lia.
Qed.

(** [int(s, 16)] reads back what [f"0x{n:08X}"] wrote. *)
Lemma int_16_fmt_08X n : int_16 (fmt_08X n) = Ok n.
Proof.
  unfold int_16, fmt_08X.
  assert (Hw : exists k, hex_width n = S k).
  { unfold hex_width. destruct (Nat.max 8 _) eqn:E; [lia | eauto]. }
  destruct Hw as (k & Hw).
  assert (Hne : HEX_digits (hex_width n) n EmptyString <> EmptyString).
  { rewrite Hw. cbn [HEX_digits]. apply HEX_digits_nonempty. discriminate. }
  pose proof (hex_value_HEX_digits (hex_width n) n EmptyString 0) as Hv.
  cbn [hex_value] in Hv. rewrite N.mul_0_l, N.add_0_l in Hv.
  rewrite N.mod_small in Hv by apply hex_width_covers.
  destruct (HEX_digits (hex_width n) n EmptyString) as [|c t] eqn:E; [congruence|].
  rewrite Hv. reflexivity.
Qed.

Lemma fromhex_or_empty_hex b : fromhex_or_empty (hex b) = Ok b.
Proof.
  unfold fromhex_or_empty. rewrite nonempty_hex. destruct b; [reflexivity|].
  apply fromhex_hex.
Qed.

Lemma map_res_map {A B C} (f : B -> res C) (g : A -> B) (h : A -> C) l :
  (forall x, In x l -> f (g x) = Ok (h x)) -> map_res f (map g l) = Ok (map h l).
Proof.
  induction l as [|x l IH]; intros H; cbn [map map_res]; [reflexivity|].
  rewrite H by now left. cbn [bind]. rewrite IH by (intros; apply H; now right).
  reflexivity.
Qed.

Lemma map_res_Ok {A B} (f : A -> res B) (h : A -> B) l :
  (forall x, In x l -> f x = Ok (h x)) -> map_res f l = Ok (map h l).
Proof.
  intros H. rewrite <- (map_id l) at 1. now apply map_res_map.
Qed.

Lemma map_id_on {A} (f : A -> A) l : (forall x, f x = x) -> map f l = l.
Proof.
  intros H. induction l as [|x l IH]; cbn [map]; [reflexivity|]. now rewrite H, IH.
Qed.

Lemma decode_ascii_Ok bs :
  Forall (fun b => Byte.to_N b < 128) bs -> decode_ascii bs = Ok (map Byte.to_N bs).
Proof.
  intros H. unfold decode_ascii.
  replace (forallb (fun b => Byte.to_N b <? 128) bs) with true; [reflexivity|].
  symmetry. apply forallb_forall. rewrite Forall_forall in H. intros b Hb.
  apply N.ltb_lt. now apply H.
Qed.

Lemma raw_view_agrees_total raw :
  exists a e s t,
    raw_anim_hash raw = Ok a /\ raw_event_hash raw = Ok e /\
    raw_start_time raw = Ok s /\ raw_end_time raw = Ok t.
Proof.
  unfold raw_anim_hash, raw_event_hash, raw_start_time, raw_end_time,
    unpack_from_f, unpack_from_I.
  destruct (N.leb_spec 8 (len raw)); destruct (N.leb_spec 12 (len raw));
    destruct (N.leb_spec 16 (len raw)); destruct (N.leb_spec 20 (len raw)); try lia;
    repeat match goal with
    | |- context [?a + 4 <=? len raw] => destruct (N.leb_spec (a + 4) (len raw)); [|lia]
    end; cbn [bind]; eauto 10.
Qed.

Lemma map_id_on_In {A} (f : A -> A) l : (forall x, In x l -> f x = x) -> map f l = l.
Proof.
  induction l as [|x l IH]; intros H; cbn [map]; [reflexivity|].
  rewrite H by now left. rewrite IH by (intros; apply H; now right). reflexivity.
Qed.

(** What export followed by import does to one chunk. *)
Lemma interchange_chunk ah c :
  well_tagged c ->
  exists j, export_chunk c = Ok j /\ import_chunk ah j = Ok (rehash ah c).
Proof.
  destruct c as [e|e|magic raw]; cbn [well_tagged export_chunk]; intros Hw.
  - eexists. split; [reflexivity|]. cbn [import_chunk].
    rewrite int_16_fmt_08X. cbn [bind].
    rewrite (map_res_map int_16 fmt_08X (fun x => x))
      by (intros; apply int_16_fmt_08X).
    cbn [bind]. rewrite map_id, fromhex_or_empty_hex. cbn [bind].
    rewrite map_map, (map_id_on (fun ph => import_phase (export_phase ph)))
      by (intros []; reflexivity).
    reflexivity.
  - eexists. split; [reflexivity|]. cbn [import_chunk].
    rewrite !int_16_fmt_08X. cbn [bind]. rewrite map_map.
    rewrite (map_id_on (fun ph => mkColPhase _ _)) by (intros []; reflexivity).
    destruct e; reflexivity.
  - destruct Hw as (Hs & Ha). unfold raw_chunk_type. rewrite (decode_ascii_Ok _ Ha).
    cbn [bind].
    destruct (raw_view_agrees_total raw) as (a & e & s & t & _ & He & Hst & Het).
    rewrite He, Hst, Het. cbn [bind]. eexists. split; [reflexivity|].
    cbn [import_chunk]. rewrite fromhex_hex. cbn [bind rehash]. now rewrite Hs.
Qed.

Lemma interchange_chunks ah cs :
  Forall well_tagged cs ->
  exists js, map_res export_chunk cs = Ok js /\
             map_res (import_chunk ah) js = Ok (map (rehash ah) cs).
Proof.
  induction 1 as [|c cs Hc _ IH]; cbn [map_res map].
  - exists []. split; reflexivity.
  - destruct (interchange_chunk ah c Hc) as (j & Hj & Hi).
    destruct IH as (js & Hjs & His).
    exists (j :: js). rewrite Hj. cbn [bind]. rewrite Hjs. cbn [bind].
    split; [reflexivity|]. cbn [map_res]. rewrite Hi. cbn [bind]. rewrite His. reflexivity.
Qed.

(** Export followed by import, on a document whose raw chunks start with
    their own ASCII tag: every field comes back as it was, except that each
    hit chunk now carries the animation hash of the container and the chunk
    count is the number of chunks. *)
Lemma interchange_well_tagged m :
  Forall well_tagged (chunks m) ->
  interchange m =
    Ok (mkMeta (version m) (anim_hash m) (len (chunks m))
          (map (rehash (anim_hash m)) (chunks m)) (_trailing_bytes m)).
Proof.
  intros Hw. unfold interchange, export_json, import_json.
  destruct (interchange_chunks (anim_hash m) (chunks m) Hw) as (js & Hjs & His).
  rewrite Hjs. cbn [bind jd_anim_hash jd_trailing_hex jd_chunks jd_version].
  rewrite int_16_fmt_08X. cbn [bind]. rewrite fromhex_or_empty_hex. cbn [bind].
  rewrite His. cbn [bind]. now rewrite len_map.
Qed.

Lemma loaded_well_tagged d m : load d = Ok m -> Forall well_tagged (chunks m).
Proof.
  intros Hl. destruct (load_verified_or_raw d) as (m' & Hl' & HF).
  rewrite Hl in Hl'. apply Ok_inj in Hl'. subst m'.
  pose proof (chunk_spans_in_buffer d) as Hb.
  assert (Ht : Forall (fun span => let '(p, tg, _) := span in
                                   tg = slice d p (p + 4) /\ In tg CHUNK_MAGICS)
                 (chunk_spans d)).
  { unfold chunk_spans. destruct (len d <? 12); [constructor|].
    destruct (_find_chunk_boundaries d) as [cps| |] eqn:E; try constructor.
    unfold _find_chunk_boundaries in E.
    pose proof (boundaries_loop_exact _ _ _ _ _ E) as Hx.
    assert (Hall : forall q tag, In (q, tag) cps ->
                     tag = slice d q (q + 4) /\ In tag CHUNK_MAGICS).
    { intros q tag Hi. apply Hx in Hi. cbn [In] in Hi.
      destruct Hi as [[]|(_ & _ & H1 & H2)]. split; [exact H1|].
      now apply is_chunk_magic_In. }
    clear E Hx. induction cps as [|[p tg] rest IH]; cbn [spans_of]; constructor.
    - apply Hall. now left.
    - apply IH. intros q tag Hi. apply Hall. now right. }
  revert Hb Ht. induction HF as [|span c spans cs Hv _ IH]; intros Hb Ht; constructor.
  - inversion Hb as [|? ? Hb1 _]; inversion Ht as [|? ? Ht1 _]; subst.
    destruct span as [[p tg] sz]. destruct Hb1 as (H4 & Hin). destruct Ht1 as (Htg & HM).
    destruct Hv as [(Hs & _) | (-> & _)].
    + destruct c; try exact I. discriminate Hs.
    + cbn [well_tagged fst snd raw_slice]. split.
      * rewrite slice_slice by lia. rewrite N.add_0_r. now symmetry.
      * destruct HM as [<-|[<-|[<-|[]]]]; repeat constructor.
  - inversion Hb; inversion Ht; subst. now apply IH.
Qed.

(** Export to JSON followed by import, on a loaded document, never fails
    and gives back the version, the hash, the trailing bytes and every chunk
    as they were, except that each hit chunk now carries the animation hash
    of the container; the chunk count becomes the number of chunks.  So the
    document comes back structurally equal exactly when every hit chunk
    already carried the hash of the container. *)
Theorem interchange_of_loaded (d : bytes) (m : CAnimMeta) :
  load d = Ok m ->
  interchange m =
    Ok (mkMeta (version m) (anim_hash m) (len (chunks m))
          (map (rehash (anim_hash m)) (chunks m)) (_trailing_bytes m)) /\
  ((exists m', interchange m = Ok m' /\ same_document m' m) <->
   (forall e, In (C_MHIT e) (chunks m) -> mhit_anim_hash e = anim_hash m)).
Proof.
  intros Hl. pose proof (interchange_well_tagged m (loaded_well_tagged d m Hl)) as Hi.
  split; [exact Hi|]. rewrite Hi. split.
  - intros (m' & Hm' & _ & _ & Hc & _) e He. apply Ok_inj in Hm'. subst m'.
    cbn [chunks] in Hc.
    assert (Hr : rehash (anim_hash m) (C_MHIT e) = C_MHIT e).
    { clear Hi Hl. induction (chunks m) as [|c cs IH]; [destruct He|].
      cbn [map] in Hc. injection Hc as Hc1 Hc2. destruct He as [->|He]; auto. }
    apply (f_equal (fun c => match c with C_MHIT x => mhit_anim_hash x | _ => 0 end)) in Hr.
    cbn in Hr. now symmetry.
  - intros Hall. eexists. split; [reflexivity|].
    unfold same_document. cbn [version anim_hash chunks _trailing_bytes].
    repeat split. apply map_id_on_In. intros c Hc.
    destruct c as [e| |]; try reflexivity. cbn [rehash].
    rewrite <- (Hall e Hc). destruct e; reflexivity.
Qed.


(** ** Duplicating and deleting chunks *)

Lemma dup_phase_id ph : dup_phase ph = ph <-> _raw_floats ph <> Some [].
Proof.
  destruct ph as [t bt raw a b c e]. unfold dup_phase. cbn [_raw_floats phase_time
    bbox_type minX minY maxX maxY].
  destruct raw as [[|x l]|]; split; intros H; try reflexivity; try discriminate;
    try congruence.
Qed.

Lemma map_id_iff {A} (f : A -> A) l : map f l = l <-> Forall (fun x => f x = x) l.
Proof.
  induction l as [|x l IH]; cbn [map]; split; intros H; try constructor; try reflexivity.
  - now injection H.
  - apply IH. now injection H.
  - inversion H as [|? ? H1 H2]; subst. rewrite H1. f_equal. now apply IH.
Qed.

Lemma dup_chunk_id c : dup_chunk c = c <-> no_empty_raw c.
Proof.
  destruct c as [e|e|magic raw]; cbn [dup_chunk no_empty_raw].
  - split.
    + intros H.
      apply (f_equal (fun c => match c with C_MHIT x => mhit_phases x | _ => [] end)) in H.
      cbn in H. apply map_id_iff in H. eapply Forall_impl; [|exact H].
      intros ph. apply dup_phase_id.
    + intros H. destruct e as [a b c d0 e0 phs r x]. cbn. do 2 f_equal.
      apply map_id_iff. eapply Forall_impl; [|exact H]. intros ph. apply dup_phase_id.
  - split; [auto|]. intros _. destruct e as [a b c d0 e0 phs r]. cbn. do 2 f_equal.
    apply map_id_on. intros [t segs]. cbn. f_equal. apply map_id_on. intros []. reflexivity.
  - tauto.
Qed.

Lemma py_norm_Ok n i k : py_norm n i = Ok k -> (k < N.to_nat n)%nat.
Proof.
  unfold py_norm. destruct (Z.ltb_spec i 0) as [Hi|Hi];
    match goal with |- context [(?a && ?b)%bool] => destruct a eqn:E1; destruct b eqn:E2 end;
    cbn [andb]; intros Hx; try discriminate; apply Ok_inj in Hx; subst k;
    apply Z.leb_le in E1; apply Z.ltb_lt in E2; lia.
Qed.

Lemma nth_error_in_range {A} (l : list A) k :
  (k < length l)%nat -> exists x, nth_error l k = Some x.
Proof.
  intros H. destruct (nth_error l k) eqn:E; [eauto|].
  apply nth_error_None in E. lia.
Qed.

(** [cmd_dup] appends one chunk and changes nothing else (the stored chunk
    count included).  The chunk appended is equal to the chunk addressed,
    and so is written as the same bytes, exactly when no hit phase of that
    chunk holds an empty list of raw floats: the copy of such a phase has no
    raw floats at all and is written with the eight floats of a rectangle. *)
Theorem cmd_dup_copy (meta : CAnimMeta) (entry : Z) (meta' : CAnimMeta) :
  cmd_dup meta entry = Ok meta' ->
  exists k c,
    (k < length (chunks meta))%nat /\ nth_error (chunks meta) k = Some c /\
    meta' = with_chunks meta (chunks meta ++ [dup_chunk c]) /\
    (dup_chunk c = c <-> no_empty_raw c) /\
    (no_empty_raw c -> chunk_to_bytes (dup_chunk c) = chunk_to_bytes c) /\
    (forall ph, _raw_floats ph = Some [] ->
       phase_get_floats ph = [] /\ len (phase_get_floats (dup_phase ph)) = 8).
Proof.
  unfold cmd_dup. intros H. apply bind_inv in H. destruct H as (k & Hk & H).
  apply py_norm_Ok in Hk. unfold len in Hk. rewrite Nat2N.id in Hk.
  destruct (nth_error (chunks meta) k) as [c|] eqn:E; [|discriminate].
  apply Ok_inj in H. subst meta'. exists k, c.
  split; [exact Hk|]. split; [exact E|]. split; [reflexivity|].
  split; [apply dup_chunk_id|]. split.
  - intros Hn. apply dup_chunk_id in Hn. now rewrite Hn.
  - intros ph Hr. unfold phase_get_floats, dup_phase. cbn [_raw_floats].
    rewrite Hr. split; reflexivity.
Qed.

Lemma cmd_dup_shape meta e meta' :
  cmd_dup meta e = Ok meta' ->
  exists c, meta' = with_chunks meta (chunks meta ++ [dup_chunk c]).
Proof.
  unfold cmd_dup. intros H. apply bind_inv in H. destruct H as (k & _ & H).
  destruct (nth_error (chunks meta) k) as [c|]; [|discriminate].
  apply Ok_inj in H. eauto.
Qed.

Lemma remove_last {A} (l : list A) x : remove_nth (length l) (l ++ [x]) = l.
Proof.
  unfold remove_nth. rewrite firstn_app, Nat.sub_diag, firstn_all. cbn [firstn].
  rewrite app_nil_r. rewrite skipn_all2; [apply app_nil_r|].
  rewrite length_app. cbn [length]. lia.
Qed.

Lemma length_remove_nth {A} (l : list A) k :
  (k < length l)%nat -> length (remove_nth k l) = (length l - 1)%nat.
Proof.
  intros H. unfold remove_nth. rewrite length_app, length_firstn, length_skipn. lia.
Qed.

(** [cmd_del] takes the entry number the way Python indexes a list: the
    numbers 1 to n delete that entry, the number 0 deletes the last entry,
    a negative number counts further from the end, and any other number
    raises [IndexError] and leaves the container as it was.  A deletion
    removes exactly one chunk, also when the message that names the removed
    chunk fails.  Deleting the entry that [cmd_dup] has just appended gives
    back the container as it was before. *)
Theorem cmd_del_entry (meta : CAnimMeta) (entry : Z) :
  let n := Z.of_N (len (chunks meta)) in
  ((1 <= entry <= n)%Z ->
   fst (cmd_del meta entry)
   = with_chunks meta (remove_nth (Z.to_nat (entry - 1)) (chunks meta))) /\
  ((- n < entry <= 0)%Z ->
   fst (cmd_del meta entry)
   = with_chunks meta (remove_nth (Z.to_nat (n + entry - 1)) (chunks meta))) /\
  ((- n < entry <= n)%Z ->
   len (chunks (fst (cmd_del meta entry))) = len (chunks meta) - 1) /\
  ((n < entry \/ entry <= - n)%Z -> cmd_del meta entry = (meta, Raise IndexError)) /\
  (forall e meta', cmd_dup meta e = Ok meta' -> fst (cmd_del meta' (n + 1)) = meta).
Proof.
  cbv zeta. set (n := Z.of_N (len (chunks meta))).
  assert (Hpos : forall k, (k < length (chunks meta))%nat ->
            forall i, py_norm (len (chunks meta)) i = Ok k ->
            fst (cmd_del meta (i + 1)) = with_chunks meta (remove_nth k (chunks meta))).
  { intros k Hk i Hi. unfold cmd_del. replace (i + 1 - 1)%Z with i by lia. rewrite Hi.
    destruct (nth_error_in_range _ _ Hk) as (x & ->). reflexivity. }
  assert (Hlen : Z.of_N (len (chunks meta)) = Z.of_nat (length (chunks meta))).
  { unfold len. lia. }
  assert (H1 : (1 <= entry <= n)%Z ->
            fst (cmd_del meta entry)
            = with_chunks meta (remove_nth (Z.to_nat (entry - 1)) (chunks meta))).
  { intros H. replace entry with (entry - 1 + 1)%Z at 1 by lia. apply Hpos; [unfold n in *; lia|].
    unfold py_norm. fold n. destruct (Z.ltb_spec (entry - 1) 0); [lia|].
    destruct (Z.leb_spec 0 (entry - 1)); [|lia].
    destruct (Z.ltb_spec (entry - 1) n); [|lia]. reflexivity. }
  assert (H2 : (- n < entry <= 0)%Z ->
            fst (cmd_del meta entry)
            = with_chunks meta (remove_nth (Z.to_nat (n + entry - 1)) (chunks meta))).
  { intros H. replace entry with (entry - 1 + 1)%Z at 1 by lia. apply Hpos; [unfold n in *; lia|].
    unfold py_norm. fold n. destruct (Z.ltb_spec (entry - 1) 0); [|lia].
    destruct (Z.leb_spec 0 (entry - 1 + n)); [|lia].
    destruct (Z.ltb_spec (entry - 1 + n) n); [|lia]. cbn [andb]. do 2 f_equal. lia. }
  split; [exact H1|]. split; [exact H2|]. split; [|split].
  - intros H. destruct (Z.le_gt_cases entry 0).
    + rewrite H2 by lia. cbn [chunks with_chunks]. unfold len.
      rewrite length_remove_nth by (unfold n in *; lia). lia.
    + rewrite H1 by lia. cbn [chunks with_chunks]. unfold len.
      rewrite length_remove_nth by (unfold n in *; lia). lia.
  - intros H. unfold cmd_del, py_norm. fold n.
    destruct (Z.ltb_spec (entry - 1) 0).
    + destruct (Z.leb_spec 0 (entry - 1 + n)); [|reflexivity].
      destruct (Z.ltb_spec (entry - 1 + n) n); [lia|reflexivity].
    + destruct (Z.leb_spec 0 (entry - 1)); [|lia].
      destruct (Z.ltb_spec (entry - 1) n); [lia|reflexivity].
  - intros e meta' Hd. apply cmd_dup_shape in Hd. destruct Hd as (c & ->).
    unfold cmd_del, py_norm. cbn [chunks with_chunks].
    replace (n + 1 - 1)%Z with n by lia.
    destruct (Z.ltb_spec n 0); [unfold n in *; lia|].
    destruct (Z.leb_spec 0 n); [|lia].
    destruct (Z.ltb_spec n (Z.of_N (len (chunks meta ++ [dup_chunk c])))).
    2:{ rewrite len_app, len_cons, len_nil in *. unfold n in *. lia. }
    cbn [andb]. replace (Z.to_nat n) with (length (chunks meta)) by (unfold n; lia).
    rewrite nth_error_app2, Nat.sub_diag by lia. cbn [nth_error fst].
    rewrite remove_last. unfold with_chunks. cbn. destruct meta; reflexivity.
Qed.


(** ** Editing the time window *)

Lemma slice_from_app {A} (x y : list A) : slice_from (x ++ y) (len x) = y.
Proof.
  unfold slice_from, len. rewrite Nat2N.id, skipn_app, Nat.sub_diag, skipn_all.
  reflexivity.
Qed.

Lemma swap_times tag ah eh st et s e rest b bs be :
  len tag = 4 ->
  cat (Ok tag) (cat (pack_I ah) (cat (pack_I eh)
    (cat (pack_f st) (cat (pack_f et) rest)))) = Ok b ->
  pack_f s = Ok bs -> pack_f e = Ok be ->
  cat (Ok tag) (cat (pack_I ah) (cat (pack_I eh)
    (cat (pack_f s) (cat (pack_f e) rest))))
  = Ok (slice b 0 12 ++ bs ++ be ++ slice_from b 20).
Proof.
  intros Ht H Hs He.
  apply cat_Ok in H. destruct H as (x0 & y0 & H0 & H & ->). apply Ok_inj in H0. subst x0.
  apply cat_Ok in H. destruct H as (x1 & y1 & H1 & H & ->).
  apply cat_Ok in H. destruct H as (x2 & y2 & H2 & H & ->).
  apply cat_Ok in H. destruct H as (x3 & y3 & H3 & H & ->).
  apply cat_Ok in H. destruct H as (x4 & r & H4 & H & ->).
  rewrite H1, H2, Hs, He, H. unfold cat. cbn [bind].
  apply pack_I_len in H1, H2. apply pack_f_len in H3, H4.
  f_equal.
  replace (tag ++ x1 ++ x2 ++ x3 ++ x4 ++ r)
    with ((tag ++ x1 ++ x2) ++ (x3 ++ x4 ++ r)) by now rewrite <- !app_assoc.
  replace 12 with (len (tag ++ x1 ++ x2)) at 1 by (rewrite !len_app; lia).
  rewrite CanimProps.slice_prefix.
  replace ((tag ++ x1 ++ x2) ++ x3 ++ x4 ++ r)
    with ((tag ++ x1 ++ x2 ++ x3 ++ x4) ++ r) by now rewrite <- !app_assoc.
  replace 20 with (len (tag ++ x1 ++ x2 ++ x3 ++ x4)) by (rewrite !len_app; lia).
  rewrite slice_from_app. now rewrite <- !app_assoc.
Qed.

Lemma nth_error_set_nth {A} (l : list A) x :
  forall k j, (k < length l)%nat ->
    nth_error (set_nth k x l) j = if Nat.eqb j k then Some x else nth_error l j.
Proof.
  unfold set_nth. induction l as [|a l IH]; intros k j Hk; [cbn in Hk; lia|].
  destruct k as [|k]; destruct j as [|j]; cbn; try reflexivity.
  apply IH. cbn in Hk. lia.
Qed.

Lemma length_set_nth {A} (l : list A) x k :
  (k < length l)%nat -> length (set_nth k x l) = length l.
Proof.
  intros H. unfold set_nth. rewrite length_app. cbn [length].
  rewrite length_firstn, length_skipn. lia.
Qed.

(** [cmd_time] changes one chunk and nothing else.  On a structured chunk
    it replaces the two time fields, so that the chunk is written as before
    except for the eight bytes at offsets 12 to 19, which are the two new
    times; a raw chunk is left as it is. *)
Theorem cmd_time_bytes (meta : CAnimMeta) (entry : Z) (s e : float) (meta' : CAnimMeta) :
  cmd_time meta entry s e = Ok meta' ->
  exists k c c',
    nth_error (chunks meta) k = Some c /\
    nth_error (chunks meta') k = Some c' /\
    length (chunks meta') = length (chunks meta) /\
    (forall j, j <> k -> nth_error (chunks meta') j = nth_error (chunks meta) j) /\
    meta' = with_chunks meta (chunks meta') /\
    (structured c = false -> c' = c) /\
    (structured c = true ->
     forall b bs be,
       chunk_to_bytes c = Ok b -> pack_f s = Ok bs -> pack_f e = Ok be ->
       chunk_to_bytes c' = Ok (slice b 0 12 ++ bs ++ be ++ slice_from b 20)).
Proof.
  unfold cmd_time. intros H. apply bind_inv in H. destruct H as (k & Hk & H).
  apply py_norm_Ok in Hk. unfold len in Hk. rewrite Nat2N.id in Hk.
  destruct (nth_error (chunks meta) k) as [c|] eqn:E; [|discriminate].
  apply bind_inv in H. destruct H as (c' & Hc & H). apply Ok_inj in H. subst meta'.
  exists k, c, c'. cbn [chunks with_chunks].
  split; [exact E|]. split; [rewrite nth_error_set_nth, Nat.eqb_refl by lia; reflexivity|].
  split; [now apply length_set_nth|]. split.
  { intros j Hj. rewrite nth_error_set_nth by lia.
    destruct (Nat.eqb_spec j k); [contradiction | reflexivity]. }
  split; [reflexivity|].
  destruct c as [h|m|magic raw]; cbn [chunk_set_time structured] in *.
  - apply Ok_inj in Hc. subst c'. split; [discriminate|]. intros _ b bs be Hb Hs He.
    cbn [chunk_to_bytes] in *. unfold mhit_to_bytes in *.
    cbn [mhit_anim_hash mhit_event_hash mhit_start_time mhit_end_time mhit_element_id
         mhit_phases mhit_ref_hashes mhit_footer_extra].
    eapply swap_times; [reflexivity | exact Hb | exact Hs | exact He].
  - apply Ok_inj in Hc. subst c'. split; [discriminate|]. intros _ b bs be Hb Hs He.
    cbn [chunk_to_bytes] in *. unfold mcol_to_bytes in *.
    cbn [mcol_anim_hash mcol_event_hash mcol_start_time mcol_end_time mcol_element_id
         mcol_phases mcol_ref_count].
    eapply swap_times; [reflexivity | exact Hb | exact Hs | exact He].
  - apply bind_inv in Hc. destruct Hc as (ty & _ & Hc). apply Ok_inj in Hc. subst c'.
    split; [reflexivity | discriminate].
Qed.

(** ** Moving and scaling *)

Lemma length_move_pairs dx dy l : length (move_pairs dx dy l) = length l.
Proof.
  assert (H : forall l, length (move_pairs dx dy l) = length l /\
                        forall x, length (move_pairs dx dy (x :: l)) = S (length l)).
  { clear l. induction l as [|y l [IH1 IH2]]; [split; reflexivity|].
    split; [apply IH2|]. intros x. cbn [move_pairs length]. now rewrite IH1. }
  apply H.
Qed.

Lemma length_scale_pairs cx cy f l :
  length (scale_pairs cx cy f l) = (2 * ((length l + 1) / 2))%nat.
Proof.
  assert (H : forall l,
            length (scale_pairs cx cy f l) = (2 * ((length l + 1) / 2))%nat /\
            forall x, length (scale_pairs cx cy f (x :: l))
                      = (2 * ((S (length l) + 1) / 2))%nat).
  { clear l. induction l as [|y l [IH1 IH2]]; [split; reflexivity|].
    split; [apply IH2|]. intros x. cbn [scale_pairs length]. rewrite IH1.
    replace (S (S (length l)) + 1)%nat with (length l + 1 + 1 * 2)%nat by lia.
    rewrite Nat.div_add by lia. lia. }
  apply H.
Qed.

Lemma floats_after_move ph dx dy :
  length (phase_get_floats (phase_move ph dx dy)) = length (phase_get_floats ph).
Proof.
  unfold phase_get_floats, phase_move. cbn [_raw_floats].
  destruct (_raw_floats ph); cbn [option_map length]; [apply length_move_pairs | reflexivity].
Qed.

Lemma floats_after_scale ph f :
  length (phase_get_floats (phase_scale ph f))
  = (2 * ((length (phase_get_floats ph) + 1) / 2))%nat.
Proof.
  unfold phase_get_floats, phase_scale. cbn [_raw_floats].
  destruct (_raw_floats ph); cbn [option_map]; [apply length_scale_pairs | reflexivity].
Qed.

Lemma sum_N_map_ext {A} (f : A -> N) (g : A -> A) l :
  (forall x, f (g x) = f x) -> sum_N (map f (map g l)) = sum_N (map f l).
Proof.
  intros H. rewrite map_map. apply sum_N_ext. apply Forall_forall. intros x _. apply H.
Qed.

Lemma mcol_byte_size_phases e phs :
  map cp_phase_byte_size phs = map cp_phase_byte_size (mcol_phases e) ->
  mcol_byte_size (mcol_with_phases e phs) = mcol_byte_size e.
Proof.
  intros H. unfold mcol_byte_size, mcol_with_phases. cbn [mcol_phases]. now rewrite H.
Qed.

Lemma mcol_move_size e dx dy : mcol_byte_size (mcol_move e dx dy) = mcol_byte_size e.
Proof.
  unfold mcol_move. apply mcol_byte_size_phases. rewrite map_map. apply map_ext.
  intros ph. unfold cp_phase_byte_size, cp_move. cbn [segments]. now rewrite len_map.
Qed.

Lemma mcol_scale_size e f : mcol_byte_size (mcol_scale e f) = mcol_byte_size e.
Proof.
  unfold mcol_scale. destruct (mcol_get_bounds e) as [[[bx1 by1] bx2] by2].
  apply mcol_byte_size_phases. rewrite map_map. apply map_ext.
  intros ph. unfold cp_phase_byte_size, cp_scale.
  destruct (cp_get_bounds ph) as [[[? ?] ?] ?]. cbn [segments]. now rewrite len_map.
Qed.

(** Moving a chunk never changes the number of bytes it is written as.
    Scaling does not either when each hit phase holds as many floats as its
    point count says (as after [load]); in general it leaves a hit phase with
    the next even number of floats.  Neither changes [byte_size], and a raw
    chunk is left as it is. *)
Theorem edit_keeps_size (c c' : chunk) :
  (forall dx dy,
     chunk_move c dx dy = Ok c' ->
     chunk_byte_size c' = chunk_byte_size c /\ (sized c -> sized c') /\
     (structured c = false -> c' = c) /\
     forall b b', chunk_to_bytes c = Ok b -> chunk_to_bytes c' = Ok b' -> len b' = len b) /\
  (forall f,
     chunk_scale c f = Ok c' ->
     chunk_byte_size c' = chunk_byte_size c /\ (sized c -> sized c') /\
     (structured c = false -> c' = c) /\
     (sized c ->
      forall b b', chunk_to_bytes c = Ok b -> chunk_to_bytes c' = Ok b' -> len b' = len b)) /\
  (forall ph f,
     len (phase_get_floats (phase_scale ph f)) = 2 * ((len (phase_get_floats ph) + 1) / 2)).
Proof.
  split; [|split].
  - intros dx dy H. destruct c as [e|e|magic raw]; cbn [chunk_move] in H.
    + apply Ok_inj in H. subst c'. cbn [chunk_byte_size sized structured chunk_to_bytes].
      split; [|split; [|split; [discriminate|]]].
      * unfold mhit_byte_size, mhit_with_phases.
        cbn [mhit_phases mhit_ref_hashes mhit_footer_extra].
        now rewrite sum_N_map_ext by reflexivity.
      * unfold mhit_with_phases. cbn [mhit_phases]. intros Hs. apply Forall_map.
        eapply Forall_impl; [|exact Hs]. intros ph Hph. cbn beta in *.
        unfold len in *. rewrite floats_after_move. exact Hph.
      * intros b b' Hb Hb'. apply mhit_to_bytes_len in Hb, Hb'. rewrite Hb, Hb'.
        unfold mhit_with_phases. cbn [mhit_phases mhit_ref_hashes mhit_footer_extra].
        rewrite sum_N_map_ext; [reflexivity|]. intros ph. unfold len.
        now rewrite floats_after_move.
    + apply Ok_inj in H. subst c'. cbn [chunk_byte_size sized structured chunk_to_bytes].
      split; [apply mcol_move_size|]. split; [auto|]. split; [discriminate|].
      intros b b' Hb Hb'. apply mcol_to_bytes_len in Hb, Hb'.
      now rewrite Hb, Hb', mcol_move_size.
    + apply bind_inv in H. destruct H as (ty & _ & H). apply Ok_inj in H. subst c'.
      repeat split; auto. intros b b' Hb Hb'. rewrite Hb in Hb'. apply Ok_inj in Hb'.
      now subst.
  - intros f H. destruct c as [e|e|magic raw]; cbn [chunk_scale] in H.
    + apply Ok_inj in H. subst c'. cbn [chunk_byte_size sized structured chunk_to_bytes].
      assert (Hkeep : Forall (fun ph => len (phase_get_floats ph) = num_floats ph)
                        (mhit_phases e) ->
                      Forall (fun ph => len (phase_get_floats (phase_scale ph f))
                                        = len (phase_get_floats ph)) (mhit_phases e)).
      { intros Hs. eapply Forall_impl; [|exact Hs]. intros ph Hph. cbn beta in *.
        unfold len in *. rewrite floats_after_scale. unfold num_floats in Hph.
        assert (Hev : length (phase_get_floats ph) = (N.to_nat (bbox_type ph) * 2)%nat) by lia.
        rewrite Hev. replace (N.to_nat (bbox_type ph) * 2 + 1)%nat
          with (1 + N.to_nat (bbox_type ph) * 2)%nat by lia.
        rewrite Nat.div_add by lia. cbn [Nat.div]. f_equal. cbn. lia. }
      split; [|split; [|split; [discriminate|]]].
      * unfold mhit_byte_size, mhit_with_phases.
        cbn [mhit_phases mhit_ref_hashes mhit_footer_extra].
        now rewrite sum_N_map_ext by reflexivity.
      * unfold mhit_with_phases. cbn [mhit_phases]. intros Hs. apply Forall_map.
        pose proof (Hkeep Hs) as Hk. rewrite Forall_forall in *. intros ph Hin.
        rewrite (Hk ph Hin). unfold num_floats. cbn [phase_scale bbox_type].
        apply (Hs ph Hin).
      * intros Hs b b' Hb Hb'. apply mhit_to_bytes_len in Hb, Hb'. rewrite Hb, Hb'.
        unfold mhit_with_phases. cbn [mhit_phases mhit_ref_hashes mhit_footer_extra].
        rewrite map_map.
        rewrite (sum_N_ext _ (fun ph => 8 + 4 * len (phase_get_floats ph)) (mhit_phases e));
          [reflexivity|].
        eapply Forall_impl; [|exact (Hkeep Hs)]. intros ph Hph. cbn beta in *.
        now rewrite Hph.
    + apply Ok_inj in H. subst c'. cbn [chunk_byte_size sized structured chunk_to_bytes].
      split; [apply mcol_scale_size|]. split; [auto|]. split; [discriminate|].
      intros _ b b' Hb Hb'. apply mcol_to_bytes_len in Hb, Hb'.
      now rewrite Hb, Hb', mcol_scale_size.
    + apply bind_inv in H. destruct H as (ty & _ & H). apply Ok_inj in H. subst c'.
      repeat split; auto. intros _ b b' Hb Hb'. rewrite Hb in Hb'. apply Ok_inj in Hb'.
      now subst.
  - intros ph f. unfold len. rewrite floats_after_scale.
    rewrite Nat2N.inj_mul, Nat2N.inj_div, Nat2N.inj_add. reflexivity.
Qed.

End CanimMetaProps.
